(** * CrewHu notification clean-up: a model of [cleanjsondata.py]

    The development embeds the survey-extraction pipeline of
    [src/cleanjsondata.py] and proves properties of it.

    Modelling conventions.
    - A Python [str] is a [list ascii]; a character is a code point below
      256 (the Latin-1 range).  On that range the character tables used
      below ([str.isspace], [str.lower], [\d], [\w], the line boundaries
      of [str.splitlines], the white space accepted by [int]) are the
      ones of CPython 3.  Beyond that range [re.IGNORECASE] and
      [str.lower] part ways on the dotless and the dotted i, which the
      model does not show.
    - A Python [int] is a [Z].  [int(str)] raises [ValueError] for a
      malformed literal and for one of more than 4300 digits, the default
      of [sys.get_int_max_str_digits()]; [str(int)] is only applied to
      numbers that [int] has read, which have no more digits than that.
    - The [re] module is modelled by a backtracking matcher over the
      constructs that occur in the source patterns; priorities (greedy,
      lazy, left alternative first, leftmost start) are those of [re].
    - A raised exception is a value of the [res] type; file input/output
      and printing are left out, the pipeline is a function from the list
      of notifications to the sorted entries and the [missed] list. *)

From Stdlib Require Import ZArith NArith Ascii String List Lia DecimalString.
From stdpp Require Import base option list strings gmap sorting.

#[local] Set Warnings "-clear-no-such-hyp".

Local Open Scope string_scope.
Local Open Scope nat_scope.
Local Open Scope list_scope.
Local Open Scope stdpp_scope.

Abbreviation str := (list ascii).
Coercion list_ascii_of_string : string >-> list.

(** ** Characters *)

Module Chr.

Definition code (c : ascii) : N := N_of_ascii c.

Definition between (lo hi : N) (c : ascii) : bool :=
  ((lo <=? code c) && (code c <=? hi))%N.

Definition codeis (n : N) (c : ascii) : bool := (code c =? n)%N.

(** [str.isspace], also the class [\s] of [re]. *)
Definition isspace (c : ascii) : bool :=
  between 9 13 c || between 28 31 c || codeis 32 c || codeis 133 c || codeis 160 c.

(** The class [\d] of [re]. *)
Definition isdecimal (c : ascii) : bool := between 48 57 c.

(** Word characters, for [\b]: alphanumerics and the underscore. *)
Definition isword (c : ascii) : bool :=
  between 48 57 c || between 65 90 c || codeis 95 c || between 97 122 c
  || codeis 170 c || between 178 179 c || codeis 181 c || between 185 186 c
  || between 188 190 c || between 192 214 c || between 216 246 c
  || between 248 255 c.

(** Line boundaries of [str.splitlines]. *)
Definition islinebreak (c : ascii) : bool :=
  between 10 13 c || between 28 30 c || codeis 133 c.

(** White space skipped by [int] around the number. *)
Definition isintspace (c : ascii) : bool :=
  between 9 13 c || codeis 32 c || codeis 133 c || codeis 160 c.

(** [str.lower] on one character. *)
Definition lower (c : ascii) : ascii :=
  if between 65 90 c || between 192 214 c || between 216 222 c
  then ascii_of_N (code c + 32) else c.

Definition LF : ascii := ascii_of_N 10.
Definition CR : ascii := ascii_of_N 13.
Definition QUOTE : ascii := ascii_of_N 34.

End Chr.

(** ** String methods *)

Module Str.

Definition lower (s : str) : str := Chr.lower <$> s.

Fixpoint startswith (p s : str) : bool :=
  match p, s with
  | [], _ => true
  | a :: p', b :: s' => Ascii.eqb a b && startswith p' s'
  | _ :: _, [] => false
  end.

(** [needle in hay] *)
Fixpoint contains (needle hay : str) : bool :=
  startswith needle hay ||
  match hay with
  | [] => false
  | _ :: hay' => contains needle hay'
  end.

Fixpoint drop_while (p : ascii → bool) (s : str) : str :=
  match s with
  | [] => []
  | c :: s' => if p c then drop_while p s' else s
  end.

Definition strip_with (p : ascii → bool) (s : str) : str :=
  rev (drop_while p (rev (drop_while p s))).

(** [s.strip()] *)
Definition strip (s : str) : str := strip_with Chr.isspace s.

(** [s.strip(chars)] *)
Definition strip_chars (chars : str) (s : str) : str :=
  strip_with (λ c, existsb (Ascii.eqb c) chars) s.

(** [s.split(sep, 1)[0]] for a non-empty [sep]: the text before the first
    occurrence of [sep], the whole of [s] when there is none. *)
Fixpoint before_first (sep s : str) : str :=
  if startswith sep s then []
  else match s with
       | [] => []
       | c :: s' => c :: before_first sep s'
       end.

(** [s.replace(a, b)] for single characters. *)
Definition replace_chr (a b : ascii) (s : str) : str :=
  (λ c, if Ascii.eqb c a then b else c) <$> s.

(** [s.splitlines()]: a carriage return followed by a line feed is one
    boundary, and a boundary at the very end opens no further line. *)
Fixpoint splitlines (s : str) : list str :=
  match s with
  | [] => []
  | c :: s' =>
      if Chr.islinebreak c then
        match s' with
        | d :: s'' =>
            if Ascii.eqb c Chr.CR && Ascii.eqb d Chr.LF
            then [] :: splitlines s''
            else [] :: splitlines s'
        | [] => [[]]
        end
      else
        match splitlines s' with
        | [] => [[c]]
        | l :: ls => (c :: l) :: ls
        end
  end.

(** [sep.join(parts)] *)
Fixpoint join (sep : str) (parts : list str) : str :=
  match parts with
  | [] => []
  | [p] => p
  | p :: ps => p ++ sep ++ join sep ps
  end.

(** The truth value of a string. *)
Definition truthy (s : str) : bool :=
  match s with [] => false | _ :: _ => true end.

End Str.

(** ** Regular expressions

    The constructs of the source patterns.  Every repetition in them is
    over a single character class, so [Rep] takes a class; [(?:...)?] is
    [Opt].  A group is known by its name; the unnamed group of
    [FEEDBACK_PATTERN] and of [TICKET_ID_PATTERN] is group ["1"]. *)

Module Re.

Inductive cclass :=
| CAny                      (* .      *)
| CDigit                    (* \d     *)
| CSpace                    (* \s     *)
| CNot (c : ascii).         (* [^c]   *)

#[global] Instance cclass_eq_dec : EqDecision cclass.
Proof. solve_decision. Defined.

Inductive regex :=
| Eps
| Lit (c : ascii)
| Cls (k : cclass)
| Rep (lazy : bool) (min : nat) (k : cclass)
| Opt (r : regex)
| Seq (r1 r2 : regex)
| Alt (r1 r2 : regex)
| Group (name : string) (r : regex)
| Eol                       (* $      *)
| WordB.                    (* \b     *)

Record flags := Flags { IGNORECASE : bool; DOTALL : bool }.

(** The position of the matcher: the character just read, the text still
    to read, and the groups captured so far. *)
Record mstate := MState {
  prev : option ascii;
  rest : str;
  caps : gmap string str
}.

Definition lit_ok (f : flags) (x c : ascii) : bool :=
  if IGNORECASE f then Ascii.eqb (Chr.lower x) (Chr.lower c) else Ascii.eqb x c.

Definition class_ok (f : flags) (k : cclass) (c : ascii) : bool :=
  match k with
  | CAny => DOTALL f || negb (Ascii.eqb c Chr.LF)
  | CDigit => Chr.isdecimal c
  | CSpace => Chr.isspace c
  | CNot x => negb (lit_ok f x c)
  end.

(** [$] without [MULTILINE]: at the end, or before a final line feed. *)
Definition at_end (s : str) : bool :=
  match s with
  | [] => true
  | [c] => Ascii.eqb c Chr.LF
  | _ => false
  end.

Definition word_at (o : option ascii) : bool :=
  match o with Some c => Chr.isword c | None => false end.

Definition at_boundary (st : mstate) : bool :=
  xorb (word_at (prev st)) (word_at (head (rest st))).

(** The text read between two positions of the same subject. *)
Definition consumed (s0 s1 : str) : str := take (length s0 - length s1) s0.

Section matcher.
Variable f : flags.
Variable k : cclass.

(** [k{min,}]: as many characters as possible first. *)
Fixpoint rep_greedy (min : nat) (p : option ascii) (s : str)
    (cont : option ascii → str → option mstate) : option mstate :=
  match s with
  | c :: s' =>
      if class_ok f k c then
        match rep_greedy (pred min) (Some c) s' cont with
        | Some r => Some r
        | None => match min with O => cont p s | S _ => None end
        end
      else match min with O => cont p s | S _ => None end
  | [] => match min with O => cont p s | S _ => None end
  end.

(** [k{min,}?]: as few characters as possible first. *)
Fixpoint rep_lazy (min : nat) (p : option ascii) (s : str)
    (cont : option ascii → str → option mstate) : option mstate :=
  match min with
  | O =>
      match cont p s with
      | Some r => Some r
      | None =>
          match s with
          | c :: s' => if class_ok f k c then rep_lazy O (Some c) s' cont else None
          | [] => None
          end
      end
  | S min' =>
      match s with
      | c :: s' => if class_ok f k c then rep_lazy min' (Some c) s' cont else None
      | [] => None
      end
  end.
End matcher.

Section engine.
Variable f : flags.

(** Backtracking matcher in continuation-passing style: [cont] is the
    rest of the pattern, the first successful path is the result. *)
Fixpoint rmatch (r : regex) (st : mstate) (cont : mstate → option mstate)
    : option mstate :=
  match r with
  | Eps => cont st
  | Lit x =>
      match rest st with
      | c :: s' => if lit_ok f x c then cont (MState (Some c) s' (caps st)) else None
      | [] => None
      end
  | Cls k =>
      match rest st with
      | c :: s' => if class_ok f k c then cont (MState (Some c) s' (caps st)) else None
      | [] => None
      end
  | Rep lazy min k =>
      (if lazy then rep_lazy f k else rep_greedy f k) min (prev st) (rest st)
        (λ p s, cont (MState p s (caps st)))
  | Opt r1 =>
      match rmatch r1 st cont with
      | Some res => Some res
      | None => cont st
      end
  | Seq r1 r2 => rmatch r1 st (λ st1, rmatch r2 st1 cont)
  | Alt r1 r2 =>
      match rmatch r1 st cont with
      | Some res => Some res
      | None => rmatch r2 st cont
      end
  | Group name r1 =>
      rmatch r1 st (λ st1,
        cont (MState (prev st1) (rest st1)
                     (<[name := consumed (rest st) (rest st1)]> (caps st1))))
  | Eol => if at_end (rest st) then cont st else None
  | WordB => if at_boundary st then cont st else None
  end.

(** A match object: the text before the match, the matched text, the
    text after it and the groups. *)
Record mobj := MObj {
  m_before : str;
  m_text : str;
  m_after : str;
  m_groups : gmap string str
}.

(** [pattern.match] at the position reached after [before]. *)
Definition match_here (r : regex) (before : str) (p : option ascii) (s : str)
    : option mobj :=
  match rmatch r (MState p s ∅) Some with
  | Some st => Some (MObj before (consumed s (rest st)) (rest st) (caps st))
  | None => None
  end.

Fixpoint search_from (r : regex) (before_rev : str) (p : option ascii) (s : str)
    : option mobj :=
  match match_here r (rev before_rev) p s with
  | Some m => Some m
  | None =>
      match s with
      | [] => None
      | c :: s' => search_from r (c :: before_rev) (Some c) s'
      end
  end.

(** [pattern.search(s)]: the match at the leftmost possible start. *)
Definition search (r : regex) (s : str) : option mobj :=
  search_from r [] None s.

(** [pattern.sub(repl, s)] for a plain replacement text.  After a
    non-empty match the scan resumes at its end; an empty match also
    copies the character it stands before. *)
Fixpoint sub_from (r : regex) (repl : str) (skip : nat) (p : option ascii)
    (s : str) : str :=
  match skip with
  | S skip' =>
      match s with
      | [] => []
      | c :: s' => sub_from r repl skip' (Some c) s'
      end
  | O =>
      match match_here r [] p s, s with
      | Some m, c :: s' =>
          match length (m_text m) with
          | O => repl ++ c :: sub_from r repl O (Some c) s'
          | S n => repl ++ sub_from r repl n (Some c) s'
          end
      | Some m, [] => repl
      | None, c :: s' => c :: sub_from r repl O (Some c) s'
      | None, [] => []
      end
  end.

Definition sub (r : regex) (repl : str) (s : str) : str :=
  sub_from r repl O None s.

(** [pattern.split(s, 1)[0]] for a pattern without groups that matches
    no empty text. *)
Definition split_first (r : regex) (s : str) : str :=
  match search r s with
  | Some m => m_before m
  | None => s
  end.
End engine.

(** The names of the groups of a pattern, in order. *)
Fixpoint group_names (r : regex) : list string :=
  match r with
  | Opt r1 => group_names r1
  | Seq r1 r2 | Alt r1 r2 => group_names r1 ++ group_names r2
  | Group name r1 => name :: group_names r1
  | _ => []
  end.

(** [match.groupdict()]: every group of the pattern, [None] for a group
    that took no part in the match. *)
Definition groupdict (r : regex) (m : mobj) : gmap string (option str) :=
  list_to_map ((λ name, (name, m_groups m !! name)) <$> group_names r).

(** [match.group(name)] *)
Definition group (m : mobj) (name : string) : option str := m_groups m !! name.

(** Pattern text without special characters. *)
Fixpoint lits (w : str) : regex :=
  match w with
  | [] => Eps
  | c :: w' => Seq (Lit c) (lits w')
  end.

Fixpoint seq (rs : list regex) : regex :=
  match rs with
  | [] => Eps
  | [r] => r
  | r :: rs' => Seq r (seq rs')
  end.

Record pattern := Pattern { p_regex : regex; p_flags : flags }.

Definition p_search (p : pattern) : str → option mobj := search (p_flags p) (p_regex p).

End Re.

(** ** Exceptions and integers *)

Inductive exn := ValueError | TypeError | AttributeError.

Inductive res (A : Type) :=
| Ret (a : A)
| Raise (e : exn).
Arguments Ret {A} a.
Arguments Raise {A} e.

Definition bind {A B : Type} (x : res A) (g : A → res B) : res B :=
  match x with
  | Ret a => g a
  | Raise e => Raise e
  end.

#[global] Instance res_bind : MBind res := λ A B g x, bind x g.
#[global] Instance res_ret : MRet res := λ A a, Ret a.

Module Int.

Definition digit_val (c : ascii) : Z := Z.of_N (Chr.code c) - 48.

(** The digits of a decimal literal; one underscore may stand between two
    digits.  [after_digit] tells whether the character before was a digit. *)
Fixpoint digits (acc : Z) (after_digit : bool) (s : str) : option Z :=
  match s with
  | [] => if after_digit then Some acc else None
  | c :: s' =>
      if Chr.isdecimal c then digits (10 * acc + digit_val c) true s'
      else if Ascii.eqb c "_" && after_digit then
        match s' with
        | d :: _ => if Chr.isdecimal d then digits acc false s' else None
        | [] => None
        end
      else None
  end.

(** The default of [sys.get_int_max_str_digits()]. *)
Definition max_str_digits : nat := 4300.

(** The digits of a literal; the sign and the underscores do not count. *)
Definition digit_count (s : str) : nat := length (List.filter Chr.isdecimal s).

(** [int(s)] in base ten: surrounding white space, an optional sign, the
    digits.  [None] stands for the [ValueError] of a malformed literal and
    of a literal with more digits than the interpreter converts. *)
Definition of_str (s : str) : option Z :=
  match Str.strip_with Chr.isintspace s with
  | c :: t =>
      if max_str_digits <? digit_count (c :: t) then None
      else if Ascii.eqb c "-" then Z.opp <$> digits 0 false t
      else if Ascii.eqb c "+" then digits 0 false t
      else digits 0 false (c :: t)
  | [] => None
  end.

(** [str(n)], as an f-string prints an integer. *)
Definition to_str (n : Z) : str :=
  list_ascii_of_string (NilZero.string_of_int (Z.to_int n)).

End Int.

(** ** The source *)

Record SurveyEntry := mkSurveyEntry {
  ticket_number : Z;
  summary : str;
  customer_feedback : str
}.

Definition any_plus : Re.regex := Re.Rep true 1 Re.CAny.          (* .+?     *)
Definition digits_plus : Re.regex := Re.Rep false 1 Re.CDigit.    (* \d+     *)
Definition spaces : Re.regex := Re.Rep false 0 Re.CSpace.         (* \s*     *)
Definition desc_text : Re.regex := Re.Rep true 0 (Re.CNot ")").   (* [^)]*?  *)
Definition dot_or_end : Re.regex := Re.Alt (Re.Lit ".") Re.Eol.   (* (?:\.|$) *)
Definition colleague : Re.regex := Re.Opt (Re.lits "your colleague ").

Definition ticket_part : list Re.regex :=
  [ Re.Group "ticket_id" digits_plus; spaces; Re.Lit "(";
    Re.Group "ticket_desc" desc_text; Re.Lit ")" ].

Definition ICASE : Re.flags := Re.Flags true false.

(** The six patterns, in the order of the source, each compiled with
    [IGNORECASE].  Every named group is [.+?], except [ticket_id], which
    is [\d+], and [ticket_desc], which is [[^)]*?] between brackets. *)
Definition RATING_PATTERNS : list Re.pattern :=
  [ (* Name from Company gave a Positive rating to Tech for Categories
       on ticket# 123 (Description) *)
    Re.Pattern (Re.seq (
      [ Re.Group "customer" any_plus; Re.lits " from ";
        Re.Group "company" any_plus; Re.lits " gave a ";
        Re.Group "rating" any_plus; Re.lits " rating to ";
        Re.Group "employee" any_plus; Re.lits " for ";
        Re.Group "categories" any_plus; Re.lits " on ticket# " ]
      ++ ticket_part)) ICASE;
    (* Name from Company gave a Positive Rating for Categories
       on ticket# 123 (Description) to your colleague Tech. *)
    Re.Pattern (Re.seq (
      [ Re.Group "customer" any_plus; Re.lits " from ";
        Re.Group "company" any_plus; Re.lits " gave a ";
        Re.Group "rating" any_plus; Re.lits " rating for ";
        Re.Group "categories" any_plus; Re.lits " on ticket# " ]
      ++ ticket_part ++
      [ spaces; Re.lits "to "; colleague;
        Re.Group "employee" any_plus; dot_or_end ])) ICASE;
    (* Company gave a Positive rating to Tech for Categories
       on ticket# 123 (Description) *)
    Re.Pattern (Re.seq (
      [ Re.Group "company" any_plus; Re.lits " gave a ";
        Re.Group "rating" any_plus; Re.lits " rating to ";
        Re.Group "employee" any_plus; Re.lits " for ";
        Re.Group "categories" any_plus; Re.lits " on ticket# " ]
      ++ ticket_part)) ICASE;
    (* Name from Company gave a Positive rating to Tech
       for ticket# 123 (Description) *)
    Re.Pattern (Re.seq (
      [ Re.Group "customer" any_plus; Re.lits " from ";
        Re.Group "company" any_plus; Re.lits " gave a ";
        Re.Group "rating" any_plus; Re.lits " rating to ";
        Re.Group "employee" any_plus; Re.lits " for ticket# " ]
      ++ ticket_part)) ICASE;
    (* Company gave a Positive rating to Tech for ticket# 123 (Description) *)
    Re.Pattern (Re.seq (
      [ Re.Group "company" any_plus; Re.lits " gave a ";
        Re.Group "rating" any_plus; Re.lits " rating to ";
        Re.Group "employee" any_plus; Re.lits " for ticket# " ]
      ++ ticket_part)) ICASE;
    (* Company gave a Positive Rating for ticket# 123 (Description) to Tech. *)
    Re.Pattern (Re.seq (
      [ Re.Group "company" any_plus; Re.lits " gave a ";
        Re.Group "rating" any_plus; Re.lits " rating for ticket# " ]
      ++ ticket_part ++
      [ spaces; Re.lits "to "; colleague;
        Re.Group "employee" any_plus; dot_or_end ])) ICASE ].

(** [Customer feedback:], then [\s*], then the group [.*] up to the end
    of the body; compiled with [IGNORECASE | DOTALL]. *)
Definition FEEDBACK_PATTERN : Re.pattern :=
  Re.Pattern (Re.seq [ Re.lits "Customer feedback:"; spaces;
                       Re.Group "1" (Re.Rep false 0 Re.CAny) ])
             (Re.Flags true true).

(** [ticket#], then [\s*], then the group [\d+]; compiled with
    [IGNORECASE]. *)
Definition TICKET_ID_PATTERN : Re.pattern :=
  Re.Pattern (Re.seq [ Re.lits "ticket#"; spaces; Re.Group "1" digits_plus ]) ICASE.

(** [\s+], the pattern of [normalize_text] *)
Definition WHITESPACE_RUN : Re.pattern :=
  Re.Pattern (Re.Rep false 1 Re.CSpace) (Re.Flags false false).

(** [\bClick here\b|Regards,], the pattern of [extract_feedback] *)
Definition BOILERPLATE : Re.pattern :=
  Re.Pattern (Re.Alt (Re.seq [ Re.WordB; Re.lits "Click here"; Re.WordB ])
                     (Re.lits "Regards,"))
             (Re.Flags false false).

Definition NO_FEEDBACK : str := "No feedback provided.".

Fixpoint coalesce (values : list (option str)) (default : str) : str :=
  match values with
  | [] => default
  | None :: values' => coalesce values' default
  | Some val :: values' =>
      let text := Str.strip val in
      if Str.truthy text then text else coalesce values' default
  end.

Definition normalize_text (value : str) : str :=
  let text := Str.strip value in
  Re.sub (Re.p_flags WHITESPACE_RUN) (Re.p_regex WHITESPACE_RUN) " " text.

(** The statements of [extract_feedback] after the marker was found;
    [captured] is [match.group(1)]. *)
Definition feedback_text (captured : str) : str :=
  let feedback := Str.strip captured in
  let feedback := Str.strip_chars [Chr.QUOTE] feedback in
  let feedback := Str.before_first [Chr.LF; Chr.LF] feedback in
  let feedback :=
    Re.split_first (Re.p_flags BOILERPLATE) (Re.p_regex BOILERPLATE) feedback in
  let feedback := Str.splitlines (Str.replace_chr Chr.CR Chr.LF feedback) in
  Str.join " " (Str.strip <$> List.filter (λ line, Str.truthy (Str.strip line)) feedback).

Definition extract_feedback (full_body : str) : res str :=
  match Re.p_search FEEDBACK_PATTERN full_body with
  | None => Ret NO_FEEDBACK
  | Some m =>
      match Re.group m "1" with
      | None => Raise AttributeError
      | Some captured =>
          let feedback := feedback_text captured in
          Ret (if Str.truthy feedback then feedback else NO_FEEDBACK)
      end
  end.

(** [match_data.get(key)]: [None] for a missing key as for a group that
    took no part in the match. *)
Definition get (match_data : gmap string (option str)) (key : string) : option str :=
  mjoin (match_data !! key).

(** The comprehension that normalizes the captured strings. *)
Definition normalize_values (data : gmap string (option str)) : gmap string (option str) :=
  (λ v : option str, normalize_text <$> v) <$> data.

(** The inner loop of [match_rating_line]: the patterns on one line. *)
Fixpoint match_line (patterns : list Re.pattern) (line : str)
    : option (gmap string (option str)) :=
  match patterns with
  | [] => None
  | pattern :: patterns' =>
      match Re.p_search pattern line with
      | Some m => Some (normalize_values (Re.groupdict (Re.p_regex pattern) m))
      | None => match_line patterns' line
      end
  end.

(** The outer loop of [match_rating_line]. *)
Fixpoint match_lines (patterns : list Re.pattern) (lines : list str)
    : option (gmap string (option str)) :=
  match lines with
  | [] => None
  | line :: lines' =>
      match match_line patterns line with
      | Some data => Some data
      | None => match_lines patterns lines'
      end
  end.

Definition cleaned_lines (full_body : str) : list str :=
  Str.strip <$>
    List.filter (λ line, Str.contains "rating" (Str.lower line))
                (Str.splitlines full_body).

Definition match_rating_line (full_body : str) : option (gmap string (option str)) :=
  match_lines RATING_PATTERNS (cleaned_lines full_body).

(** [a or b] on optional strings *)
Definition or_else (a b : option str) : option str :=
  match a with
  | Some s => if Str.truthy s then a else b
  | None => b
  end.

Definition build_summary (match_data : gmap string (option str))
    : res (option SurveyEntry) :=
  match or_else (get match_data "ticket_id") (get match_data "ticket_number") with
  | None => Ret None
  | Some ticket =>
      if negb (Str.truthy ticket) then Ret None
      else
        match Int.of_str ticket with
        | None => Raise ValueError
        | Some ticket_number =>
            let employee := coalesce [get match_data "employee"] "Unknown technician" in
            let company := coalesce [get match_data "company"] "Unknown company" in
            let customer := coalesce [get match_data "customer"] "A customer" in
            let rating := coalesce [get match_data "rating"] "Positive" in
            let categories :=
              coalesce [get match_data "categories"] "(categories not provided)" in
            let ticket_desc := coalesce [get match_data "ticket_desc"] "" in
            let summary_sentence : str :=
              customer ++ " from " ++ company ++ " just gave a " ++ rating
              ++ " rating to " ++ employee ++ " for " ++ categories
              ++ " on ticket# " ++ Int.to_str ticket_number
              ++ " (" ++ ticket_desc ++ ")." in
            Ret (Some (mkSurveyEntry ticket_number summary_sentence ""))
        end
  end.

(** A notification object; [None] is a missing key. *)
Record email := Email {
  Subject : option str;
  FullBody : option str
}.

(** The two collections of [parse_crewhu_data]. *)
Record store := Store {
  surveys : gmap Z SurveyEntry;
  missed : list Z
}.

(** The truth value of the result of [match_rating_line]. *)
Definition found (match_data : option (gmap string (option str)))
    : option (gmap string (option str)) :=
  match match_data with
  | Some data => if decide (data = ∅) then None else Some data
  | None => None
  end.

(** One turn of the loop over the notifications. *)
Definition process (st : store) (e : email) : res store :=
  let subject := default [] (Subject e) in
  let full_body := default [] (FullBody e) in
  if negb (Str.contains "rating" (Str.lower subject)) then Ret st
  else
    match found (match_rating_line full_body) with
    | None =>
        match Re.p_search TICKET_ID_PATTERN full_body with
        | Some raw_ticket =>
            match Re.group raw_ticket "1" with
            | None => Raise TypeError
            | Some digits =>
                match Int.of_str digits with
                | None => Raise ValueError
                | Some ticket_num =>
                    if decide (ticket_num ∈ dom (surveys st))
                    then Ret st
                    else Ret (Store (surveys st) (missed st ++ [ticket_num]))
                end
            end
        | None => Ret st
        end
    | Some match_data =>
        survey_entry ← build_summary match_data;
        match survey_entry with
        | None => Ret st
        | Some entry =>
            feedback ← extract_feedback full_body;
            let entry := mkSurveyEntry (ticket_number entry) (summary entry) feedback in
            Ret (Store (<[ticket_number entry := entry]> (surveys st)) (missed st))
        end
    end.

Fixpoint process_all (st : store) (emails : list email) : res store :=
  match emails with
  | [] => Ret st
  | e :: emails' => st' ← process st e; process_all st' emails'
  end.

Definition by_ticket (x y : SurveyEntry) : Prop :=
  (ticket_number x <= ticket_number y)%Z.

#[global] Instance by_ticket_dec x y : Decision (by_ticket x y) :=
  Z_le_dec (ticket_number x) (ticket_number y).

(** [sorted(surveys.values(), key=lambda x: x.ticket_number)].  The
    dictionary hands its values over in the order of insertion, the map in
    an order of its own; the keys being the ticket numbers of the values,
    the sorted list is the same ([sorted_entries_any_order] below). *)
Definition sorted_entries (st : store) : list SurveyEntry :=
  merge_sort by_ticket ((map_to_list (surveys st)).*2).

(** [sorted(set(missed))], the tickets of the closing report *)
Definition missed_report (st : store) : list Z :=
  merge_sort Z.le (remove_dups (missed st)).

(** [parse_crewhu_data] on the notifications read from the input file:
    the entries written to the output file, and the [missed] list. *)
Definition parse_crewhu_data (emails : list email) : res (list SurveyEntry * list Z) :=
  st ← process_all (Store ∅ []) emails;
  Ret (sorted_entries st, missed st).

(** ** Notions used in the statements *)

(** [w] occurs in [s] up to letter case. *)
Definition mentions (w s : str) : Prop :=
  ∃ pre x post, s = pre ++ x ++ post ∧ Str.lower x = Str.lower w.

Definition subject_of (e : email) : str := default [] (Subject e).
Definition body_of (e : email) : str := default [] (FullBody e).

(** The leading characters of [s] that satisfy [p]. *)
Fixpoint take_while (p : ascii → bool) (s : str) : str :=
  match s with
  | [] => []
  | c :: s' => if p c then c :: take_while p s' else []
  end.

(** What [normalize_text] does to the stripped text, written as one pass:
    a run of white space becomes one space.  [in_run] tells whether the
    character before belonged to such a run. *)
Fixpoint collapse (in_run : bool) (s : str) : str :=
  match s with
  | [] => []
  | c :: s' =>
      if Chr.isspace c then
        if in_run then collapse true s' else " "%char :: collapse true s'
      else c :: collapse false s'
  end.

(** Every group [g] of the pattern is a repetition, at least [min] times,
    of the class [k]. *)
Fixpoint group_shape (g : string) (k : Re.cclass) (min : nat) (r : Re.regex) : bool :=
  match r with
  | Re.Group n r1 =>
      if decide (n = g) then
        match r1 with
        | Re.Rep _ m k' => bool_decide (k' = k) && (min <=? m)
        | _ => false
        end
      else group_shape g k min r1
  | Re.Opt r1 => group_shape g k min r1
  | Re.Seq r1 r2 | Re.Alt r1 r2 => group_shape g k min r1 && group_shape g k min r2
  | _ => true
  end.

(** Every successful path through the pattern goes through a group [g]. *)
Fixpoint sets_group (g : string) (r : Re.regex) : bool :=
  match r with
  | Re.Group n r1 => bool_decide (n = g) || sets_group g r1
  | Re.Seq r1 r2 => sets_group g r1 || sets_group g r2
  | Re.Alt r1 r2 => sets_group g r1 && sets_group g r2
  | _ => false
  end.

(** The captured text of [g], when there is one, is at least [min]
    characters of the class [k]. *)
Definition cap_good (f : Re.flags) (g : string) (k : Re.cclass) (min : nat)
    (c : gmap string str) : Prop :=
  ∀ v, c !! g = Some v → min ≤ length v ∧ Forall (λ x, Re.class_ok f k x = true) v.

(** The entry that a notification yields when it is the whole batch. *)
Definition entry_of (e : email) : option SurveyEntry :=
  match parse_crewhu_data [e] with
  | Ret ([entry], _) => Some entry
  | _ => None
  end.

(** A text of decimal digits. *)
Definition all_decimal (s : str) : Prop := Forall (λ c, Chr.isdecimal c = true) s.

(** Neither the first nor the last character of [s] satisfies [p]. *)
Definition clean_ends (p : ascii → bool) (s : str) : Prop :=
  (∀ c, head s = Some c → p c = false) ∧ (∀ c, last s = Some c → p c = false).

(** The entries that the notifications of a batch yield, in the order of
    the batch. *)
Definition entries_of (emails : list email) : list SurveyEntry := omap entry_of emails.

(** The assignment [surveys[entry.ticket_number] = entry]. *)
Definition upsert (sv : gmap Z SurveyEntry) (x : SurveyEntry) : gmap Z SurveyEntry :=
  <[ticket_number x := x]> sv.

(** The entries among [l] that carry the ticket number [t]. *)
Definition with_ticket (t : Z) (l : list SurveyEntry) : list SurveyEntry :=
  filter (λ y, ticket_number y = t) l.

(** The character before the position reached after reading [run] from a
    position whose character before was [p]. *)
Definition lastp (p : option ascii) (run : str) : option ascii :=
  match last run with
  | Some c => Some c
  | None => p
  end.

(** [s] begins with the pattern text [w] under the flags [f]. *)
Fixpoint lits_ok (f : Re.flags) (w s : str) : bool :=
  match w, s with
  | [], _ => true
  | x :: w', c :: s' => Re.lit_ok f x c && lits_ok f w' s'
  | _ :: _, [] => false
  end.

(** [s] begins with [w] up to letter case. *)
Definition starts_with_ci (w s : str) : bool :=
  bool_decide (Str.lower (take (length w) s) = Str.lower w).

(** Reading a text from the left until [here] answers. *)
Fixpoint scan {X : Type} (here : str → option X) (s : str) : option X :=
  match here s with
  | Some x => Some x
  | None =>
      match s with
      | [] => None
      | _ :: s' => scan here s'
      end
  end.

Definition MARKER : str := "Customer feedback:".

(** The text after the first occurrence of [w], up to letter case. *)
Definition after_marker (w body : str) : option str :=
  scan (λ s, if starts_with_ci w s then Some (drop (length w) s) else None) body.

(** A ticket mention at the start of [s]: the word [ticket#] in any
    letter case, white space if any, and digits, all of which are taken. *)
Definition ticket_here (s : str) : option str :=
  if starts_with_ci "ticket#" s then
    let ds := take_while Chr.isdecimal (Str.drop_while Chr.isspace (drop 7 s)) in
    if Str.truthy ds then Some ds else None
  else None.

(** The digits of the first ticket mention of a body. *)
Definition first_ticket (body : str) : option str := scan ticket_here body.

(** What [match_rating_line] returns for the match [m] of [pat]. *)
Definition result_of (pat : Re.pattern) (m : Re.mobj) : gmap string (option str) :=
  normalize_values (Re.groupdict (Re.p_regex pat) m).

(** The pattern captures the customer besides the company. *)
Definition captures_customer (pat : Re.pattern) : Prop :=
  "customer" ∈ Re.group_names (Re.p_regex pat).

(** The pattern at position [j] of [RATING_PATTERNS], counted from 0. *)
Definition template (j : nat) : Re.pattern :=
  default (Re.Pattern Re.Eps ICASE) (RATING_PATTERNS !! j).

(** No pattern matches a line of the body before its line [i]. *)
Definition no_match_before (full_body : str) (i : nat) : Prop :=
  ∀ i' line' pat', i' < i → cleaned_lines full_body !! i' = Some line' →
                   pat' ∈ RATING_PATTERNS → Re.p_search pat' line' = None.

(** ** Sample inputs *)

Definition rating_line : str :=
  "Jane from Acme gave a Positive rating to Bob for Speed on ticket# 42 (great job)".

Definition rating_body : str :=
  rating_line ++ [Chr.LF] ++ "Customer feedback: Fast fix, thanks!"
  ++ [Chr.LF; Chr.LF] ++ "Regards,".

Definition rating_email : email :=
  Email (Some ("New Rating!" : str)) (Some rating_body).

Definition rating_data : gmap string (option str) :=
  list_to_map
    [ ("customer", Some ("Jane" : str)); ("company", Some ("Acme" : str));
      ("rating", Some ("Positive" : str)); ("employee", Some ("Bob" : str));
      ("categories", Some ("Speed" : str)); ("ticket_id", Some ("42" : str));
      ("ticket_desc", Some ("great job" : str)) ].

Definition rating_entry : SurveyEntry :=
  mkSurveyEntry 42
    "Jane from Acme just gave a Positive rating to Bob for Speed on ticket# 42 (great job)."
    "Fast fix, thanks!".

(** A notification whose subject does not speak of a rating. *)
Definition other_email : email :=
  Email (Some ("Out of office" : str)) (Some rating_body).

(** A dictionary whose ticket identifier is not a number. *)
Definition malformed_data : gmap string (option str) :=
  {[ "ticket_id" := Some ("abc" : str) ]}.

(** A body whose feedback reads like the sentinel. *)
Definition sentinel_body : str := "Customer feedback: No feedback provided.".

(** A rating notification that follows no template but names a ticket. *)
Definition unmatched_email : email :=
  Email (Some ("New rating" : str))
        (Some ("Thank you for the rating you left on Ticket#  99 today" : str)).

(** A line with two rating sentences: a company rating with categories,
    then a customer rating without categories. *)
Definition two_ratings_line : str :=
  "A gave a good rating to Bob for speed on ticket# 1 (x) and C from D gave a bad rating to E for ticket# 2 (y)".

(** What the third template (company only) finds in it. *)
Definition company_only_data : gmap string (option str) :=
  list_to_map
    [ ("company", Some ("A" : str)); ("rating", Some ("good" : str));
      ("employee", Some ("Bob" : str)); ("categories", Some ("speed" : str));
      ("ticket_id", Some ("1" : str)); ("ticket_desc", Some ("x" : str)) ].

(** What the fourth template (customer and company) finds in it. *)
Definition customer_company_data : gmap string (option str) :=
  list_to_map
    [ ("customer",
       Some ("A gave a good rating to Bob for speed on ticket# 1 (x) and C" : str));
      ("company", Some ("D" : str)); ("rating", Some ("bad" : str));
      ("employee", Some ("E" : str));
      ("ticket_id", Some ("2" : str)); ("ticket_desc", Some ("y" : str)) ].

(** A rating notification that follows no template and names two
    tickets, and a store that has an entry for the first of them only. *)
Definition two_tickets_email : email :=
  Email (Some ("New rating" : str))
        (Some ("Thanks for the rating: ticket# 1 and ticket# 2" : str)).

Definition one_entry_store : store :=
  Store {[ 1%Z := mkSurveyEntry 1 "summary" "feedback" ]} [].

(** The sentences that the comments of [RATING_PATTERNS] give for the
    six patterns, and the dictionary expected for each. *)
Definition data_of (l : list (string * string)) : gmap string (option str) :=
  list_to_map ((λ kv, (kv.1, Some (list_ascii_of_string kv.2))) <$> l).

Definition documented_sentences : list (str * gmap string (option str)) :=
  [ ("Name from Company gave a Positive rating to Tech for Categories on ticket# 123 (Description)." : str,
     data_of [ ("customer", "Name"); ("company", "Company"); ("rating", "Positive");
               ("employee", "Tech"); ("categories", "Categories");
               ("ticket_id", "123"); ("ticket_desc", "Description") ]);
    ("Name from Company gave a Positive Rating for Categories on ticket# 123 (Description) to your colleague Tech." : str,
     data_of [ ("customer", "Name"); ("company", "Company"); ("rating", "Positive");
               ("categories", "Categories"); ("ticket_id", "123");
               ("ticket_desc", "Description"); ("employee", "Tech") ]);
    ("Company gave a Positive rating to Tech for Categories on ticket# 123 (Description)." : str,
     data_of [ ("company", "Company"); ("rating", "Positive"); ("employee", "Tech");
               ("categories", "Categories"); ("ticket_id", "123");
               ("ticket_desc", "Description") ]);
    ("Name from Company gave a Positive rating to Tech for ticket# 123 (Description)." : str,
     data_of [ ("customer", "Name"); ("company", "Company"); ("rating", "Positive");
               ("employee", "Tech"); ("ticket_id", "123");
               ("ticket_desc", "Description") ]);
    ("Company gave a Positive rating to Tech for ticket# 123 (Description)." : str,
     data_of [ ("company", "Company"); ("rating", "Positive"); ("employee", "Tech");
               ("ticket_id", "123"); ("ticket_desc", "Description") ]);
    ("Company gave a Positive Rating for ticket# 123 (Description) to Tech." : str,
     data_of [ ("company", "Company"); ("rating", "Positive"); ("ticket_id", "123");
               ("ticket_desc", "Description"); ("employee", "Tech") ]) ].

(** ** Notions used in the further properties *)

(** A value that [coalesce] passes over: [None], or a text that is empty
    once stripped. *)
Definition blank (o : option str) : Prop :=
  match o with
  | None => True
  | Some v => Str.strip v = []
  end.

(** A value that holds a non-empty text. *)
Definition has_text (o : option str) : Prop := ∃ t, o = Some t ∧ t ≠ [].

(** The characters of [s] that are not white space, in their order. *)
Definition text_of (s : str) : str := filter (λ c, Chr.isspace c = false) s.

(** A text without line boundaries. *)
Definition single_line (s : str) : Prop := Forall (λ c, Chr.islinebreak c = false) s.

(** The literal characters that a pattern reads first. *)
Fixpoint lit_prefix (r : Re.regex) : str :=
  match r with
  | Re.Lit c => [c]
  | Re.Seq (Re.Lit c) r2 => c :: lit_prefix r2
  | _ => []
  end.

(** Every text that the pattern reads holds the word [w], up to letter
    case: the word is spelt out by literals on every path. *)
Fixpoint needs (w : str) (r : Re.regex) : bool :=
  starts_with_ci w (lit_prefix r) ||
  match r with
  | Re.Seq r1 r2 => needs w r1 || needs w r2
  | Re.Alt r1 r2 => needs w r1 && needs w r2
  | Re.Group _ r1 => needs w r1
  | _ => false
  end.

(** The groups that the rating templates name, and those that all six of
    them name. *)
Definition group_fields : list string :=
  ["customer"; "company"; "rating"; "employee"; "categories"; "ticket_id"; "ticket_desc"].
Definition shared_fields : list string :=
  ["company"; "rating"; "employee"; "ticket_id"; "ticket_desc"].

(** The shapes of the groups of the rating templates: [.+?] or [.+],
    [\d+], and the description without a closing bracket. *)
Definition field_shapes : list (Re.cclass * nat) :=
  [ (Re.CAny, 1); (Re.CDigit, 1); (Re.CNot ")", 0) ].

(** The sentence that [build_summary] composes. *)
Definition sentence (customer company rating employee categories : str) (n : Z)
    (ticket_desc : str) : str :=
  customer ++ " from " ++ company ++ " just gave a " ++ rating
  ++ " rating to " ++ employee ++ " for " ++ categories
  ++ " on ticket# " ++ Int.to_str n ++ " (" ++ ticket_desc ++ ").".

(** A text on one line without white space at its ends. *)
Definition trimmed_line (s : str) : Prop := single_line s ∧ clean_ends Chr.isspace s.

(** The dictionary [surveys] once the loop has gone through a batch. *)
Definition written (emails : list email) : gmap Z SurveyEntry :=
  foldl upsert ∅ (entries_of emails).

(** A second rating notification, on another ticket. *)
Definition second_rating_email : email :=
  Email (Some ("Rating received" : str))
        (Some ("Initech gave a Neutral rating to Ann for ticket# 7 (printer)" : str)).

(** A rating notification that follows no template and whose first ticket
    mention reads the number [n]. *)
Definition unmatched_ticket (e : email) (n : Z) : Prop :=
  mentions "rating" (subject_of e)
  ∧ match_rating_line (body_of e) = None
  ∧ ∃ ds, first_ticket (body_of e) = Some ds ∧ Int.of_str ds = Some n.

(** [w] stands in [s], letter for letter. *)
Definition occurs (w s : str) : Prop := ∃ pre post, s = pre ++ w ++ post.

(** The text that [int] has to read for a notification: the [ticket_id]
    of the match, or the first ticket mention of a body without match. *)
Definition ticket_text (e : email) : option str :=
  if Str.contains "rating" (Str.lower (subject_of e)) then
    match match_rating_line (body_of e) with
    | Some d => get d "ticket_id"
    | None => first_ticket (body_of e)
    end
  else None.

(** [int] reads the ticket of the notification: the text has no more
    digits than the interpreter converts.  A batch runs to its end exactly
    when this holds for all its notifications ([parse_returns]). *)
Definition readable (e : email) : Prop :=
  match ticket_text e with
  | Some ds => length ds ≤ Int.max_str_digits
  | None => True
  end.

#[global] Instance readable_dec e : Decision (readable e).
Proof. unfold readable. destruct (ticket_text e); apply _. Defined.

(** A ticket number of 4301 digits, and a rating notification that
    carries it in a sentence of the first template. *)
Definition long_ticket : str := replicate 4301 "1"%char.

Definition long_ticket_body : str :=
  "Jane from Acme gave a Positive rating to Bob for Speed on ticket# "
  ++ long_ticket ++ " (great job)".

Definition long_ticket_data : gmap string (option str) :=
  list_to_map
    [ ("customer", Some ("Jane" : str)); ("company", Some ("Acme" : str));
      ("rating", Some ("Positive" : str)); ("employee", Some ("Bob" : str));
      ("categories", Some ("Speed" : str)); ("ticket_id", Some long_ticket);
      ("ticket_desc", Some ("great job" : str)) ].

Definition long_ticket_email : email :=
  Email (Some ("New rating" : str)) (Some long_ticket_body).

(** The entry of [second_rating_email], and a batch with its result. *)
Definition second_rating_entry : SurveyEntry :=
  mkSurveyEntry 7
    "A customer from Initech just gave a Neutral rating to Ann for (categories not provided) on ticket# 7 (printer)."
    "No feedback provided.".

Definition sample_batch : list email :=
  [rating_email; unmatched_email; second_rating_email].

Definition sample_entries : list SurveyEntry := [second_rating_entry; rating_entry].

(** ** Strings: basic facts *)

Lemma startswith_spec p s : Str.startswith p s = true ↔ ∃ t, s = p ++ t.
Proof.
  revert s; induction p as [|a p IH]; intros s; simpl.
  - split; eauto.
  - destruct s as [|b s]; simpl.
    + split; [done | intros [t Ht]; done].
    + rewrite andb_true_iff, Ascii.eqb_eq, IH. split.
      * intros [-> [t ->]]. eauto.
      * intros [t Ht]. simplify_eq. eauto.
Qed.

Lemma contains_spec n h :
  Str.contains n h = true ↔ ∃ pre post, h = pre ++ n ++ post.
Proof.
  induction h as [|c h IH]; simpl.
  - rewrite orb_false_r, startswith_spec. split.
    + intros [t Ht]. exists [], t. done.
    + intros (pre & post & Ht). destruct pre; simpl in *; [eauto | done].
  - rewrite orb_true_iff, startswith_spec, IH. split.
    + intros [[t Ht] | (pre & post & ->)].
      * exists [], t. done.
      * exists (c :: pre), post. done.
    + intros (pre & post & Ht). destruct pre as [|d pre]; simpl in *.
      * left. eauto.
      * right. simplify_eq. eauto.
Qed.

Lemma lower_app s t : Str.lower (s ++ t) = Str.lower s ++ Str.lower t.
Proof. apply fmap_app. Qed.

Lemma lower_idemp_chr c : Chr.lower (Chr.lower c) = Chr.lower c.
Proof. by destruct c as [[] [] [] [] [] [] [] []]. Qed.

Lemma lower_idemp s : Str.lower (Str.lower s) = Str.lower s.
Proof.
  unfold Str.lower. rewrite <- list_fmap_compose. apply list_fmap_ext.
  intros _ c _. apply lower_idemp_chr.
Qed.

Lemma contains_lower_mentions (w s : str) :
  Str.lower w = w →
  Str.contains w (Str.lower s) = true ↔ mentions w s.
Proof.
  intros Hw. rewrite contains_spec. split.
  - intros (pre & post & H).
    apply fmap_app_inv in H as (s1 & s2 & _ & H & ->).
    symmetry in H. apply fmap_app_inv in H as (x & s3 & Hx & _ & ->).
    exists s1, x, s3. split; [done|]. rewrite Hw. symmetry. exact Hx.
  - intros (pre & x & post & -> & Hx).
    exists (Str.lower pre), (Str.lower post).
    by rewrite !lower_app, Hx, Hw.
Qed.

(** ** The matcher: what a successful repetition has read *)

Lemma rep_greedy_sound f k min p s cont res :
  Re.rep_greedy f k min p s cont = Some res →
  ∃ n p', min ≤ n ∧ n ≤ length s
          ∧ Forall (λ c, Re.class_ok f k c = true) (take n s)
          ∧ cont p' (drop n s) = Some res.
Proof.
  revert min p. induction s as [|c s IH]; intros min p H; simpl in H.
  - destruct min; [|done]. exists 0, p. simpl. eauto with lia.
  - destruct (Re.class_ok f k c) eqn:Hc.
    + destruct (Re.rep_greedy f k (pred min) (Some c) s cont) eqn:Hrec.
      * simplify_eq. apply IH in Hrec as (n & p' & ? & ? & ? & ?).
        exists (S n), p'. simpl. repeat split; [lia | lia | by constructor | done].
      * destruct min; [|done]. exists 0, p. simpl. eauto with lia.
    + destruct min; [|done]. exists 0, p. simpl. eauto with lia.
Qed.

Lemma rep_lazy_sound f k min p s cont res :
  Re.rep_lazy f k min p s cont = Some res →
  ∃ n p', min ≤ n ∧ n ≤ length s
          ∧ Forall (λ c, Re.class_ok f k c = true) (take n s)
          ∧ cont p' (drop n s) = Some res.
Proof.
  revert min p. induction s as [|c s IH]; intros min p H.
  - destruct min; simpl in H; [|done].
    destruct (cont p []) eqn:Hk; [|done]. simplify_eq.
    exists 0, p. simpl. eauto with lia.
  - destruct min; simpl in H.
    + destruct (cont p (c :: s)) eqn:Hk.
      * simplify_eq. exists 0, p. simpl. eauto with lia.
      * destruct (Re.class_ok f k c) eqn:Hc; [|done].
        apply IH in H as (n & p' & ? & ? & ? & ?).
        exists (S n), p'. simpl. repeat split; [lia | lia | by constructor | done].
    + destruct (Re.class_ok f k c) eqn:Hc; [|done].
      apply IH in H as (n & p' & ? & ? & ? & ?).
      exists (S n), p'. simpl. repeat split; [lia | lia | by constructor | done].
Qed.

Lemma consumed_drop (s : str) n : n ≤ length s → Re.consumed s (drop n s) = take n s.
Proof.
  intros Hn. unfold Re.consumed. rewrite length_drop. f_equal. lia.
Qed.

Lemma cap_good_insert_ne f g k min n v c :
  n ≠ g → cap_good f g k min c → cap_good f g k min (<[n := v]> c).
Proof. intros Hne Hc w. rewrite lookup_insert_ne by done. apply Hc. Qed.

(** The groups after a successful match: the continuation succeeded in a
    state where group [g] has the shape announced by [group_shape], and is
    set when [sets_group] says so. *)
Lemma rmatch_caps f g k min r :
  group_shape g k min r = true →
  ∀ st cont res,
    Re.rmatch f r st cont = Some res →
    ∃ st', cont st' = Some res
           ∧ (cap_good f g k min (Re.caps st) → cap_good f g k min (Re.caps st'))
           ∧ (is_Some (Re.caps st !! g) ∨ sets_group g r = true →
              is_Some (Re.caps st' !! g)).
Proof.
  induction r as [|x|k0|lz m k0|r1 IH1|r1 IH1 r2 IH2|r1 IH1 r2 IH2|n r1 IH1| |];
    intros Hshape st cont res H; simpl in H, Hshape.
  - exists st. naive_solver.
  - destruct (Re.rest st) as [|c s']; [done|].
    destruct (Re.lit_ok f x c); [|done]. eexists. split; [done|]. naive_solver.
  - destruct (Re.rest st) as [|c s']; [done|].
    destruct (Re.class_ok f k0 c); [|done]. eexists. split; [done|]. naive_solver.
  - assert (∃ n p', cont (Re.MState p' (drop n (Re.rest st)) (Re.caps st)) = Some res)
      as (n & p' & Hk).
    { destruct lz.
      - apply rep_lazy_sound in H as (n & p' & _ & _ & _ & ?). eauto.
      - apply rep_greedy_sound in H as (n & p' & _ & _ & _ & ?). eauto. }
    eexists. split; [done|]. naive_solver.
  - destruct (Re.rmatch f r1 st cont) eqn:H1.
    + simplify_eq. destruct (IH1 Hshape _ _ _ H1) as (st' & ? & ? & Hs).
      exists st'. naive_solver.
    + exists st. naive_solver.
  - apply andb_true_iff in Hshape as [Hs1 Hs2].
    destruct (IH1 Hs1 _ _ _ H) as (st1 & H2 & Hg1 & Hset1).
    destruct (IH2 Hs2 _ _ _ H2) as (st2 & ? & Hg2 & Hset2).
    exists st2. simpl. rewrite orb_true_iff. naive_solver.
  - apply andb_true_iff in Hshape as [Hs1 Hs2].
    destruct (Re.rmatch f r1 st cont) eqn:H1.
    + simplify_eq. destruct (IH1 Hs1 _ _ _ H1) as (st' & ? & ? & ?).
      exists st'. simpl. rewrite andb_true_iff. naive_solver.
    + destruct (IH2 Hs2 _ _ _ H) as (st' & ? & ? & ?).
      exists st'. simpl. rewrite andb_true_iff. naive_solver.
  - destruct (decide (n = g)) as [->|Hne].
    + destruct r1 as [| | |lz m k0| | | | | |]; try done.
      apply andb_true_iff in Hshape as [Hk%bool_decide_eq_true Hm%Nat.leb_le].
      subst k0. simpl in H.
      assert (∃ n p', m ≤ n ∧ n ≤ length (Re.rest st)
                ∧ Forall (λ c, Re.class_ok f k c = true) (take n (Re.rest st))
                ∧ cont (Re.MState p' (drop n (Re.rest st))
                          (<[g := Re.consumed (Re.rest st) (drop n (Re.rest st))]>
                             (Re.caps st))) = Some res)
        as (n & p' & Hmn & Hn & Hall & Hk).
      { destruct lz.
        - apply rep_lazy_sound in H as (n & p' & ? & ? & ? & ?). eauto 10.
        - apply rep_greedy_sound in H as (n & p' & ? & ? & ? & ?). eauto 10. }
      eexists. split; [done|]. simpl. rewrite consumed_drop by done. split.
      * intros _ v. rewrite lookup_insert_eq. intros [= <-].
        rewrite length_take. split; [lia | done].
      * intros _. rewrite lookup_insert_eq. eauto.
    + destruct (IH1 Hshape _ _ _ H) as (st1 & Hk & Hg1 & Hset1).
      eexists. split; [done|]. simpl. split.
      * intros Hc. apply cap_good_insert_ne; auto.
      * rewrite lookup_insert_ne by done.
        rewrite orb_true_iff, bool_decide_eq_true. naive_solver.
  - destruct (Re.at_end (Re.rest st)); [|done]. exists st. naive_solver.
  - destruct (Re.at_boundary st); [|done]. exists st. naive_solver.
Qed.

Lemma search_from_inv f r b p s m :
  Re.search_from f r b p s = Some m →
  ∃ b' p' s', Re.match_here f r b' p' s' = Some m.
Proof.
  revert b p. induction s as [|c s IH]; intros b p H; simpl in H.
  - destruct (Re.match_here f r (rev b) p []) eqn:Hm; [|done].
    simplify_eq. eauto.
  - destruct (Re.match_here f r (rev b) p (c :: s)) eqn:Hm.
    + simplify_eq. eauto.
    + eauto.
Qed.

Lemma search_caps g k min (pat : Re.pattern) s m :
  group_shape g k min (Re.p_regex pat) = true →
  Re.p_search pat s = Some m →
  cap_good (Re.p_flags pat) g k min (Re.m_groups m)
  ∧ (sets_group g (Re.p_regex pat) = true → is_Some (Re.m_groups m !! g)).
Proof.
  intros Hshape H. apply search_from_inv in H as (b & p & s' & H).
  unfold Re.match_here in H.
  destruct (Re.rmatch _ _ _ _) as [st|] eqn:Hr; [|done]. simplify_eq. simpl.
  destruct (rmatch_caps _ _ _ _ _ Hshape _ _ _ Hr) as (st' & [= ->] & Hg & Hs).
  simpl in *. split.
  - apply Hg. intros v. by rewrite lookup_empty.
  - intros Hset. apply Hs. by right.
Qed.

(** ** White space: [strip] and [normalize_text] *)

Lemma drop_while_head p s c : head (Str.drop_while p s) = Some c → p c = false.
Proof.
  induction s as [|d s IH]; simpl; [done|].
  destruct (p d) eqn:Hd; [done|]. simpl. by intros [= <-].
Qed.

Lemma drop_while_id p s : (∀ c, head s = Some c → p c = false) → Str.drop_while p s = s.
Proof. destruct s as [|d s]; simpl; [done|]. intros H. by rewrite (H d). Qed.

Lemma drop_while_last p s :
  Str.drop_while p s ≠ [] → last (Str.drop_while p s) = last s.
Proof.
  induction s as [|d s IH]; simpl; [done|].
  destruct (p d); [|done]. intros Hne. rewrite (IH Hne).
  destruct s; [done|]. by rewrite last_cons_cons.
Qed.

Lemma last_rev (s : str) : last (rev s) = head s.
Proof. destruct s as [|c s]; simpl; [done|]. apply last_snoc. Qed.

Lemma head_rev (s : str) : head (rev s) = last s.
Proof. rewrite <- (rev_involutive s) at 2. by rewrite last_rev. Qed.

Lemma strip_with_clean p s : clean_ends p (Str.strip_with p s).
Proof.
  unfold Str.strip_with. split; intros c.
  - rewrite head_rev. intros Hl.
    destruct (decide (Str.drop_while p (rev (Str.drop_while p s)) = [])) as [E|E].
    { by rewrite E in Hl. }
    rewrite drop_while_last, last_rev in Hl by done.
    by apply drop_while_head in Hl.
  - rewrite last_rev. apply drop_while_head.
Qed.

Lemma strip_with_id p s : clean_ends p s → Str.strip_with p s = s.
Proof.
  intros [Hh Hl]. unfold Str.strip_with.
  rewrite (drop_while_id p s) by done.
  rewrite drop_while_id; [apply rev_involutive|].
  intros c. rewrite head_rev. apply Hl.
Qed.

Lemma clean_ends_none p s : Forall (λ c, p c = false) s → clean_ends p s.
Proof.
  intros H. split; intros c Hc.
  - destruct s; simplify_eq/=. by inversion H.
  - apply last_Some_elem_of in Hc. by eapply (proj1 (Forall_forall _ _) H).
Qed.

Lemma take_drop_while p s : take_while p s ++ Str.drop_while p s = s.
Proof. induction s as [|c s IH]; simpl; [done|]. destruct (p c); simpl; by f_equal. Qed.

Lemma collapse_stable t : ∀ b' b, (b' = true → b = true) →
  collapse b' (collapse b t) = collapse b t.
Proof.
  induction t as [|c t IH]; intros b' b Hb; simpl; [done|].
  destruct (Chr.isspace c) eqn:Hc.
  - destruct b.
    + by apply IH.
    + destruct b'; [naive_solver|]. simpl. f_equal. by apply IH.
  - simpl. rewrite Hc. f_equal. by apply IH.
Qed.

Lemma collapse_none b s : Forall (λ c, Chr.isspace c = false) s → collapse b s = s.
Proof.
  intros H. revert b. induction H as [|c s Hc _ IH]; intros b; simpl; [done|].
  rewrite Hc. f_equal. apply IH.
Qed.

Lemma collapse_head s c :
  head (collapse false s) = Some c → Chr.isspace c = true →
  ∃ d, head s = Some d ∧ Chr.isspace d = true.
Proof.
  destruct s as [|d s]; simpl; [done|].
  destruct (Chr.isspace d) eqn:Hd; simpl; [eauto|].
  intros [= <-] ?. congruence.
Qed.

Lemma collapse_snoc s c : ∀ b,
  Chr.isspace c = false → collapse b (s ++ [c]) = collapse b s ++ [c].
Proof.
  intros b Hc. revert b. induction s as [|x s IH]; intros b; simpl.
  - by rewrite Hc.
  - destruct (Chr.isspace x); [destruct b|]; simpl; by rewrite IH.
Qed.

Lemma collapse_clean s :
  clean_ends Chr.isspace s → clean_ends Chr.isspace (collapse false s).
Proof.
  intros [Hh Hl]. split; intros c Hc.
  - destruct (Chr.isspace c) eqn:E; [|done].
    destruct (collapse_head _ _ Hc E) as (d & Hd & Hsp).
    by rewrite (Hh d Hd) in Hsp.
  - destruct (last s) as [d|] eqn:Hd.
    + pose proof (Hl _ eq_refl) as Hdsp.
      apply last_Some in Hd as [s' ->].
      rewrite collapse_snoc, last_snoc in Hc by done. by simplify_eq.
    + apply last_None in Hd as ->. done.
Qed.

Lemma lastp_cons p c run : lastp p (c :: run) = lastp (Some c) run.
Proof.
  unfold lastp. destruct run as [|d run]; [done|]. rewrite last_cons_cons.
  destruct (last (d :: run)) eqn:E; [done|]. by apply last_None in E.
Qed.

(** Fewer characters of the class than the minimum: no match. *)
Lemma rep_greedy_short f k s cont : ∀ min p,
  length (take_while (Re.class_ok f k) s) < min →
  Re.rep_greedy f k min p s cont = None.
Proof.
  induction s as [|c s IH]; intros min p H; simpl in *.
  - destruct min; [lia|done].
  - destruct (Re.class_ok f k c) eqn:Hc; simpl in *.
    + rewrite IH by lia. destruct min; [lia|done].
    + destruct min; [lia|done].
Qed.

(** A greedy repetition tries the whole run first: when the rest of the
    pattern matches after it, that is the match. *)
Lemma rep_greedy_max f k s cont : ∀ min p,
  min ≤ length (take_while (Re.class_ok f k) s) →
  is_Some (cont (lastp p (take_while (Re.class_ok f k) s))
                (Str.drop_while (Re.class_ok f k) s)) →
  Re.rep_greedy f k min p s cont
  = cont (lastp p (take_while (Re.class_ok f k) s))
         (Str.drop_while (Re.class_ok f k) s).
Proof.
  induction s as [|c s IH]; intros min p Hmin Hk; simpl in *.
  - destruct min; [done|lia].
  - destruct (Re.class_ok f k c) eqn:Hc; simpl in *.
    + rewrite lastp_cons in *. rewrite IH by (done || lia).
      by destruct Hk as [res ->].
    + destruct min; [done|lia].
Qed.

(** When the rest of the pattern cannot match inside the run, the match
    after the whole run is the only one. *)
Lemma rep_greedy_only_max f k s cont : ∀ min p,
  (∀ n p', n < length (take_while (Re.class_ok f k) s) → cont p' (drop n s) = None) →
  Re.rep_greedy f k min p s cont
  = if decide (min ≤ length (take_while (Re.class_ok f k) s))
    then cont (lastp p (take_while (Re.class_ok f k) s))
              (Str.drop_while (Re.class_ok f k) s)
    else None.
Proof.
  induction s as [|c s IH]; intros min p Hin; simpl in *.
  - destruct min; [done|]. by rewrite decide_False by lia.
  - destruct (Re.class_ok f k c) eqn:Hc; simpl in *.
    + rewrite lastp_cons. rewrite IH.
      2:{ intros n p' Hn. apply (Hin (S n)). lia. }
      destruct (decide (pred min ≤ _)) as [Hle|Hgt].
      * rewrite decide_True by lia.
        destruct (cont _ _) eqn:Hk; [done|].
        destruct min; [|done]. apply (Hin 0). lia.
      * rewrite decide_False by lia. destruct min; [lia|done].
    + destruct min; [done|]. by rewrite decide_False by lia.
Qed.

Lemma consumed_drop_while p (s : str) :
  Re.consumed s (Str.drop_while p s) = take_while p s.
Proof.
  unfold Re.consumed.
  rewrite <- (take_drop_while p s) at 1 3.
  rewrite length_app, Nat.add_sub, take_app_length. done.
Qed.

Lemma match_here_ws b p s :
  Re.match_here (Re.p_flags WHITESPACE_RUN) (Re.p_regex WHITESPACE_RUN) b p s =
  match take_while Chr.isspace s with
  | [] => None
  | run => Some (Re.MObj b run (Str.drop_while Chr.isspace s) ∅)
  end.
Proof.
  unfold Re.match_here. simpl.
  destruct (take_while Chr.isspace s) as [|c run] eqn:Hrun.
  - rewrite rep_greedy_short; [done|].
    change (Re.class_ok _ Re.CSpace) with Chr.isspace. rewrite Hrun. simpl. lia.
  - rewrite rep_greedy_max.
    + change (Re.class_ok _ Re.CSpace) with Chr.isspace. simpl.
      by rewrite consumed_drop_while, Hrun.
    + change (Re.class_ok _ Re.CSpace) with Chr.isspace. rewrite Hrun. simpl. lia.
    + done.
Qed.

Lemma sub_whitespace s : ∀ p,
  Re.sub_from (Re.p_flags WHITESPACE_RUN) (Re.p_regex WHITESPACE_RUN) " " 0 p s
    = collapse false s
  ∧ Re.sub_from (Re.p_flags WHITESPACE_RUN) (Re.p_regex WHITESPACE_RUN) " "
      (length (take_while Chr.isspace s)) p s = collapse true s.
Proof.
  induction s as [|c s IH]; intros p.
  - cbn [Re.sub_from take_while length]. rewrite match_here_ws. done.
  - assert (Re.sub_from (Re.p_flags WHITESPACE_RUN) (Re.p_regex WHITESPACE_RUN)
              " " 0 p (c :: s) = collapse false (c :: s)) as H0.
    { cbn [Re.sub_from]. rewrite match_here_ws. simpl.
      destruct (Chr.isspace c) eqn:Hc; simpl.
      - f_equal. apply IH.
      - f_equal. apply IH. }
    split; [done|]. simpl take_while.
    destruct (Chr.isspace c) eqn:Hc.
    + simpl. rewrite Hc. apply IH.
    + cbn [length]. rewrite H0. simpl. by rewrite Hc.
Qed.

Lemma normalize_text_collapse x : normalize_text x = collapse false (Str.strip x).
Proof. unfold normalize_text, Re.sub. apply sub_whitespace. Qed.

Lemma normalize_text_fixed s :
  Forall (λ c, Chr.isspace c = false) s → normalize_text s = s.
Proof.
  intros H. rewrite normalize_text_collapse. unfold Str.strip.
  rewrite strip_with_id by by apply clean_ends_none.
  by apply collapse_none.
Qed.

(** ** Decimal digits and [int] *)

Lemma decimal_not_space c : Chr.isdecimal c = true → Chr.isspace c = false.
Proof. by destruct c as [[] [] [] [] [] [] [] []]. Qed.

Lemma decimal_not_intspace c : Chr.isdecimal c = true → Chr.isintspace c = false.
Proof. by destruct c as [[] [] [] [] [] [] [] []]. Qed.

Lemma decimal_not_sign c :
  Chr.isdecimal c = true → Ascii.eqb c "-" = false ∧ Ascii.eqb c "+" = false.
Proof. by destruct c as [[] [] [] [] [] [] [] []]. Qed.

Lemma decimal_value c : Chr.isdecimal c = true → (0 ≤ Int.digit_val c)%Z.
Proof. by destruct c as [[] [] [] [] [] [] [] []]. Qed.

Lemma digits_total s : ∀ acc after,
  Forall (λ c, Chr.isdecimal c = true) s → (0 ≤ acc)%Z →
  s ≠ [] ∨ after = true →
  ∃ n, Int.digits acc after s = Some n ∧ (0 ≤ n)%Z.
Proof.
  induction s as [|c s IH]; intros acc after Hall Hacc Hne; simpl.
  - destruct Hne as [? | ->]; [done|]. eauto.
  - inversion Hall as [|? ? Hc Hs]; subst. rewrite Hc.
    apply IH; [done| |by right].
    pose proof (decimal_value c Hc). lia.
Qed.

Lemma digit_count_decimal s :
  Forall (λ c, Chr.isdecimal c = true) s → Int.digit_count s = length s.
Proof.
  unfold Int.digit_count. induction 1 as [|c s Hc _ IH]; simpl; [done|].
  rewrite Hc. simpl. by rewrite IH.
Qed.

(** [int] reads a text of digits when it is not longer than the limit. *)
Lemma of_str_digits s :
  s ≠ [] → Forall (λ c, Chr.isdecimal c = true) s →
  length s ≤ Int.max_str_digits →
  ∃ n, Int.of_str s = Some n ∧ (0 ≤ n)%Z.
Proof.
  intros Hne Hall Hlen. unfold Int.of_str.
  rewrite strip_with_id.
  2:{ apply clean_ends_none. eapply Forall_impl; [done|].
      intros c. apply decimal_not_intspace. }
  destruct s as [|c t]; [done|].
  rewrite digit_count_decimal by done.
  destruct (Nat.ltb_spec Int.max_str_digits (length (c :: t))) as [?|_]; [lia|].
  inversion Hall as [|? ? Hc Ht]; subst.
  destruct (decimal_not_sign c Hc) as (-> & ->).
  apply digits_total; [done|lia|by left].
Qed.

(** [int] raises on a text of digits that is longer than the limit. *)
Lemma of_str_long s :
  Forall (λ c, Chr.isdecimal c = true) s →
  Int.max_str_digits < length s → Int.of_str s = None.
Proof.
  intros Hall Hlen. unfold Int.of_str.
  rewrite strip_with_id.
  2:{ apply clean_ends_none. eapply Forall_impl; [done|].
      intros c. apply decimal_not_intspace. }
  destruct s as [|c t]; [done|].
  rewrite digit_count_decimal by done.
  destruct (Nat.ltb_spec Int.max_str_digits (length (c :: t))) as [_|?]; [done|lia].
Qed.

(** ** The dictionary of a match *)

Lemma groupdict_lookup r m name :
  NoDup (Re.group_names r) → name ∈ Re.group_names r →
  Re.groupdict r m !! name = Some (Re.m_groups m !! name).
Proof.
  intros Hnd Hin. unfold Re.groupdict. apply elem_of_list_to_map_1.
  - rewrite <- list_fmap_compose. by rewrite list_fmap_id.
  - apply list_elem_of_fmap. eauto.
Qed.

Lemma get_normalized r m name v :
  NoDup (Re.group_names r) → name ∈ Re.group_names r →
  Re.m_groups m !! name = Some v →
  get (normalize_values (Re.groupdict r m)) name = Some (normalize_text v).
Proof.
  intros Hnd Hin Hv. unfold get, normalize_values.
  rewrite lookup_fmap, groupdict_lookup, Hv by done. done.
Qed.

Lemma match_line_inv ps line d :
  match_line ps line = Some d →
  ∃ pat m, pat ∈ ps ∧ Re.p_search pat line = Some m
           ∧ d = normalize_values (Re.groupdict (Re.p_regex pat) m).
Proof.
  induction ps as [|pat ps IH]; simpl; [done|].
  destruct (Re.p_search pat line) as [m|] eqn:Hm.
  - intros [= <-]. exists pat, m. split; [left|done].
  - intros H. destruct (IH H) as (pat' & m & ? & ? & ?).
    exists pat', m. split; [by right|done].
Qed.

Lemma match_lines_inv ps lines d :
  match_lines ps lines = Some d →
  ∃ line, line ∈ lines ∧ match_line ps line = Some d.
Proof.
  induction lines as [|line lines IH]; simpl; [done|].
  destruct (match_line ps line) as [d'|] eqn:Hd.
  - intros [= <-]. exists line. split; [left|done].
  - intros H. destruct (IH H) as (line' & ? & ?). exists line'. split; [by right|done].
Qed.

(** In every rating pattern, [ticket_id] is a group [\d+] on every path. *)
Lemma rating_patterns_ticket pat :
  pat ∈ RATING_PATTERNS →
  group_shape "ticket_id" Re.CDigit 1 (Re.p_regex pat) = true
  ∧ sets_group "ticket_id" (Re.p_regex pat) = true
  ∧ NoDup (Re.group_names (Re.p_regex pat))
  ∧ "ticket_id" ∈ Re.group_names (Re.p_regex pat).
Proof.
  revert pat. apply Forall_forall.
  repeat (apply Forall_cons; split;
          [split_and!; [reflexivity | reflexivity
                        | by apply (bool_decide_unpack _)
                        | by apply (bool_decide_unpack _)] |]).
  apply Forall_nil_2.
Qed.

(** The ticket a matched body carries. *)
Lemma matched_ticket full_body d :
  match_rating_line full_body = Some d →
  ∃ ds, get d "ticket_id" = Some ds ∧ ds ≠ [] ∧ all_decimal ds.
Proof.
  intros H. apply match_lines_inv in H as (line & _ & H).
  apply match_line_inv in H as (pat & m & Hpat & Hm & ->).
  destruct (rating_patterns_ticket pat Hpat) as (Hshape & Hset & Hnd & Hin).
  destruct (search_caps _ _ _ _ _ _ Hshape Hm) as [Hgood Hsome].
  destruct (Hsome Hset) as [ds Hds].
  destruct (Hgood ds Hds) as [Hlen Hall].
  exists ds. split_and!.
  - erewrite get_normalized by done. f_equal. apply normalize_text_fixed.
    eapply Forall_impl; [done|]. intros c. apply decimal_not_space.
  - intros ->. simpl in Hlen. lia.
  - done.
Qed.

Lemma build_summary_ticket d ds n :
  get d "ticket_id" = Some ds → ds ≠ [] → Int.of_str ds = Some n →
  ∃ entry, build_summary d = Ret (Some entry) ∧ ticket_number entry = n
           ∧ customer_feedback entry = [].
Proof.
  intros Hget Hne Hn. unfold build_summary. rewrite Hget. simpl.
  destruct ds as [|c ds]; [done|]. simpl. rewrite Hn. eauto.
Qed.

(** ** Leftmost occurrences: the search against a plain scan *)

Lemma rmatch_lits f w : ∀ st cont,
  Re.rmatch f (Re.lits w) st cont =
  if lits_ok f w (Re.rest st)
  then cont (Re.MState (lastp (Re.prev st) (take (length w) (Re.rest st)))
                       (drop (length w) (Re.rest st)) (Re.caps st))
  else None.
Proof.
  induction w as [|x w IH]; intros [p s c] cont; simpl; [done|].
  destruct s as [|y s]; [done|]. simpl.
  destruct (Re.lit_ok f x y); simpl; [|done].
  rewrite IH. simpl. by rewrite lastp_cons.
Qed.

Lemma lits_ok_ci f w s :
  Re.IGNORECASE f = true → lits_ok f w s = starts_with_ci w s.
Proof.
  intros Hf. unfold starts_with_ci. revert s. induction w as [|x w IH]; intros s; simpl.
  - done.
  - destruct s as [|y s]; simpl; [done|]. rewrite IH. unfold Re.lit_ok. rewrite Hf.
    destruct (Ascii.eqb_spec (Chr.lower x) (Chr.lower y)) as [E|E]; simpl.
    + rewrite E. apply bool_decide_ext. unfold Str.lower. simpl.
      split; [by intros ->|by intros [=]].
    + symmetry. apply bool_decide_eq_false. unfold Str.lower. simpl.
      intros [=]. congruence.
Qed.

Lemma search_from_scan {X} f r (here : str → option X) (P : X → Re.mobj → Prop) :
  (∀ b p s, match here s with
            | Some x => ∃ m, Re.match_here f r b p s = Some m ∧ P x m
            | None => Re.match_here f r b p s = None
            end) →
  ∀ s b p, match scan here s with
           | Some x => ∃ m, Re.search_from f r b p s = Some m ∧ P x m
           | None => Re.search_from f r b p s = None
           end.
Proof.
  intros Hhere. induction s as [|c s IH]; intros b p; simpl.
  - specialize (Hhere (rev b) p []). destruct (here []) as [x|].
    + destruct Hhere as (m & -> & ?). eauto.
    + by rewrite Hhere.
  - specialize (Hhere (rev b) p (c :: s)). destruct (here (c :: s)) as [x|].
    + destruct Hhere as (m & -> & ?). eauto.
    + rewrite Hhere. apply IH.
Qed.

Lemma take_while_drop p (s : str) n :
  n < length (take_while p s) → ∃ c t, drop n s = c :: t ∧ p c = true.
Proof.
  revert n. induction s as [|c s IH]; intros n; simpl; [lia|].
  destruct (p c) eqn:Hc; simpl; [|lia].
  destruct n as [|n]; simpl; [eauto|]. intros Hn. apply IH. lia.
Qed.

Lemma take_while_head_false p (c : ascii) (s : str) :
  p c = false → take_while p (c :: s) = [].
Proof. simpl. by intros ->. Qed.

Lemma take_while_all p (s : str) : (∀ c, p c = true) → take_while p s = s.
Proof. intros H. induction s as [|c s IH]; simpl; [done|]. by rewrite H, IH. Qed.

Lemma drop_while_all p (s : str) : (∀ c, p c = true) → Str.drop_while p s = [].
Proof. intros H. induction s as [|c s IH]; simpl; [done|]. by rewrite H. Qed.

Lemma space_not_decimal c : Chr.isspace c = true → Chr.isdecimal c = false.
Proof. by destruct c as [[] [] [] [] [] [] [] []]. Qed.

Lemma truthy_length (s : str) : Str.truthy s = true ↔ 1 ≤ length s.
Proof. destruct s; simpl; split; (done || lia). Qed.

(** [\d+] in a group, at the end of a pattern. *)
Lemma rmatch_digits_group f g p s c0 :
  Re.rmatch f (Re.Group g digits_plus) (Re.MState p s c0) Some =
  if Str.truthy (take_while Chr.isdecimal s)
  then Some (Re.MState (lastp p (take_while Chr.isdecimal s))
                       (Str.drop_while Chr.isdecimal s)
                       (<[g := take_while Chr.isdecimal s]> c0))
  else None.
Proof.
  simpl. destruct (Str.truthy _) eqn:Ht.
  - apply truthy_length in Ht. rewrite rep_greedy_max; [|done..].
    change (Re.class_ok f Re.CDigit) with Chr.isdecimal.
    by rewrite consumed_drop_while.
  - apply rep_greedy_short. change (Re.class_ok f Re.CDigit) with Chr.isdecimal.
    destruct (take_while Chr.isdecimal s); [simpl; lia|done].
Qed.

Lemma rmatch_seq3 f r1 r2 r3 st cont :
  Re.rmatch f (Re.Seq r1 (Re.Seq r2 r3)) st cont
  = Re.rmatch f r1 st (λ st1, Re.rmatch f r2 st1 (λ st2, Re.rmatch f r3 st2 cont)).
Proof. done. Qed.

Lemma rmatch_spaces f st cont :
  Re.rmatch f spaces st cont
  = Re.rep_greedy f Re.CSpace 0 (Re.prev st) (Re.rest st)
      (λ p s, cont (Re.MState p s (Re.caps st))).
Proof. done. Qed.

Lemma match_here_ticket b p s :
  match ticket_here s with
  | Some ds => ∃ m, Re.match_here ICASE (Re.p_regex TICKET_ID_PATTERN) b p s = Some m
                    ∧ Re.group m "1" = Some ds
  | None => Re.match_here ICASE (Re.p_regex TICKET_ID_PATTERN) b p s = None
  end.
Proof.
  unfold Re.match_here, ticket_here.
  change (Re.p_regex TICKET_ID_PATTERN)
    with (Re.Seq (Re.lits "ticket#") (Re.Seq spaces (Re.Group "1" digits_plus))).
  rewrite rmatch_seq3, rmatch_lits, lits_ok_ci by done. cbn [Re.rest Re.prev Re.caps].
  destruct (starts_with_ci "ticket#" s); [|done].
  change (length (list_ascii_of_string "ticket#")) with 7.
  set (p1 := lastp p (take 7 s)). set (s1 := drop 7 s).
  rewrite rmatch_spaces. cbn [Re.rest Re.prev Re.caps].
  rewrite rep_greedy_only_max.
  2:{ intros n p' Hn. apply take_while_drop in Hn as (c & t & -> & Hc).
      rewrite rmatch_digits_group, take_while_head_false; [done|].
      by apply space_not_decimal. }
  rewrite decide_True by lia. rewrite rmatch_digits_group.
  change (Re.class_ok ICASE Re.CSpace) with Chr.isspace.
  destruct (Str.truthy _); [|done].
  eexists. split; [done|]. unfold Re.group. simpl. apply lookup_insert_eq.
Qed.

Lemma search_ticket body :
  match first_ticket body with
  | Some ds => ∃ m, Re.p_search TICKET_ID_PATTERN body = Some m
                    ∧ Re.group m "1" = Some ds
  | None => Re.p_search TICKET_ID_PATTERN body = None
  end.
Proof.
  apply (search_from_scan ICASE (Re.p_regex TICKET_ID_PATTERN) ticket_here
           (λ ds m, Re.group m "1" = Some ds)).
  apply match_here_ticket.
Qed.

Lemma match_here_feedback b p s :
  match (if starts_with_ci MARKER s then Some (drop (length MARKER) s) else None) with
  | Some tail =>
      ∃ m, Re.match_here (Re.p_flags FEEDBACK_PATTERN) (Re.p_regex FEEDBACK_PATTERN) b p s
           = Some m
           ∧ Re.group m "1" = Some (Str.drop_while Chr.isspace tail)
  | None =>
      Re.match_here (Re.p_flags FEEDBACK_PATTERN) (Re.p_regex FEEDBACK_PATTERN) b p s
      = None
  end.
Proof.
  unfold Re.match_here.
  change (Re.p_regex FEEDBACK_PATTERN)
    with (Re.Seq (Re.lits MARKER)
            (Re.Seq spaces (Re.Group "1" (Re.Rep false 0 Re.CAny)))).
  set (f := Re.p_flags FEEDBACK_PATTERN).
  rewrite rmatch_seq3, rmatch_lits, lits_ok_ci by done. cbn [Re.rest Re.prev Re.caps].
  destruct (starts_with_ci MARKER s); [|done].
  set (p1 := lastp p (take (length MARKER) s)). set (s1 := drop (length MARKER) s).
  rewrite rmatch_spaces. cbn [Re.rmatch Re.rest Re.prev Re.caps].
  assert (∀ p' s', Re.rep_greedy f Re.CAny 0 p' s'
                     (λ p0 s0, Some (Re.MState p0 s0 (<["1" := Re.consumed s' s0]> ∅)))
                   = Some (Re.MState (lastp p' s') [] (<["1" := s']> ∅))) as Hall.
  { intros p' s'. rewrite rep_greedy_max; [|lia|done].
    rewrite take_while_all, drop_while_all by done.
    unfold Re.consumed. simpl. by rewrite Nat.sub_0_r, firstn_all. }
  rewrite rep_greedy_max; [|lia|by rewrite Hall].
  rewrite Hall. eexists. split; [done|]. unfold Re.group. simpl.
  apply lookup_insert_eq.
Qed.

Lemma search_feedback body :
  match after_marker MARKER body with
  | Some tail => ∃ m, Re.p_search FEEDBACK_PATTERN body = Some m
                      ∧ Re.group m "1" = Some (Str.drop_while Chr.isspace tail)
  | None => Re.p_search FEEDBACK_PATTERN body = None
  end.
Proof.
  apply (search_from_scan _ _ _
           (λ tail m, Re.group m "1" = Some (Str.drop_while Chr.isspace tail))).
  apply match_here_feedback.
Qed.

Lemma scan_None {X} (here : str → option X) s :
  scan here s = None ↔ ∀ pre t, s = pre ++ t → here t = None.
Proof.
  induction s as [|c s IH]; simpl.
  - destruct (here []) eqn:H0; split; try done.
    + intros H. by rewrite (H [] []) in H0.
    + intros _ pre t Ht. symmetry in Ht. by apply app_eq_nil in Ht as [-> ->].
  - destruct (here (c :: s)) eqn:H0.
    + split; [done|]. intros H. by rewrite (H [] (c :: s)) in H0.
    + rewrite IH. split.
      * intros H [|d pre] t Ht; simpl in Ht; simplify_eq; eauto.
      * intros H pre t ->. by apply (H (c :: pre)).
Qed.

Lemma scan_Some {X} (here : str → option X) s x :
  scan here s = Some x →
  ∃ pre t, s = pre ++ t ∧ here t = Some x
           ∧ ∀ pre1 t1, s = pre1 ++ t1 → length pre1 < length pre → here t1 = None.
Proof.
  induction s as [|c s IH]; simpl.
  - destruct (here []) eqn:H0; [|done]. intros [= ->].
    exists [], []. split_and!; [done..|]. simpl. lia.
  - destruct (here (c :: s)) eqn:H0.
    + intros [= ->]. exists [], (c :: s). split_and!; [done..|]. simpl. lia.
    + intros H. destruct (IH H) as (pre & t & -> & Ht & Hfirst).
      exists (c :: pre), t. split_and!; [done..|].
      intros [|d pre1] t1 Heq Hlen; simpl in *; simplify_eq; [done|].
      eapply Hfirst; [done|lia].
Qed.

Lemma lower_length s : length (Str.lower s) = length s.
Proof. apply length_fmap. Qed.

Lemma starts_with_ci_spec w t :
  starts_with_ci w t = true ↔ ∃ x post, t = x ++ post ∧ Str.lower x = Str.lower w.
Proof.
  unfold starts_with_ci. rewrite bool_decide_eq_true. split.
  - intros H. exists (take (length w) t), (drop (length w) t).
    by rewrite take_drop.
  - intros (x & post & -> & Hx).
    assert (length x = length w) as <-.
    { by rewrite <- (lower_length x), Hx, lower_length. }
    by rewrite take_app_length.
Qed.

Lemma after_marker_None w body : after_marker w body = None ↔ ¬ mentions w body.
Proof.
  unfold after_marker. rewrite scan_None. split.
  - intros H (pre & x & post & -> & Hx).
    specialize (H pre (x ++ post) eq_refl).
    destruct (starts_with_ci w (x ++ post)) eqn:E; [done|].
    apply not_true_iff_false in E. apply E, starts_with_ci_spec. eauto.
  - intros H pre t ->. destruct (starts_with_ci w t) eqn:E; [|done].
    apply starts_with_ci_spec in E as (x & post & -> & Hx).
    destruct H. by exists pre, x, post.
Qed.

Lemma drop_while_idemp p s : Str.drop_while p (Str.drop_while p s) = Str.drop_while p s.
Proof. apply drop_while_id. intros c. apply drop_while_head. Qed.

Lemma feedback_text_drop_while tail :
  feedback_text (Str.drop_while Chr.isspace tail) = feedback_text tail.
Proof.
  unfold feedback_text, Str.strip, Str.strip_with. by rewrite drop_while_idemp.
Qed.

Lemma truthy_false (s : str) : Str.truthy s = false ↔ s = [].
Proof. by destruct s. Qed.

(** [extract_feedback] against the plain scan for the marker. *)
Lemma extract_feedback_scan full_body :
  extract_feedback full_body
  = Ret (match after_marker MARKER full_body with
         | None => NO_FEEDBACK
         | Some tail =>
             if Str.truthy (feedback_text tail) then feedback_text tail else NO_FEEDBACK
         end).
Proof.
  unfold extract_feedback. pose proof (search_feedback full_body) as H.
  destruct (after_marker MARKER full_body) as [tail|].
  - destruct H as (m & -> & ->). by rewrite feedback_text_drop_while.
  - by rewrite H.
Qed.

(** ** The loop and the limit of [int] *)

Lemma extract_feedback_total full_body : ∃ fb, extract_feedback full_body = Ret fb.
Proof.
  unfold extract_feedback.
  destruct (Re.p_search FEEDBACK_PATTERN full_body) as [m|] eqn:Hm; [|eauto].
  destruct (search_caps "1" Re.CAny 0 FEEDBACK_PATTERN _ _ eq_refl Hm) as [_ Hset].
  destruct (Hset eq_refl) as [captured Hc].
  unfold Re.group. rewrite Hc. eauto.
Qed.

Lemma found_inv o d : found o = Some d → o = Some d.
Proof. destruct o as [d'|]; simpl; [|done]. by case_decide; intros [= <-]. Qed.

Lemma build_summary_long d ds :
  get d "ticket_id" = Some ds → ds ≠ [] → Int.of_str ds = None →
  build_summary d = Raise ValueError.
Proof.
  intros Hget Hne Hn. unfold build_summary. rewrite Hget. simpl.
  destruct ds as [|c ds]; [done|]. simpl. by rewrite Hn.
Qed.

Lemma sorted_entries_empty ms : sorted_entries (Store ∅ ms) = [].
Proof. unfold sorted_entries. simpl. by rewrite map_to_list_empty. Qed.

Lemma sorted_entries_singleton x ms :
  sorted_entries (Store (<[ticket_number x := x]> ∅) ms) = [x].
Proof.
  unfold sorted_entries. simpl. rewrite insert_empty, map_to_list_singleton. done.
Qed.

(** The text that [int] reads for a notification. *)
Lemma ticket_text_matched e d :
  Str.contains "rating" (Str.lower (subject_of e)) = true →
  match_rating_line (body_of e) = Some d →
  ∃ ds, ticket_text e = Some ds ∧ get d "ticket_id" = Some ds
        ∧ ds ≠ [] ∧ all_decimal ds.
Proof.
  intros Hs Hd. unfold ticket_text. rewrite Hs, Hd.
  destruct (matched_ticket _ _ Hd) as (ds & Hget & Hne & Hall). by exists ds.
Qed.

Lemma ticket_text_unmatched e :
  Str.contains "rating" (Str.lower (subject_of e)) = true →
  match_rating_line (body_of e) = None →
  ticket_text e = first_ticket (body_of e).
Proof. intros Hs Hd. unfold ticket_text. by rewrite Hs, Hd. Qed.

Lemma found_matched full_body d :
  match_rating_line full_body = Some d → found (Some d) = Some d.
Proof.
  intros Hd. destruct (matched_ticket _ _ Hd) as (ds & Hget & _).
  simpl. rewrite decide_False; [done|]. intros ->.
  unfold get in Hget. by rewrite lookup_empty in Hget.
Qed.

Lemma process_matched st e d :
  Str.contains "rating" (Str.lower (subject_of e)) = true →
  match_rating_line (body_of e) = Some d →
  readable e →
  ∃ x0 fb,
    build_summary d = Ret (Some x0)
    ∧ extract_feedback (body_of e) = Ret fb
    ∧ process st e
      = Ret (Store (upsert (surveys st)
                      (mkSurveyEntry (ticket_number x0) (summary x0) fb))
                   (missed st)).
Proof.
  intros Hs Hd Hr. unfold process. fold (subject_of e) (body_of e).
  rewrite Hs, Hd. cbn [negb].
  destruct (ticket_text_matched _ _ Hs Hd) as (ds & Htext & Hget & Hne & Hall).
  unfold readable in Hr. rewrite Htext in Hr.
  destruct (of_str_digits ds Hne Hall Hr) as (n & Hn & _).
  destruct (build_summary_ticket _ _ _ Hget Hne Hn) as (x0 & Hb & _ & _).
  destruct (extract_feedback_total (body_of e)) as [fb Hfb].
  rewrite (found_matched _ _ Hd).
  exists x0, fb. rewrite Hb, Hfb. done.
Qed.

(** The first ticket mention is what the search of [process] finds, and
    it is made of digits. *)
Lemma first_ticket_found body ds :
  first_ticket body = Some ds →
  ds ≠ [] ∧ all_decimal ds
  ∧ ∃ m, Re.p_search TICKET_ID_PATTERN body = Some m ∧ Re.group m "1" = Some ds.
Proof.
  intros Hfirst. pose proof (search_ticket body) as Hsearch.
  rewrite Hfirst in Hsearch. destruct Hsearch as (m & Hm & Hg).
  destruct (search_caps "1" Re.CDigit 1 TICKET_ID_PATTERN _ _ eq_refl Hm) as [Hgood _].
  destruct (Hgood ds Hg) as [Hlen Hall].
  split_and!; [intros ->; simpl in Hlen; lia|exact Hall|by exists m].
Qed.

(** What [process] does with a rating notification that follows no
    template. *)
Lemma process_without_match st e :
  Str.contains "rating" (Str.lower (subject_of e)) = true →
  match_rating_line (body_of e) = None →
  process st e =
  match first_ticket (body_of e) with
  | None => Ret st
  | Some ds =>
      match Int.of_str ds with
      | None => Raise ValueError
      | Some n =>
          Ret (if decide (n ∈ dom (surveys st)) then st
               else Store (surveys st) (missed st ++ [n]))
      end
  end.
Proof.
  intros Hs Hd. unfold process. fold (subject_of e) (body_of e).
  rewrite Hs, Hd. cbn [negb found].
  pose proof (search_ticket (body_of e)) as Hsearch.
  destruct (first_ticket (body_of e)) as [ds|].
  - destruct Hsearch as (m & -> & ->). destruct (Int.of_str ds); [|done].
    by case_decide.
  - by rewrite Hsearch.
Qed.

Lemma process_unmatched st e :
  Str.contains "rating" (Str.lower (subject_of e)) = true →
  match_rating_line (body_of e) = None →
  readable e →
  ∃ ms, process st e = Ret (Store (surveys st) ms).
Proof.
  intros Hs Hd Hr. rewrite process_without_match by done.
  unfold readable in Hr. rewrite (ticket_text_unmatched _ Hs Hd) in Hr.
  destruct (first_ticket (body_of e)) as [ds|] eqn:Hfirst.
  - destruct (first_ticket_found _ _ Hfirst) as (Hne & Hall & _).
    destruct (of_str_digits ds Hne Hall Hr) as (n & -> & _).
    case_decide; [destruct st|]; eauto.
  - destruct st. eauto.
Qed.

(** A notification whose ticket [int] does not read aborts the run. *)
Lemma process_raises st e : ¬ readable e → process st e = Raise ValueError.
Proof.
  unfold readable, ticket_text.
  destruct (Str.contains "rating" (Str.lower (subject_of e))) eqn:Hs; [|by intros []].
  destruct (match_rating_line (body_of e)) as [d|] eqn:Hd.
  - destruct (matched_ticket _ _ Hd) as (ds & Hget & Hne & Hall).
    rewrite Hget. intros Hlong.
    unfold process. fold (subject_of e) (body_of e). rewrite Hs, Hd. cbn [negb].
    rewrite (found_matched _ _ Hd).
    rewrite (build_summary_long _ ds); [done..|]. apply of_str_long; [done|lia].
  - rewrite process_without_match by done.
    destruct (first_ticket (body_of e)) as [ds|] eqn:Hfirst; [|by intros []].
    intros Hlong. destruct (first_ticket_found _ _ Hfirst) as (_ & Hall & _).
    rewrite of_str_long; [done..|lia].
Qed.

(** A readable notification either yields an entry, stored under its
    ticket number whatever the store was, or leaves the entries as they
    were. *)
Lemma process_cases e :
  readable e →
  (∃ x, ∀ st, process st e
              = Ret (Store (<[ticket_number x := x]> (surveys st)) (missed st)))
  ∨ (∀ st, ∃ ms, process st e = Ret (Store (surveys st) ms)).
Proof.
  intros Hr.
  destruct (Str.contains "rating" (Str.lower (subject_of e))) eqn:Hs.
  2:{ right. intros [sv ms]. unfold process. fold (subject_of e).
      rewrite Hs. simpl. eauto. }
  destruct (match_rating_line (body_of e)) as [d|] eqn:Hd.
  - left.
    destruct (process_matched (Store ∅ []) e d Hs Hd Hr) as (x0 & fb & Hb & Hfb & _).
    exists (mkSurveyEntry (ticket_number x0) (summary x0) fb). intros st.
    destruct (process_matched st e d Hs Hd Hr) as (x0' & fb' & Hb' & Hfb' & ->).
    rewrite Hb in Hb'. rewrite Hfb in Hfb'. by simplify_eq.
  - right. intros st. by apply process_unmatched.
Qed.

Lemma process_entry_of st e :
  readable e →
  ∃ ms, process st e
        = Ret (Store (match entry_of e with
                      | Some x => <[ticket_number x := x]> (surveys st)
                      | None => surveys st
                      end) ms).
Proof.
  intros Hr. unfold entry_of, parse_crewhu_data. simpl.
  destruct (process_cases e Hr) as [[x Hx] | Hn].
  - rewrite !Hx. simpl. rewrite sorted_entries_singleton. eauto.
  - destruct (Hn (Store ∅ [])) as [ms0 ->]. simpl.
    rewrite sorted_entries_empty. apply Hn.
Qed.

Lemma entry_of_unreadable e : ¬ readable e → entry_of e = None.
Proof.
  intros Hr. unfold entry_of, parse_crewhu_data. simpl.
  by rewrite (process_raises _ _ Hr).
Qed.

(** The entry of a notification, step by step: the subject speaks of a
    rating, a line of the body matches a pattern, [build_summary] makes
    an entry of the match and [extract_feedback] fills in the feedback. *)
Lemma entry_of_spec e x :
  entry_of e = Some x ↔
  mentions "rating" (subject_of e)
  ∧ ∃ d x0 fb,
      match_rating_line (body_of e) = Some d
      ∧ build_summary d = Ret (Some x0)
      ∧ extract_feedback (body_of e) = Ret fb
      ∧ x = mkSurveyEntry (ticket_number x0) (summary x0) fb.
Proof.
  rewrite <- (contains_lower_mentions "rating") by reflexivity.
  destruct (decide (readable e)) as [Hr|Hr].
  2:{ rewrite (entry_of_unreadable _ Hr). split; [done|].
      intros (Hs & d & x0 & fb & Hd & Hb & _). exfalso.
      destruct (ticket_text_matched _ _ Hs Hd) as (ds & Htext & Hget & Hne & Hall).
      unfold readable in Hr. rewrite Htext in Hr.
      rewrite (build_summary_long _ ds) in Hb; [done..|].
      apply of_str_long; [done|lia]. }
  assert (entry_of e = match process (Store ∅ []) e with
                       | Ret st => match sorted_entries st with
                                   | [y] => Some y
                                   | _ => None
                                   end
                       | Raise _ => None
                       end) as ->.
  { unfold entry_of, parse_crewhu_data. cbn [process_all].
    by destruct (process (Store ∅ []) e). }
  destruct (Str.contains "rating" (Str.lower (subject_of e))) eqn:Hs.
  2:{ unfold process. fold (subject_of e). rewrite Hs. cbn [negb].
      rewrite sorted_entries_empty. naive_solver. }
  destruct (match_rating_line (body_of e)) as [d|] eqn:Hd.
  - destruct (process_matched (Store ∅ []) e d Hs Hd Hr) as (x0 & fb & Hb & Hfb & ->).
    unfold upsert. cbn [surveys missed ticket_number].
    rewrite (sorted_entries_singleton (mkSurveyEntry (ticket_number x0) (summary x0) fb)).
    split.
    + intros [= <-]. split; [done|]. by exists d, x0, fb.
    + intros (_ & d' & x0' & fb' & [= <-] & Hb' & Hfb' & ->).
      rewrite Hb in Hb'. rewrite Hfb in Hfb'. by simplify_eq.
  - destruct (process_unmatched (Store ∅ []) e Hs Hd Hr) as [ms ->].
    cbn [surveys]. rewrite sorted_entries_empty. naive_solver.
Qed.

(** ** The store after the loop *)

Lemma process_all_surveys emails :
  Forall readable emails → ∀ st,
  ∃ ms, process_all st emails
        = Ret (Store (foldl upsert (surveys st) (entries_of emails)) ms).
Proof.
  induction 1 as [|e emails Hr _ IH]; intros st; simpl.
  - destruct st. eauto.
  - destruct (process_entry_of st e Hr) as [ms ->]. simpl.
    destruct (IH (Store (match entry_of e with
                         | Some x => <[ticket_number x := x]> (surveys st)
                         | None => surveys st
                         end) ms)) as [ms' ->].
    exists ms'. unfold entries_of. simpl. by destruct (entry_of e).
Qed.

(** The run aborts at the first notification whose ticket [int] does not
    read. *)
Lemma process_all_raises emails :
  ¬ Forall readable emails → ∀ st, process_all st emails = Raise ValueError.
Proof.
  induction emails as [|e emails IH]; intros Hno st; simpl.
  { destruct Hno. constructor. }
  destruct (decide (readable e)) as [Hr|Hr].
  - destruct (process_entry_of st e Hr) as [ms ->]. simpl.
    apply IH. intros Hall. apply Hno. by constructor.
  - by rewrite (process_raises _ _ Hr).
Qed.

(** A batch runs to its end exactly when [int] reads the ticket of each
    of its notifications; otherwise the run raises [ValueError]. *)
Lemma parse_returns emails :
  (∃ out ms, parse_crewhu_data emails = Ret (out, ms)) ↔ Forall readable emails.
Proof.
  unfold parse_crewhu_data. split.
  - intros (out & ms & Hrun).
    destruct (decide (Forall readable emails)) as [|Hno]; [done|].
    by rewrite (process_all_raises _ Hno) in Hrun.
  - intros Hall. destruct (process_all_surveys emails Hall (Store ∅ [])) as [ms ->].
    simpl. eauto.
Qed.

Lemma parse_raises emails :
  ¬ Forall readable emails → parse_crewhu_data emails = Raise ValueError.
Proof.
  intros Hno. unfold parse_crewhu_data. by rewrite (process_all_raises _ Hno).
Qed.

Lemma process_all_app l1 l2 st :
  process_all st (l1 ++ l2) = (st' ← process_all st l1; process_all st' l2).
Proof.
  revert st. induction l1 as [|e l1 IH]; intros st; simpl; [done|].
  destruct (process st e) as [st1|x]; simpl; [apply IH | done].
Qed.

Lemma upsert_lookup entries sv t :
  foldl upsert sv entries !! t =
  match last (with_ticket t entries) with
  | Some x => Some x
  | None => sv !! t
  end.
Proof.
  induction entries as [|x entries IH] using rev_ind; [done|].
  unfold with_ticket in *. rewrite foldl_snoc, filter_app. unfold upsert at 1.
  destruct (decide (ticket_number x = t)) as [Ht|Ht].
  - rewrite filter_cons_True, filter_nil, last_snoc by done.
    by rewrite Ht, lookup_insert_eq.
  - rewrite filter_cons_False, filter_nil, app_nil_r by done.
    by rewrite lookup_insert_ne.
Qed.

Lemma last_with_ticket t entries x :
  last (with_ticket t entries) = Some x → ticket_number x = t ∧ x ∈ entries.
Proof.
  intros H. apply last_Some_elem_of in H.
  by apply list_elem_of_filter in H.
Qed.

#[global] Instance by_ticket_total : Total by_ticket.
Proof. intros x y. unfold by_ticket. lia. Qed.

Lemma sorted_entries_elem st x :
  x ∈ sorted_entries st ↔ ∃ t, surveys st !! t = Some x.
Proof.
  unfold sorted_entries. rewrite merge_sort_Permutation, list_elem_of_fmap. split.
  - intros ([t y] & -> & H%elem_of_map_to_list). eauto.
  - intros [t H]. exists (t, x). split; [done|]. by apply elem_of_map_to_list.
Qed.

Lemma sorted_entries_tickets st :
  (∀ t x, surveys st !! t = Some x → ticket_number x = t) →
  ticket_number <$> sorted_entries st ≡ₚ (map_to_list (surveys st)).*1.
Proof.
  intros Hkey. unfold sorted_entries. rewrite merge_sort_Permutation.
  rewrite <- list_fmap_compose. erewrite (list_fmap_ext _ fst); [done|].
  intros i [t x] Hi. simpl. apply Hkey.
  by eapply elem_of_map_to_list, list_elem_of_lookup_2.
Qed.

(** The batch as a whole: it returns, and its entries are the last ones
    of their ticket number. *)
Lemma parse_result_entries emails :
  Forall readable emails →
  ∃ out ms,
    parse_crewhu_data emails = Ret (out, ms)
    ∧ NoDup (ticket_number <$> out)
    ∧ Sorted Z.le (ticket_number <$> out)
    ∧ ∀ x, x ∈ out ↔ last (with_ticket (ticket_number x) (entries_of emails)) = Some x.
Proof.
  intros Hall. unfold parse_crewhu_data.
  destruct (process_all_surveys emails Hall (Store ∅ [])) as [ms ->]. simpl.
  set (st := Store (foldl upsert ∅ (entries_of emails)) ms).
  assert (∀ t x, surveys st !! t = Some x ↔
                 last (with_ticket t (entries_of emails)) = Some x) as Hlook.
  { intros t x. unfold st. simpl. rewrite upsert_lookup.
    destruct (last _); [done|]. by rewrite lookup_empty. }
  assert (∀ t x, surveys st !! t = Some x → ticket_number x = t) as Hkey.
  { intros t x H%Hlook. by apply last_with_ticket in H as [? _]. }
  exists (sorted_entries st), ms. split_and!; [done| | |].
  - rewrite sorted_entries_tickets by done. apply NoDup_fst_map_to_list.
  - apply (Sorted_fmap _ by_ticket Z.le); [done|]. apply Sorted_merge_sort, _.
  - intros x. rewrite sorted_entries_elem. split.
    + intros [t H]. rewrite <- (Hkey _ _ H) in H at 1. by apply Hlook.
    + intros H. exists (ticket_number x). by apply Hlook.
Qed.

Lemma parse_result emails :
  Forall readable emails →
  ∃ out ms,
    parse_crewhu_data emails = Ret (out, ms)
    ∧ NoDup (ticket_number <$> out)
    ∧ Sorted Z.le (ticket_number <$> out)
    ∧ (∀ t, t ∈ ticket_number <$> out ↔ t ∈ ticket_number <$> entries_of emails)
    ∧ ∀ x, x ∈ out ↔ last (with_ticket (ticket_number x) (entries_of emails)) = Some x.
Proof.
  intros Hall.
  destruct (parse_result_entries emails Hall)
    as (out & ms & Hrun & Hnd & Hsorted & Hlast).
  exists out, ms. split_and!; [done..| |done].
  intros t. rewrite !list_elem_of_fmap. split.
  - intros (x & -> & Hx%Hlast). exists x. split; [done|].
    by apply last_with_ticket in Hx as [_ ?].
  - intros (y & -> & Hy).
    destruct (last (with_ticket (ticket_number y) (entries_of emails))) as [x|] eqn:Hx.
    + destruct (last_with_ticket _ _ _ Hx) as [Ht _].
      exists x. split; [done|]. apply Hlast. by rewrite Ht.
    + apply last_None in Hx. exfalso.
      eapply (filter_nil_not_elem_of _ _ y); [exact Hx | done | done].
Qed.

(** The same for a run that returned. *)
Lemma parse_result_of emails out ms :
  parse_crewhu_data emails = Ret (out, ms) →
  Forall readable emails
  ∧ NoDup (ticket_number <$> out)
  ∧ Sorted Z.le (ticket_number <$> out)
  ∧ (∀ t, t ∈ ticket_number <$> out ↔ t ∈ ticket_number <$> entries_of emails)
  ∧ ∀ x, x ∈ out ↔ last (with_ticket (ticket_number x) (entries_of emails)) = Some x.
Proof.
  intros Hrun.
  assert (Forall readable emails) as Hall by (apply parse_returns; eauto).
  destruct (parse_result emails Hall) as (out' & ms' & Hrun' & H).
  rewrite Hrun in Hrun'. by simplify_eq.
Qed.

(** The order in which the values of the dictionary are handed to
    [sorted] does not show in the result: in a store whose entries sit
    under their own ticket number, as in every store that the loop
    builds, sorting any arrangement of the values gives the same list. *)
Lemma sorted_entries_any_order st l :
  (∀ t x, surveys st !! t = Some x → ticket_number x = t) →
  l ≡ₚ (map_to_list (surveys st)).*2 →
  merge_sort by_ticket l = sorted_entries st.
Proof.
  intros Hkey Hl. unfold sorted_entries.
  assert (Transitive by_ticket) by (intros x y z; unfold by_ticket; lia).
  apply (Sorted_unique_strong by_ticket).
  - intros x y Hx Hy Hxy Hyx.
    rewrite merge_sort_Permutation in Hx, Hy. rewrite Hl in Hx.
    apply list_elem_of_fmap in Hx as ([tx x'] & -> & Hx%elem_of_map_to_list).
    apply list_elem_of_fmap in Hy as ([ty y'] & -> & Hy%elem_of_map_to_list).
    simpl in *. unfold by_ticket in *.
    rewrite <- (Hkey _ _ Hx) in Hx. rewrite <- (Hkey _ _ Hy) in Hy.
    assert (ticket_number x' = ticket_number y') as E by lia.
    rewrite E in Hx. congruence.
  - apply Sorted_merge_sort, _.
  - apply Sorted_merge_sort, _.
  - by rewrite !merge_sort_Permutation.
Qed.

(** ** The two loops of [match_rating_line] *)

Lemma match_line_None ps line :
  match_line ps line = None ↔ ∀ pat, pat ∈ ps → Re.p_search pat line = None.
Proof.
  induction ps as [|pat ps IH]; simpl.
  - split; [|done]. intros _ pat H. by apply not_elem_of_nil in H.
  - destruct (Re.p_search pat line) eqn:Hp.
    + split; [done|]. intros H. rewrite H in Hp; [done|left].
    + rewrite IH. split.
      * intros H pat' [->|?]%elem_of_cons; auto.
      * intros H pat' ?. apply H. by right.
Qed.

Lemma match_line_first ps line d :
  match_line ps line = Some d ↔
  ∃ j pat m, ps !! j = Some pat ∧ Re.p_search pat line = Some m
             ∧ d = result_of pat m
             ∧ ∀ j' pat', j' < j → ps !! j' = Some pat' →
                          Re.p_search pat' line = None.
Proof.
  induction ps as [|pat ps IH]; simpl.
  - split; [done|]. by intros (j & pat & m & ? & _).
  - destruct (Re.p_search pat line) as [m|] eqn:Hp.
    + split.
      * intros [= <-]. exists 0, pat, m. split_and!; [done..|]. lia.
      * intros ([|j] & pat' & m' & Hj & Hm & -> & Hfirst); simpl in Hj.
        -- by simplify_eq.
        -- by rewrite (Hfirst 0 pat) in Hp by (lia || done).
    + rewrite IH. split.
      * intros (j & pat' & m & Hj & Hm & -> & Hfirst).
        exists (S j), pat', m. split_and!; [done..|].
        intros [|j'] pat'' Hlt Hj'; simpl in Hj'; [by simplify_eq|].
        eapply Hfirst; [|done]. lia.
      * intros ([|j] & pat' & m & Hj & Hm & -> & Hfirst); simpl in Hj.
        { by simplify_eq. }
        exists j, pat', m. split_and!; [done..|].
        intros j' pat'' Hlt Hj'. apply (Hfirst (S j')); [lia|done].
Qed.

Lemma match_lines_None ps lines :
  match_lines ps lines = None ↔ ∀ line, line ∈ lines → match_line ps line = None.
Proof.
  induction lines as [|line lines IH]; simpl.
  - split; [|done]. intros _ l H. by apply not_elem_of_nil in H.
  - destruct (match_line ps line) eqn:Hl.
    + split; [done|]. intros H. rewrite H in Hl; [done|left].
    + rewrite IH. split.
      * intros H l [->|?]%elem_of_cons; auto.
      * intros H l ?. apply H. by right.
Qed.

Lemma match_lines_first ps lines d :
  match_lines ps lines = Some d ↔
  ∃ i line, lines !! i = Some line ∧ match_line ps line = Some d
            ∧ ∀ i' line', i' < i → lines !! i' = Some line' →
                          match_line ps line' = None.
Proof.
  induction lines as [|line lines IH]; simpl.
  - split; [done|]. by intros (i & l & ? & _).
  - destruct (match_line ps line) as [d'|] eqn:Hl.
    + split.
      * intros [= <-]. exists 0, line. split_and!; [done..|]. lia.
      * intros ([|i] & l & Hi & Hm & Hfirst); simpl in Hi.
        -- by simplify_eq.
        -- by rewrite (Hfirst 0 line) in Hl by (lia || done).
    + rewrite IH. split.
      * intros (i & l & Hi & Hm & Hfirst).
        exists (S i), l. split_and!; [done..|].
        intros [|i'] l' Hlt Hi'; simpl in Hi'; [by simplify_eq|].
        eapply Hfirst; [|done]. lia.
      * intros ([|i] & l & Hi & Hm & Hfirst); simpl in Hi.
        { by simplify_eq. }
        exists i, l. split_and!; [done..|].
        intros i' l' Hlt Hi'. apply (Hfirst (S i')); [lia|done].
Qed.

(** The first pattern of the list that matches the line comes no later
    than any pattern that matches it. *)
Lemma match_line_before ps line : ∀ j1 p1,
  ps !! j1 = Some p1 → is_Some (Re.p_search p1 line) →
  ∃ j pat m, j ≤ j1 ∧ ps !! j = Some pat ∧ Re.p_search pat line = Some m
             ∧ match_line ps line = Some (result_of pat m).
Proof.
  induction ps as [|pat ps IH]; intros j1 p1 Hj1 Hm; [done|]. simpl.
  destruct (Re.p_search pat line) as [m|] eqn:Hp.
  - exists 0, pat, m. split_and!; [lia|done..].
  - destruct j1 as [|j1]; simpl in Hj1.
    + simplify_eq. rewrite Hp in Hm. by destruct Hm.
    + destruct (IH j1 p1 Hj1 Hm) as (j & pat' & m & ? & ? & ? & ?).
      exists (S j), pat', m. split_and!; [lia|done..].
Qed.

Lemma rating_patterns_customer j pat :
  RATING_PATTERNS !! j = Some pat →
  captures_customer pat ↔ j = 0 ∨ j = 1 ∨ j = 3.
Proof.
  unfold captures_customer.
  do 6 (destruct j as [|j]; [intros [= <-]; simpl; set_solver by lia|]).
  done.
Qed.

Lemma match_rating_line_at full_body i line d :
  cleaned_lines full_body !! i = Some line →
  no_match_before full_body i →
  match_line RATING_PATTERNS line = Some d →
  match_rating_line full_body = Some d.
Proof.
  intros Hi Hbefore Hd. apply match_lines_first. exists i, line.
  split_and!; [done..|]. intros i' line' Hlt Hi'.
  apply match_line_None. intros pat Hpat. by eapply Hbefore.
Qed.

(** ** The plain scans, spelt out *)

Lemma scan_first {X} (here : str → option X) s x :
  scan here s = Some x ↔
  ∃ pre t, s = pre ++ t ∧ here t = Some x
           ∧ ∀ pre1 t1, s = pre1 ++ t1 → length pre1 < length pre → here t1 = None.
Proof.
  split; [apply scan_Some|].
  intros (pre & t & -> & Ht & Hfirst).
  induction pre as [|c pre IH]; simpl.
  - destruct t; simpl; by rewrite Ht.
  - rewrite (Hfirst [] (c :: pre ++ t)) by (done || simpl; lia).
    apply IH. intros pre1 t1 Heq Hlen.
    apply (Hfirst (c :: pre1)); [simpl; by rewrite Heq | simpl; lia].
Qed.

Lemma take_while_Forall p (s : str) : Forall (λ c, p c = true) (take_while p s).
Proof.
  induction s as [|c s IH]; simpl; [done|].
  destruct (p c) eqn:Hc; by constructor.
Qed.

Lemma take_while_app p (run rest : str) :
  Forall (λ c, p c = true) run → (∀ c, head rest = Some c → p c = false) →
  take_while p (run ++ rest) = run.
Proof.
  intros Hrun Hrest. induction Hrun as [|c run Hc _ IH]; simpl.
  - destruct rest as [|d rest]; simpl; [done|]. by rewrite (Hrest d).
  - by rewrite Hc, IH.
Qed.

Lemma drop_while_app p (run rest : str) :
  Forall (λ c, p c = true) run → (∀ c, head rest = Some c → p c = false) →
  Str.drop_while p (run ++ rest) = rest.
Proof.
  intros Hrun Hrest. induction Hrun as [|c run Hc _ IH]; simpl.
  - by apply drop_while_id.
  - by rewrite Hc.
Qed.

(** A ticket mention, in words: the letters of [ticket#] in any case,
    white space, and a run of digits that no further digit follows. *)
Lemma ticket_here_spec s ds :
  ticket_here s = Some ds ↔
  ∃ tk ws rest,
    s = tk ++ ws ++ ds ++ rest
    ∧ Str.lower tk = "ticket#"
    ∧ Forall (λ c, Chr.isspace c = true) ws
    ∧ ds ≠ [] ∧ all_decimal ds
    ∧ (∀ c, head rest = Some c → Chr.isdecimal c = false).
Proof.
  unfold ticket_here. split.
  - destruct (starts_with_ci "ticket#" s) eqn:Hs; [|done].
    apply starts_with_ci_spec in Hs as (tk & post & -> & Htk).
    assert (length tk = 7) as Hlen by (by rewrite <- lower_length, Htk).
    rewrite <- Hlen, drop_app_length.
    destruct (Str.truthy _) eqn:Ht; [|done]. intros [= <-].
    exists tk, (take_while Chr.isspace post),
      (Str.drop_while Chr.isdecimal (Str.drop_while Chr.isspace post)).
    split_and!.
    + by rewrite !take_drop_while.
    + done.
    + apply take_while_Forall.
    + intros E. by rewrite E in Ht.
    + apply take_while_Forall.
    + intros c. apply drop_while_head.
  - intros (tk & ws & rest & -> & Htk & Hws & Hne & Hds & Hrest).
    assert (length tk = 7) as Hlen by (by rewrite <- lower_length, Htk).
    assert (starts_with_ci "ticket#" (tk ++ ws ++ ds ++ rest) = true) as ->.
    { apply starts_with_ci_spec. by exists tk, (ws ++ ds ++ rest). }
    rewrite <- Hlen, drop_app_length.
    rewrite drop_while_app; [|done|].
    2:{ intros c Hc. destruct ds as [|d ds]; [done|]. simpl in Hc. simplify_eq.
        apply decimal_not_space. by inversion Hds. }
    rewrite take_while_app by done.
    destruct ds; [done|]. done.
Qed.

(** The first ticket mention of a body, in words. *)
Lemma first_ticket_spec body ds :
  first_ticket body = Some ds ↔
  ∃ pre tk ws rest,
    body = pre ++ tk ++ ws ++ ds ++ rest
    ∧ Str.lower tk = "ticket#"
    ∧ Forall (λ c, Chr.isspace c = true) ws
    ∧ ds ≠ [] ∧ all_decimal ds
    ∧ (∀ c, head rest = Some c → Chr.isdecimal c = false)
    ∧ (∀ pre1 t1, body = pre1 ++ t1 → length pre1 < length pre →
                  ticket_here t1 = None).
Proof.
  unfold first_ticket. rewrite scan_first. split.
  - intros (pre & t & -> & Ht & Hfirst).
    apply ticket_here_spec in Ht as (tk & ws & rest & -> & ?).
    exists pre, tk, ws, rest. naive_solver.
  - intros (pre & tk & ws & rest & -> & Htk & Hws & Hne & Hds & Hrest & Hfirst).
    exists pre, (tk ++ ws ++ ds ++ rest). split_and!; [done| |done].
    apply ticket_here_spec. by exists tk, ws, rest.
Qed.

(** The text after the first marker, in words. *)
Lemma after_marker_spec w body tail :
  after_marker w body = Some tail ↔
  ∃ pre x,
    body = pre ++ x ++ tail ∧ Str.lower x = Str.lower w
    ∧ ∀ pre1 t1, body = pre1 ++ t1 → length pre1 < length pre →
                 starts_with_ci w t1 = false.
Proof.
  unfold after_marker. rewrite scan_first. split.
  - intros (pre & t & -> & Ht & Hfirst).
    destruct (starts_with_ci w t) eqn:Hs; [|done]. simplify_eq.
    apply starts_with_ci_spec in Hs as (x & post & -> & Hx).
    assert (length x = length w) as Hlen.
    { by rewrite <- (lower_length x), Hx, lower_length. }
    exists pre, x. rewrite <- Hlen, drop_app_length. split_and!; [done..|].
    intros pre1 t1 Heq Hlt. specialize (Hfirst pre1 t1 Heq Hlt).
    by destruct (starts_with_ci w t1).
  - intros (pre & x & -> & Hx & Hfirst).
    assert (length x = length w) as Hlen.
    { by rewrite <- (lower_length x), Hx, lower_length. }
    exists pre, (x ++ tail). split_and!; [done| |].
    + assert (starts_with_ci w (x ++ tail) = true) as ->.
      { apply starts_with_ci_spec. by exists x, tail. }
      by rewrite <- Hlen, drop_app_length.
    + intros pre1 t1 Heq Hlt. by rewrite (Hfirst pre1 t1 Heq Hlt).
Qed.

(** ** The patterns on the sentences of their comments *)

(** Each sentence is matched first by the pattern it documents, with the
    groups one expects. *)
Lemma documented_sentences_match :
  Forall (λ sd, match_rating_line sd.1 = Some sd.2) documented_sentences
  ∧ imap (λ j sd, bool_decide (match_line (take j RATING_PATTERNS) sd.1 = None))
         documented_sentences
    = [true; true; true; true; true; true].
Proof.
  split.
  - repeat (apply Forall_cons; split; [vm_compute; reflexivity|]). apply Forall_nil_2.
  - vm_compute. reflexivity.
Qed.

(** ** The claims *)

(** C1, as the code has it: a dictionary whose ticket identifier is
    present (not empty) is never answered with [None].  When [int] rejects
    the identifier, [build_summary] raises [ValueError]; when [int] accepts
    it, negative numbers included, the entry carries that number. *)
Theorem build_summary_present_ticket (match_data : gmap string (option str)) (t : str) :
  get match_data "ticket_id" = Some t → t ≠ [] →
  match Int.of_str t with
  | None => build_summary match_data = Raise ValueError
  | Some n => ∃ entry, build_summary match_data = Ret (Some entry)
                       ∧ ticket_number entry = n
  end.
Proof.
  intros Hget Hne. unfold build_summary. rewrite Hget.
  destruct t as [|c t]; [done|]. simpl.
  destruct (Int.of_str (c :: t)); eauto.
Qed.

Lemma build_summary_present_ticket_witness :
  get malformed_data "ticket_id" = Some ("abc" : str)
  ∧ ("abc" : str) ≠ []
  ∧ build_summary malformed_data = Raise ValueError.
Proof.
  split; [reflexivity|]. split; [discriminate|].
  apply (build_summary_present_ticket malformed_data "abc"); [reflexivity | discriminate].
Defined.

(** C1, as the claim states it, fails: the ticket identifier "abc" is
    present and is no number, and [build_summary] raises [ValueError]
    where the claim announces [None]. *)
Lemma build_summary_malformed_raises :
  get malformed_data "ticket_id" = Some ("abc" : str)
  ∧ Int.of_str "abc" = None
  ∧ build_summary malformed_data = Raise ValueError
  ∧ build_summary malformed_data ≠ Ret None.
Proof. vm_compute. split_and!; done. Qed.

(** C2: the notification of the end-to-end example, run alone, gives the
    one entry of the example: ticket 42, its summary sentence and its
    feedback; nothing is reported as missed. *)
Theorem end_to_end_example :
  parse_crewhu_data [rating_email] = Ret ([rating_entry], []).
Proof. vm_compute. reflexivity. Qed.

(** C3, as the code has it.  [match_rating_line] returns the groups of
    the first line, first pattern that match: the retained lines are tried
    in their order and, on a line, the six patterns in the order of
    [RATING_PATTERNS]; it returns [None] exactly when no pattern matches
    any retained line.  On the first line that matches at all, a pattern
    that matches excludes the result of every later pattern.  The patterns
    that capture the customer are the first, the second and the fourth: a
    line that matches the first or the second gets a result with the
    customer whatever company-only pattern matches it too, while the
    fourth pattern comes after the third, a company-only pattern. *)
Theorem first_line_first_template (full_body : str) :
  (∀ d, match_rating_line full_body = Some d ↔
     ∃ i line j pat m,
       cleaned_lines full_body !! i = Some line
       ∧ RATING_PATTERNS !! j = Some pat
       ∧ Re.p_search pat line = Some m
       ∧ d = result_of pat m
       ∧ (∀ j' pat', j' < j → RATING_PATTERNS !! j' = Some pat' →
                     Re.p_search pat' line = None)
       ∧ no_match_before full_body i)
  ∧ (match_rating_line full_body = None ↔
       ∀ line pat, line ∈ cleaned_lines full_body → pat ∈ RATING_PATTERNS →
                   Re.p_search pat line = None)
  ∧ (∀ i line j1 p1 j2 p2,
       cleaned_lines full_body !! i = Some line →
       no_match_before full_body i →
       RATING_PATTERNS !! j1 = Some p1 → RATING_PATTERNS !! j2 = Some p2 →
       j1 < j2 →
       is_Some (Re.p_search p1 line) → is_Some (Re.p_search p2 line) →
       ∃ j pat m,
         j ≤ j1 ∧ RATING_PATTERNS !! j = Some pat
         ∧ Re.p_search pat line = Some m
         ∧ match_rating_line full_body = Some (result_of pat m)
         ∧ (j1 ≤ 1 → captures_customer pat))
  ∧ (∀ j pat, RATING_PATTERNS !! j = Some pat →
              captures_customer pat ↔ j = 0 ∨ j = 1 ∨ j = 3).
Proof.
  split_and!.
  - intros d. unfold match_rating_line. rewrite match_lines_first. split.
    + intros (i & line & Hi & Hd & Hfirst).
      apply match_line_first in Hd as (j & pat & m & Hj & Hm & -> & Hjfirst).
      exists i, line, j, pat, m. split_and!; [done..|].
      intros i' line' pat' Hlt Hi' Hpat.
      by eapply match_line_None; [eapply Hfirst|].
    + intros (i & line & j & pat & m & Hi & Hj & Hm & -> & Hjfirst & Hbefore).
      exists i, line. split_and!; [done| |].
      * apply match_line_first. by exists j, pat, m.
      * intros i' line' Hlt Hi'. apply match_line_None.
        intros pat' Hpat. by eapply Hbefore.
  - unfold match_rating_line. rewrite match_lines_None. split.
    + intros H line pat Hline Hpat. by eapply match_line_None; [apply H|].
    + intros H line Hline. apply match_line_None. intros pat Hpat. by apply H.
  - intros i line j1 p1 j2 p2 Hi Hbefore Hj1 Hj2 Hlt Hm1 Hm2.
    destruct (match_line_before _ line _ _ Hj1 Hm1) as (j & pat & m & Hle & Hj & Hm & Hd).
    exists j, pat, m. split_and!; [done..| |].
    + by eapply match_rating_line_at.
    + intros H1. apply (rating_patterns_customer j pat Hj). lia.
  - apply rating_patterns_customer.
Qed.

Lemma first_line_first_template_witness :
  cleaned_lines rating_body !! 0 = Some rating_line
  ∧ no_match_before rating_body 0
  ∧ RATING_PATTERNS !! 0 = Some (template 0)
  ∧ RATING_PATTERNS !! 2 = Some (template 2)
  ∧ is_Some (Re.p_search (template 0) rating_line)
  ∧ is_Some (Re.p_search (template 2) rating_line)
  ∧ ∃ j pat m,
      j ≤ 0 ∧ RATING_PATTERNS !! j = Some pat
      ∧ Re.p_search pat rating_line = Some m
      ∧ match_rating_line rating_body = Some (result_of pat m)
      ∧ (0 ≤ 1 → captures_customer pat).
Proof.
  assert (cleaned_lines rating_body !! 0 = Some rating_line) as H1
    by (vm_compute; reflexivity).
  assert (no_match_before rating_body 0) as H2 by (intros i' ? ? Hlt; lia).
  assert (is_Some (Re.p_search (template 0) rating_line)) as H3
    by (vm_compute; eauto).
  assert (is_Some (Re.p_search (template 2) rating_line)) as H4
    by (vm_compute; eauto).
  split_and!; [exact H1 | exact H2 | reflexivity | reflexivity | exact H3 | exact H4 |].
  refine (proj1 (proj2 (proj2 (first_line_first_template rating_body)))
            0 rating_line 0 (template 0) 2 (template 2) H1 H2 eq_refl eq_refl _ H3 H4).
  lia.
Defined.

(** C3, as the claim states it, fails: this line is matched by the fourth
    pattern, which captures customer and company, and by the third, which
    captures the company only; the third comes first in the list and its
    result is the one returned. *)
Lemma company_only_template_first :
  cleaned_lines two_ratings_line = [two_ratings_line]
  ∧ captures_customer (template 3)
  ∧ ¬ captures_customer (template 2)
  ∧ match_line [template 3] two_ratings_line = Some customer_company_data
  ∧ match_line [template 2] two_ratings_line = Some company_only_data
  ∧ match_rating_line two_ratings_line = Some company_only_data
  ∧ get company_only_data "customer" = None.
Proof.
  split_and!.
  - vm_compute. reflexivity.
  - by apply (rating_patterns_customer 3); [|right; right].
  - intros H. apply (rating_patterns_customer 2) in H; [lia|done].
  - vm_compute. reflexivity.
  - vm_compute. reflexivity.
  - vm_compute. reflexivity.
  - vm_compute. reflexivity.
Qed.


(** C5: when a batch is processed to the end (that is, when [int] reads
    the ticket of each of its notifications, see C4), the ticket numbers
    of the entries written ascend (strictly), and the order of the
    notifications does not show in them: the same notifications in another
    order are processed to the end as well and give the same sequence of
    ticket numbers.  Otherwise the run raises [ValueError] in every order
    of the notifications. *)
Theorem output_sorted_by_ticket (emails : list email) :
  (Forall readable emails
   ∧ ∃ out ms,
       parse_crewhu_data emails = Ret (out, ms)
       ∧ Sorted Z.le (ticket_number <$> out)
       ∧ Sorted Z.lt (ticket_number <$> out)
       ∧ ∀ emails', emails' ≡ₚ emails →
           ∃ out' ms', parse_crewhu_data emails' = Ret (out', ms')
                       ∧ ticket_number <$> out' = ticket_number <$> out)
  ∨ (¬ Forall readable emails
     ∧ ∀ emails', emails' ≡ₚ emails → parse_crewhu_data emails' = Raise ValueError).
Proof.
  destruct (decide (Forall readable emails)) as [Hall|Hno].
  2:{ right. split; [done|]. intros emails' Hperm. apply parse_raises.
      by rewrite Hperm. }
  left. split; [done|].
  destruct (parse_result emails Hall) as (out & ms & Hrun & Hnd & Hsorted & Hset & _).
  exists out, ms. split_and!; [done..| |].
  - clear Hrun Hset. induction Hsorted as [|t l Hl IH Hhd]; [constructor|].
    apply NoDup_cons in Hnd as [Hnot Hnd]. constructor; [by apply IH|].
    destruct Hhd as [|u l' Hle]; constructor.
    assert (t ≠ u) by (intros ->; apply Hnot; left). lia.
  - intros emails' Hperm.
    assert (Forall readable emails') as Hall' by by rewrite Hperm.
    destruct (parse_result emails' Hall')
      as (out' & ms' & Hrun' & Hnd' & Hsorted' & Hset' & _).
    exists out', ms'. split; [done|].
    apply (Sorted_unique Z.le); [done..|].
    apply NoDup_Permutation; [done..|].
    intros t. rewrite Hset', Hset. unfold entries_of. by rewrite Hperm.
Qed.

(** C6, as the code has it: [extract_feedback] never raises.  Without a
    marker (in any letter case) it returns the sentinel; with one, it
    processes the text after the first marker (see [after_marker_spec];
    the steps of [feedback_text] are: strip, strip quotes, cut at
    the first blank line, cut at [Click here] between word boundaries or
    at [Regards,], join the stripped non-empty lines) and returns it, or
    the sentinel when it is empty.  So the sentinel is returned exactly
    when there is no marker, or the processed text is empty, or the
    processed text is itself the sentinel text. *)
Theorem extract_feedback_sentinel (full_body : str) :
  (after_marker MARKER full_body = None ↔ ¬ mentions MARKER full_body)
  ∧ extract_feedback full_body
    = Ret (match after_marker MARKER full_body with
           | None => NO_FEEDBACK
           | Some tail =>
               if Str.truthy (feedback_text tail) then feedback_text tail
               else NO_FEEDBACK
           end)
  ∧ (extract_feedback full_body = Ret NO_FEEDBACK ↔
       ¬ mentions MARKER full_body
       ∨ ∃ tail, after_marker MARKER full_body = Some tail
                 ∧ (feedback_text tail = [] ∨ feedback_text tail = NO_FEEDBACK)).
Proof.
  split; [apply after_marker_None|]. split; [apply extract_feedback_scan|].
  rewrite extract_feedback_scan, <- after_marker_None.
  destruct (after_marker MARKER full_body) as [tail|].
  - destruct (Str.truthy (feedback_text tail)) eqn:Ht.
    + split.
      * intros [= H]. right. exists tail. eauto.
      * intros [?|(tail' & [= <-] & [H|H])]; [done| |by rewrite H].
        by rewrite H in Ht.
    + apply truthy_false in Ht. split; [|done].
      intros _. right. exists tail. eauto.
  - split; [by left|done].
Qed.

(** C6, as the claim states it, fails: this body has the marker and the
    text left after all the steps is not empty, yet what
    [extract_feedback] returns is the sentinel text. *)
Lemma extract_feedback_sentinel_text :
  mentions MARKER sentinel_body
  ∧ after_marker MARKER sentinel_body = Some (" No feedback provided." : str)
  ∧ feedback_text " No feedback provided." = NO_FEEDBACK
  ∧ feedback_text " No feedback provided." ≠ []
  ∧ extract_feedback sentinel_body = Ret NO_FEEDBACK.
Proof.
  split.
  - exists [], MARKER, " No feedback provided.". done.
  - vm_compute. split_and!; done.
Qed.

(** C7: a notification whose subject does not contain "rating" in any
    letter case leaves the store (entries and missed tickets) as it was,
    and taking it out of a batch changes nothing in what the batch
    returns. *)
Theorem skip_without_rating (e : email) :
  ¬ mentions "rating" (subject_of e) →
  (∀ st, process st e = Ret st)
  ∧ (∀ before after,
       parse_crewhu_data (before ++ e :: after) = parse_crewhu_data (before ++ after)).
Proof.
  intros Hno.
  assert (∀ st, process st e = Ret st) as Hskip.
  { intros st. unfold process.
    destruct (Str.contains "rating" (Str.lower (default [] (Subject e)))) eqn:Hc; [|done].
    apply contains_lower_mentions in Hc; [|reflexivity]. by destruct Hno. }
  split; [done|]. intros before after. unfold parse_crewhu_data.
  rewrite !process_all_app.
  destruct (process_all (Store ∅ []) before) as [st|x]; simpl; [|done].
  by rewrite Hskip.
Qed.

Lemma skip_without_rating_witness :
  ¬ mentions "rating" (subject_of other_email)
  ∧ (∀ st, process st other_email = Ret st)
  ∧ parse_crewhu_data ([rating_email] ++ other_email :: [rating_email])
    = parse_crewhu_data ([rating_email] ++ [rating_email]).
Proof.
  assert (¬ mentions "rating" (subject_of other_email)) as Hno.
  { rewrite <- contains_lower_mentions by reflexivity. vm_compute. discriminate. }
  split; [exact Hno|].
  split; [apply (skip_without_rating other_email Hno)
         | apply (skip_without_rating other_email Hno)].
Defined.

(** C8, as the code has it: a notification whose subject contains
    "rating" (in any letter case), whose body follows no template and
    whose first ticket mention ([ticket#], white space if any, digits; see
    [first_ticket_spec]) reads [ds] yields no entry.  When [ds] has no
    more digits than [int] converts (4300), [int] reads it; processing the
    notification leaves the entries as they are and appends the number to
    [missed] when no entry has that ticket number at that moment, and
    changes nothing when one has.  When [ds] has more digits, processing
    the notification raises [ValueError] and nothing is recorded.  The
    first mention is the only one looked at. *)
Theorem unmatched_ticket_recorded (e : email) (ds : str) :
  mentions "rating" (subject_of e) →
  match_rating_line (body_of e) = None →
  first_ticket (body_of e) = Some ds →
  entry_of e = None
  ∧ (length ds ≤ Int.max_str_digits →
       ∃ n, Int.of_str ds = Some n ∧ (0 ≤ n)%Z
            ∧ (∀ st, surveys st !! n = None →
                     process st e = Ret (Store (surveys st) (missed st ++ [n])))
            ∧ (∀ st, is_Some (surveys st !! n) → process st e = Ret st))
  ∧ (Int.max_str_digits < length ds →
       Int.of_str ds = None ∧ ∀ st, process st e = Raise ValueError).
Proof.
  intros Hsub Hnone Hfirst.
  apply contains_lower_mentions in Hsub; [|reflexivity].
  destruct (first_ticket_found _ _ Hfirst) as (Hne & Hall & _).
  pose proof (λ st, process_without_match st e Hsub Hnone) as Hproc.
  rewrite Hfirst in Hproc.
  split_and!.
  - unfold entry_of, parse_crewhu_data. simpl. rewrite Hproc.
    destruct (Int.of_str ds) as [n|]; [|done]. simpl.
    rewrite decide_False by set_solver. simpl. by rewrite sorted_entries_empty.
  - intros Hlen. destruct (of_str_digits ds Hne Hall Hlen) as (n & Hn & Hpos).
    rewrite Hn in Hproc. exists n. split_and!; [done..| |].
    + intros st Hst. rewrite Hproc. apply not_elem_of_dom in Hst.
      by rewrite decide_False.
    + intros st Hst. rewrite Hproc. apply elem_of_dom in Hst.
      by rewrite decide_True.
  - intros Hlen. pose proof (of_str_long ds Hall Hlen) as Hn.
    split; [done|]. intros st. by rewrite Hproc, Hn.
Qed.

Lemma unmatched_ticket_recorded_witness :
  mentions "rating" (subject_of unmatched_email)
  ∧ match_rating_line (body_of unmatched_email) = None
  ∧ first_ticket (body_of unmatched_email) = Some ("99" : str)
  ∧ length ("99" : str) ≤ Int.max_str_digits
  ∧ entry_of unmatched_email = None
  ∧ ∃ n, Int.of_str "99" = Some n ∧ (0 ≤ n)%Z
         ∧ (∀ st, surveys st !! n = None →
                  process st unmatched_email
                  = Ret (Store (surveys st) (missed st ++ [n])))
         ∧ (∀ st, is_Some (surveys st !! n) → process st unmatched_email = Ret st).
Proof.
  assert (mentions "rating" (subject_of unmatched_email)) as H1.
  { rewrite <- contains_lower_mentions by reflexivity. vm_compute. reflexivity. }
  assert (match_rating_line (body_of unmatched_email) = None) as H2
    by (vm_compute; reflexivity).
  assert (first_ticket (body_of unmatched_email) = Some ("99" : str)) as H3
    by (vm_compute; reflexivity).
  assert (length ("99" : str) ≤ Int.max_str_digits) as H4
    by (apply Nat.leb_le; vm_compute; reflexivity).
  split; [exact H1|]. split; [exact H2|]. split; [exact H3|]. split; [exact H4|].
  split; [exact (proj1 (unmatched_ticket_recorded unmatched_email "99" H1 H2 H3))|].
  exact (proj1 (proj2 (unmatched_ticket_recorded unmatched_email "99" H1 H2 H3)) H4).
Defined.

(** C8, as the claim states it, fails: the body follows no template and
    contains the mention [ticket# 2], the store has no entry for ticket 2,
    and yet 2 is not added to [missed]: the search stops at the first
    mention, [ticket# 1], for which the store has an entry. *)
Lemma later_ticket_not_recorded :
  mentions "rating" (subject_of two_tickets_email)
  ∧ match_rating_line (body_of two_tickets_email) = None
  ∧ body_of two_tickets_email
    = ("Thanks for the rating: ticket# 1 and " : str) ++ "ticket# 2"
  ∧ ticket_here "ticket# 2" = Some ("2" : str)
  ∧ Int.of_str "2" = Some 2%Z
  ∧ surveys one_entry_store !! 2%Z = None
  ∧ missed one_entry_store = []
  ∧ process one_entry_store two_tickets_email = Ret one_entry_store.
Proof.
  split.
  - rewrite <- contains_lower_mentions by reflexivity. vm_compute. reflexivity.
  - vm_compute. split_and!; reflexivity.
Qed.

(** C9: [normalize_text] is idempotent.  What it returns is the stripped
    text with every run of white space (line ends included) turned into
    one space, and this text neither begins nor ends with white space. *)
Theorem normalize_text_idempotent (x : str) :
  normalize_text (normalize_text x) = normalize_text x
  ∧ normalize_text x = collapse false (Str.strip x)
  ∧ clean_ends Chr.isspace (normalize_text x).
Proof.
  rewrite !normalize_text_collapse.
  assert (clean_ends Chr.isspace (collapse false (Str.strip x))) as Hclean.
  { apply collapse_clean, strip_with_clean. }
  split_and!; [|done..].
  unfold Str.strip at 1. rewrite strip_with_id by done.
  by apply collapse_stable.
Qed.

(** C10, as the code has it: when [match_rating_line] returns a
    dictionary, its [ticket_id] is a non-empty text of decimal digits.
    When it has no more digits than [int] converts (4300), [int] reads it
    and [build_summary] returns an entry with that (non-negative) ticket
    number; when it has more, [int] raises and [build_summary] with it. *)
Theorem matched_ticket_is_number (full_body : str) (d : gmap string (option str)) :
  match_rating_line full_body = Some d →
  ∃ ds,
    get d "ticket_id" = Some ds ∧ ds ≠ [] ∧ all_decimal ds
    ∧ (length ds ≤ Int.max_str_digits →
         ∃ n entry,
           Int.of_str ds = Some n ∧ (0 ≤ n)%Z
           ∧ build_summary d = Ret (Some entry) ∧ ticket_number entry = n)
    ∧ (Int.max_str_digits < length ds →
         Int.of_str ds = None ∧ build_summary d = Raise ValueError).
Proof.
  intros H. destruct (matched_ticket _ _ H) as (ds & Hget & Hne & Hall).
  exists ds. split_and!; [done..| |].
  - intros Hlen. destruct (of_str_digits ds Hne Hall Hlen) as (n & Hn & Hpos).
    destruct (build_summary_ticket _ _ _ Hget Hne Hn) as (entry & Hb & Ht & _).
    by exists n, entry.
  - intros Hlen. pose proof (of_str_long ds Hall Hlen) as Hn.
    split; [done|]. by apply (build_summary_long _ ds).
Qed.

Lemma matched_ticket_is_number_witness :
  match_rating_line rating_body = Some rating_data
  ∧ length ("42" : str) ≤ Int.max_str_digits
  ∧ ∃ n entry,
      Int.of_str "42" = Some n ∧ (0 ≤ n)%Z
      ∧ build_summary rating_data = Ret (Some entry) ∧ ticket_number entry = n.
Proof.
  assert (match_rating_line rating_body = Some rating_data) as H
    by (vm_compute; reflexivity).
  assert (length ("42" : str) ≤ Int.max_str_digits) as Hlen
    by (apply Nat.leb_le; vm_compute; reflexivity).
  split; [exact H|]. split; [exact Hlen|].
  destruct (matched_ticket_is_number rating_body rating_data H)
    as (ds & Hget & _ & _ & Hok & _).
  assert (ds = ("42" : str)) as ->
    by (vm_compute in Hget; injection Hget as <-; reflexivity).
  exact (Hok Hlen).
Defined.

(** C10, as the claim states it, fails: the body follows the first
    template with a ticket number of 4301 digits; [match_rating_line]
    returns a dictionary whose [ticket_id] is that text of digits, and
    [build_summary] raises [ValueError] on it, [int] refusing to convert
    more than 4300 digits; the batch that holds the notification raises
    with it. *)
Lemma long_ticket_raises :
  match_rating_line long_ticket_body = Some long_ticket_data
  ∧ get long_ticket_data "ticket_id" = Some long_ticket
  ∧ all_decimal long_ticket
  ∧ length long_ticket = 4301
  ∧ Int.of_str long_ticket = None
  ∧ build_summary long_ticket_data = Raise ValueError
  ∧ parse_crewhu_data [long_ticket_email] = Raise ValueError.
Proof.
  split_and!.
  - vm_compute. reflexivity.
  - vm_compute. reflexivity.
  - by apply Forall_replicate.
  - apply length_replicate.
  - vm_compute. reflexivity.
  - vm_compute. reflexivity.
  - vm_compute. reflexivity.
Qed.

(** ** Further properties of the source *)

Lemma coalesce_blank values default :
  Forall blank values → coalesce values default = default.
Proof.
  induction 1 as [|o values Ho _ IH]; simpl; [done|].
  destruct o as [v|]; [|done]. simpl in Ho. by rewrite Ho.
Qed.

Lemma coalesce_app_blank pre values default :
  Forall blank pre → coalesce (pre ++ values) default = coalesce values default.
Proof.
  induction 1 as [|o pre Ho _ IH]; simpl; [done|].
  destruct o as [v|]; [|done]. simpl in Ho. by rewrite Ho.
Qed.

Lemma truthy_true (s : str) : Str.truthy s = true ↔ s ≠ [].
Proof. by destruct s. Qed.

(** X1: [coalesce] returns the stripped text of the first value that is
    neither [None] nor blank, whatever follows it, and the default when
    there is no such value.  What it returns is thus the default, or a
    non-empty text without white space at its ends that is one of the
    values, stripped. *)
Theorem coalesce_first_text (values : list (option str)) (default : str) :
  (Forall blank values → coalesce values default = default)
  ∧ (∀ pre v post,
       values = pre ++ Some v :: post → Forall blank pre → Str.strip v ≠ [] →
       coalesce values default = Str.strip v)
  ∧ (coalesce values default = default
     ∨ ∃ v, Some v ∈ values
            ∧ coalesce values default = Str.strip v
            ∧ Str.strip v ≠ []
            ∧ clean_ends Chr.isspace (coalesce values default)).
Proof.
  split_and!.
  - apply coalesce_blank.
  - intros pre v post -> Hpre Hv. rewrite coalesce_app_blank by done. simpl.
    apply truthy_true in Hv. by rewrite Hv.
  - induction values as [|o values IH]; simpl; [by left|].
    destruct o as [v|].
    + destruct (Str.truthy (Str.strip v)) eqn:Hv.
      * right. exists v. split_and!; [left|done|by apply truthy_true|].
        apply strip_with_clean.
      * destruct IH as [IH|(w & Hw & IH)]; [by left|].
        right. exists w. split; [by right|done].
    + destruct IH as [IH|(w & Hw & IH)]; [by left|].
      right. exists w. split; [by right|done].
Qed.

Lemma or_else_has_text a b t :
  or_else a b = Some t → t ≠ [] → has_text a ∨ (¬ has_text a ∧ b = Some t).
Proof.
  destruct a as [s|]; simpl.
  - destruct s as [|c s]; simpl.
    + intros -> _. right. split; [|done]. by intros (t' & [= <-] & ?).
    + intros [= <-] _. left. by exists (c :: s).
  - intros -> _. right. split; [|done]. by intros (t' & ? & _).
Qed.

Lemma or_else_no_text a b :
  ¬ has_text a → or_else a b = b.
Proof.
  destruct a as [[|c s]|]; simpl; try done.
  intros H. destruct H. by exists (c :: s).
Qed.

Lemma or_else_text a b t : a = Some t → t ≠ [] → or_else a b = Some t.
Proof. intros -> Ht. simpl. by destruct t. Qed.

Lemma or_else_nothing a b :
  or_else a b = None ∨ or_else a b = Some [] ↔ ¬ has_text a ∧ ¬ has_text b.
Proof.
  unfold has_text.
  destruct a as [[|c s]|], b as [[|d t]|]; simpl; split; naive_solver.
Qed.

(** X2: [build_summary] returns [None] exactly when neither [ticket_id]
    nor [ticket_number] holds a non-empty text.  [ticket_number] stands in
    for a missing or empty [ticket_id]: the entry then carries its number.
    An entry that is returned has an empty [customer_feedback] and the
    number that [int] reads in the text of the key that was used. *)
Theorem build_summary_ticket_keys (match_data : gmap string (option str)) :
  (build_summary match_data = Ret None ↔
     ¬ has_text (get match_data "ticket_id")
     ∧ ¬ has_text (get match_data "ticket_number"))
  ∧ (∀ t n,
       ¬ has_text (get match_data "ticket_id") →
       get match_data "ticket_number" = Some t → t ≠ [] →
       Int.of_str t = Some n →
       ∃ entry, build_summary match_data = Ret (Some entry)
                ∧ ticket_number entry = n)
  ∧ (∀ entry,
       build_summary match_data = Ret (Some entry) →
       customer_feedback entry = []
       ∧ ∃ t, t ≠ []
              ∧ or_else (get match_data "ticket_id") (get match_data "ticket_number")
                = Some t
              ∧ Int.of_str t = Some (ticket_number entry)).
Proof.
  unfold build_summary.
  set (a := get match_data "ticket_id"). set (b := get match_data "ticket_number").
  split_and!.
  - rewrite <- or_else_nothing.
    destruct (or_else a b) as [[|c t]|]; simpl; [naive_solver| |naive_solver].
    destruct (Int.of_str (c :: t)); naive_solver.
  - intros t n Ha Hb Ht Hn. rewrite (or_else_no_text a b Ha), Hb.
    destruct t as [|c t]; [done|]. simpl. rewrite Hn. eauto.
  - intros entry. destruct (or_else a b) as [t|] eqn:Ho; [|done].
    destruct t as [|c t]; [done|]. simpl.
    destruct (Int.of_str (c :: t)) as [n|] eqn:Hn; [|done].
    intros [= <-]. simpl. split; [done|]. by exists (c :: t).
Qed.

Lemma text_of_app s t : text_of (s ++ t) = text_of s ++ text_of t.
Proof. apply filter_app. Qed.

Lemma text_of_rev s : text_of (rev s) = rev (text_of s).
Proof.
  induction s as [|c s IH]; [done|]. simpl. rewrite text_of_app, IH.
  unfold text_of. rewrite !filter_cons, filter_nil.
  case_decide; simpl; [done|]. by rewrite app_nil_r.
Qed.

Lemma text_of_drop_while s : text_of (Str.drop_while Chr.isspace s) = text_of s.
Proof.
  induction s as [|c s IH]; [done|]. simpl.
  destruct (Chr.isspace c) eqn:Hc; [|done].
  rewrite IH. unfold text_of. rewrite (filter_cons _ c). case_decide; congruence.
Qed.

Lemma text_of_strip s : text_of (Str.strip s) = text_of s.
Proof.
  unfold Str.strip, Str.strip_with.
  by rewrite text_of_rev, text_of_drop_while, text_of_rev, rev_involutive,
    text_of_drop_while.
Qed.

Lemma text_of_collapse s : ∀ b, text_of (collapse b s) = text_of s.
Proof.
  induction s as [|c s IH]; intros b; [done|]. simpl.
  unfold text_of at 2. rewrite filter_cons. fold (text_of s).
  destruct (Chr.isspace c) eqn:Hc.
  - rewrite decide_False by congruence. destruct b; [apply IH|].
    unfold text_of. rewrite filter_cons. rewrite decide_False by done. apply IH.
  - rewrite decide_True by done.
    unfold text_of at 1. rewrite filter_cons, decide_True by done. f_equal. apply IH.
Qed.

Lemma text_of_nil s : text_of s = [] ↔ Forall (λ c, Chr.isspace c = true) s.
Proof.
  induction s as [|c s IH]; [done|]. unfold text_of. rewrite filter_cons.
  destruct (Chr.isspace c) eqn:Hc.
  - rewrite decide_False by congruence. fold (text_of s). rewrite IH. split.
    + by constructor.
    + by inversion 1.
  - rewrite decide_True by done. split; [done|]. inversion 1. congruence.
Qed.

Lemma drop_while_nil p s : Forall (λ c, p c = true) s → Str.drop_while p s = [].
Proof. induction 1 as [|c s Hc _ IH]; simpl; [done|]. by rewrite Hc. Qed.

Lemma drop_while_length p s : length (Str.drop_while p s) ≤ length s.
Proof.
  induction s as [|c s IH]; simpl; [done|]. destruct (p c); simpl; lia.
Qed.

Lemma strip_with_length p s : length (Str.strip_with p s) ≤ length s.
Proof.
  unfold Str.strip_with. rewrite length_rev.
  etrans; [apply drop_while_length|]. rewrite length_rev. apply drop_while_length.
Qed.

Lemma collapse_length s : ∀ b, length (collapse b s) ≤ length s.
Proof.
  induction s as [|c s IH]; intros b; simpl; [done|].
  pose proof (IH true). pose proof (IH false).
  destruct (Chr.isspace c); [destruct b|]; simpl; lia.
Qed.

(** X3: [normalize_text] touches white space only.  The characters that
    are not white space come out as they went in, in the same order; the
    result is empty exactly when the text holds nothing but white space;
    and the result is never longer than the text. *)
Theorem normalize_text_keeps_text (x : str) :
  text_of (normalize_text x) = text_of x
  ∧ (normalize_text x = [] ↔ Forall (λ c, Chr.isspace c = true) x)
  ∧ length (normalize_text x) ≤ length x.
Proof.
  rewrite normalize_text_collapse.
  assert (text_of (collapse false (Str.strip x)) = text_of x) as Htext
    by (by rewrite text_of_collapse, text_of_strip).
  split_and!; [done| |].
  - rewrite <- text_of_nil, <- Htext. split; [by intros ->|].
    intros Hnil. destruct (collapse false (Str.strip x)) as [|c u] eqn:Hu; [done|].
    exfalso.
    assert (clean_ends Chr.isspace (c :: u)) as [Hh _].
    { rewrite <- Hu. apply collapse_clean, strip_with_clean. }
    apply text_of_nil in Hnil. inversion Hnil as [|? ? Hc _]; subst.
    by rewrite (Hh c) in Hc.
  - etrans; [apply collapse_length|]. apply strip_with_length.
Qed.

Lemma collapse_true_head s d :
  head (collapse true s) = Some d → Chr.isspace d = false.
Proof.
  induction s as [|c s IH]; simpl; [done|].
  destruct (Chr.isspace c) eqn:Hc; [done|]. simpl. by intros [= <-].
Qed.

Lemma collapse_space_inside s : ∀ b pre c post,
  collapse b s = pre ++ c :: post → Chr.isspace c = true →
  c = " "%char ∧ ∀ d, head post = Some d → Chr.isspace d = false.
Proof.
  induction s as [|x s IH]; intros b pre c post Heq Hc; simpl in Heq.
  { by destruct pre. }
  destruct (Chr.isspace x) eqn:Hx.
  - destruct b; [by eapply IH|].
    destruct pre as [|p pre]; simpl in Heq; simplify_eq.
    + split; [done|]. intros d. apply collapse_true_head.
    + by eapply IH.
  - destruct pre as [|p pre]; simpl in Heq; simplify_eq; [congruence|].
    by eapply IH.
Qed.

(** X4: the white space that [normalize_text] leaves is made of single
    spaces between words: a white-space character of the result is the
    space character, and the characters just before and just after it
    exist and are not white space. *)
Theorem normalize_text_single_spaces (x pre post : str) (c : ascii) :
  normalize_text x = pre ++ c :: post → Chr.isspace c = true →
  c = " "%char
  ∧ (∃ a, last pre = Some a ∧ Chr.isspace a = false)
  ∧ (∃ b, head post = Some b ∧ Chr.isspace b = false).
Proof.
  rewrite normalize_text_collapse. intros Heq Hc.
  assert (clean_ends Chr.isspace (pre ++ c :: post)) as [Hh Hl].
  { rewrite <- Heq. apply collapse_clean, strip_with_clean. }
  destruct (collapse_space_inside _ _ _ _ _ Heq Hc) as [-> Hpost].
  split_and!; [done| |].
  - destruct (last pre) as [a|] eqn:Ha.
    + exists a. split; [done|].
      apply last_Some in Ha as [pre' ->].
      destruct (Chr.isspace a) eqn:Hsa; [|done].
      rewrite <- app_assoc in Heq. simpl in Heq.
      destruct (collapse_space_inside _ _ _ _ _ Heq Hsa) as [_ Hnext].
      by rewrite (Hnext " "%char) in Hc.
    + apply last_None in Ha as ->. by rewrite (Hh " "%char) in Hc.
  - destruct post as [|b post].
    + rewrite (Hl " "%char) in Hc; [done|]. apply last_snoc.
    + exists b. split; [done|]. by apply Hpost.
Qed.

Lemma normalize_text_single_spaces_witness :
  normalize_text (" a" ++ [Chr.LF] ++ "  b ") = ("a" : str) ++ " "%char :: "b"
  ∧ Chr.isspace " " = true
  ∧ " "%char = " "%char
  ∧ (∃ a, last ("a" : str) = Some a ∧ Chr.isspace a = false)
  ∧ (∃ b, head ("b" : str) = Some b ∧ Chr.isspace b = false).
Proof.
  assert (normalize_text (" a" ++ [Chr.LF] ++ "  b ") = ("a" : str) ++ " "%char :: "b")
    as H by (vm_compute; reflexivity).
  split; [exact H|]. split; [reflexivity|].
  exact (normalize_text_single_spaces _ _ _ _ H eq_refl).
Defined.

Lemma splitlines_single_line s : Forall single_line (Str.splitlines s).
Proof.
  remember (length s) as n eqn:Hn. revert s Hn.
  induction n as [n IH] using lt_wf_ind. intros s ->.
  destruct s as [|c s']; [constructor|].
  cbn [Str.splitlines]. destruct (Chr.islinebreak c) eqn:Hc.
  - destruct s' as [|d s'']; [by repeat constructor|].
    destruct (Ascii.eqb c Chr.CR && Ascii.eqb d Chr.LF);
      (constructor; [constructor|]); eapply IH; try reflexivity; simpl; lia.
  - assert (Forall single_line (Str.splitlines s')) as Hs'
      by (eapply IH; try reflexivity; simpl; lia).
    destruct (Str.splitlines s') as [|l ls]; [by repeat constructor|].
    inversion Hs'; subst. constructor; [by constructor|done].
Qed.

Lemma Forall_drop_while (P : ascii → Prop) p s :
  Forall P s → Forall P (Str.drop_while p s).
Proof.
  induction 1 as [|c s Hc Hs IH]; simpl; [constructor|].
  destruct (p c); [done|by constructor].
Qed.

Lemma Forall_strip_with (P : ascii → Prop) p s :
  Forall P s → Forall P (Str.strip_with p s).
Proof.
  intros H. unfold Str.strip_with.
  by apply Forall_rev, Forall_drop_while, Forall_rev, Forall_drop_while.
Qed.

(** The lines that [" ".join] receives in [extract_feedback]: stripped and
    not empty. *)
Lemma join_stripped_lines (lines : list str) :
  Forall single_line lines →
  let parts := Str.strip <$> List.filter (λ line, Str.truthy (Str.strip line)) lines in
  single_line (Str.join " " parts)
  ∧ clean_ends Chr.isspace (Str.join " " parts)
  ∧ (parts ≠ [] → Str.join " " parts ≠ []).
Proof.
  intros Hlines. simpl.
  induction Hlines as [|l ls Hl Hls IH]; simpl.
  { split_and!; [constructor|by split|done]. }
  destruct (Str.truthy (Str.strip l)) eqn:Ht; [|done].
  destruct IH as (IH1 & [IHh IHl] & IHne).
  set (rest := Str.strip <$> List.filter (λ line, Str.truthy (Str.strip line)) ls) in *.
  assert (single_line (Str.strip l)) as Hsl by by apply Forall_strip_with.
  destruct (strip_with_clean Chr.isspace l) as [Hh Hla]. fold (Str.strip l) in Hh, Hla.
  apply truthy_true in Ht.
  rewrite fmap_cons. fold rest. cbn [Str.join].
  destruct rest as [|q rest'] eqn:Hrest.
  { split_and!; [done|by split|done]. }
  specialize (IHne ltac:(done)).
  split_and!.
  - apply Forall_app. split; [done|]. apply Forall_app. split; [|done].
    by repeat constructor.
  - split; intros c.
    + destruct (Str.strip l); [done|]. apply Hh.
    + rewrite !last_app. intros Hc. apply IHl.
      destruct (last (Str.join [" "%char] (q :: rest'))) as [y|] eqn:Hy; [done|].
      by apply last_None in Hy.
  - intros _. by destruct (Str.strip l).
Qed.

Lemma feedback_text_shape (captured : str) :
  single_line (feedback_text captured)
  ∧ clean_ends Chr.isspace (feedback_text captured).
Proof.
  unfold feedback_text.
  edestruct join_stripped_lines as (H1 & H2 & _); [apply splitlines_single_line|].
  split; [apply H1|apply H2].
Qed.

(** X5: [extract_feedback] always returns a text that is not empty, holds
    no line boundary and neither starts nor ends with white space, whatever
    the body. *)
Theorem extract_feedback_one_clean_line (full_body : str) :
  ∃ feedback,
    extract_feedback full_body = Ret feedback
    ∧ feedback ≠ []
    ∧ single_line feedback
    ∧ clean_ends Chr.isspace feedback.
Proof.
  rewrite extract_feedback_scan.
  assert (NO_FEEDBACK ≠ [] ∧ single_line NO_FEEDBACK ∧ clean_ends Chr.isspace NO_FEEDBACK)
    as Hno.
  { split_and!; [done| |].
    - unfold single_line, NO_FEEDBACK. simpl. repeat constructor.
    - split; intros c; vm_compute; by intros [= <-]. }
  destruct (after_marker MARKER full_body) as [tail|]; [|eauto].
  destruct (Str.truthy (feedback_text tail)) eqn:Ht; [|eauto].
  eexists. split; [done|]. apply truthy_true in Ht.
  destruct (feedback_text_shape tail). done.
Qed.

Lemma mentions_infix w u a b : mentions w u → mentions w (a ++ u ++ b).
Proof.
  intros (pre & x & post & -> & Hx). exists (a ++ pre), x, (post ++ b).
  split; [by rewrite <- !app_assoc|done].
Qed.

Lemma lit_ok_lower f x c : Re.lit_ok f x c = true → Chr.lower x = Chr.lower c.
Proof.
  unfold Re.lit_ok. destruct (Re.IGNORECASE f); intros H%Ascii.eqb_eq; congruence.
Qed.

Lemma starts_with_ci_nil u : starts_with_ci [] u = true.
Proof. unfold starts_with_ci. by rewrite bool_decide_eq_true. Qed.

Lemma starts_with_ci_cons x w c u :
  Chr.lower x = Chr.lower c → starts_with_ci w u = true →
  starts_with_ci (x :: w) (c :: u) = true.
Proof.
  unfold starts_with_ci. rewrite !bool_decide_eq_true. simpl.
  by intros -> ->.
Qed.

Lemma starts_with_ci_app w u v :
  starts_with_ci w u = true → starts_with_ci w (u ++ v) = true.
Proof.
  unfold starts_with_ci. rewrite !bool_decide_eq_true. intros H.
  assert (length w ≤ length u) as Hlen.
  { apply (f_equal length) in H. rewrite !lower_length, length_take in H. lia. }
  by rewrite take_app_le.
Qed.

Lemma starts_with_ci_mentions w lp u :
  starts_with_ci w lp = true → starts_with_ci lp u = true → mentions w u.
Proof.
  unfold starts_with_ci. rewrite !bool_decide_eq_true. intros Hw Hlp.
  assert (length w ≤ length lp) as Hlen.
  { apply (f_equal length) in Hw. rewrite !lower_length, length_take in Hw. lia. }
  exists [], (take (length w) u), (drop (length w) u).
  split; [by rewrite take_drop|].
  rewrite <- Hw. unfold Str.lower in *.
  rewrite !fmap_take, <- Hlp, fmap_take, take_take. f_equal. lia.
Qed.

Lemma needs_prefix w r u :
  starts_with_ci w (lit_prefix r) = true → starts_with_ci (lit_prefix r) u = true →
  mentions w u.
Proof. apply starts_with_ci_mentions. Qed.

Lemma needs_unfold w r :
  needs w r =
  starts_with_ci w (lit_prefix r) ||
  match r with
  | Re.Seq r1 r2 => needs w r1 || needs w r2
  | Re.Alt r1 r2 => needs w r1 && needs w r2
  | Re.Group _ r1 => needs w r1
  | _ => false
  end.
Proof. by destruct r. Qed.

(** What the matcher read when it succeeded: a stretch [u] of the text
    that begins with the literal prefix of the pattern and holds every
    word that the pattern needs. *)
Lemma rmatch_reads f w r : ∀ st cont res,
  Re.rmatch f r st cont = Some res →
  ∃ st' u, cont st' = Some res
           ∧ Re.rest st = u ++ Re.rest st'
           ∧ starts_with_ci (lit_prefix r) u = true
           ∧ (needs w r = true → mentions w u).
Proof.
  induction r as [|x|k|lz mn k|r1 IH1|r1 IH1 r2 IH2|r1 IH1 r2 IH2|g r1 IH1| |];
    intros st cont res Hm; cbn [Re.rmatch] in Hm.
  - exists st, []. split_and!; [done|done|apply starts_with_ci_nil|].
    rewrite needs_unfold, orb_false_r. intros Hw.
    eapply needs_prefix; [done|apply starts_with_ci_nil].
  - destruct (Re.rest st) as [|c s'] eqn:Hs; [done|].
    destruct (Re.lit_ok f x c) eqn:Hok; [|done]. apply lit_ok_lower in Hok.
    assert (starts_with_ci (lit_prefix (Re.Lit x)) [c] = true) as Hp
      by (apply starts_with_ci_cons; [done|apply starts_with_ci_nil]).
    eexists _, [c]. split_and!; [exact Hm|done|done|].
    rewrite needs_unfold, orb_false_r. intros Hw. by eapply needs_prefix.
  - destruct (Re.rest st) as [|c s'] eqn:Hs; [done|].
    destruct (Re.class_ok f k c); [|done].
    eexists _, [c]. split_and!; [exact Hm|done|apply starts_with_ci_nil|].
    rewrite needs_unfold, orb_false_r. intros Hw.
    eapply needs_prefix; [done|apply starts_with_ci_nil].
  - assert (∃ n p', n ≤ length (Re.rest st)
                    ∧ cont (Re.MState p' (drop n (Re.rest st)) (Re.caps st)) = Some res)
      as (n & p' & Hn & Hc).
    { destruct lz; [apply rep_lazy_sound in Hm|apply rep_greedy_sound in Hm];
        destruct Hm as (n & p' & _ & ? & _ & ?); eauto. }
    eexists _, (take n (Re.rest st)).
    split_and!; [exact Hc|simpl; by rewrite take_drop|apply starts_with_ci_nil|].
    rewrite needs_unfold, orb_false_r. intros Hw.
    eapply needs_prefix; [done|apply starts_with_ci_nil].
  - assert (∃ st' u, cont st' = Some res ∧ Re.rest st = u ++ Re.rest st')
      as (st' & u & Hc & Hu).
    { destruct (Re.rmatch f r1 st cont) as [res'|] eqn:H1.
      - destruct (IH1 _ _ _ H1) as (st' & u & ? & ? & _). simplify_eq. eauto.
      - by exists st, []. }
    exists st', u. split_and!; [done|done|apply starts_with_ci_nil|].
    rewrite needs_unfold, orb_false_r. intros Hw.
    eapply needs_prefix; [done|apply starts_with_ci_nil].
  - assert (∃ st' u1 u2,
              cont st' = Some res ∧ Re.rest st = (u1 ++ u2) ++ Re.rest st'
              ∧ starts_with_ci (lit_prefix (Re.Seq r1 r2)) (u1 ++ u2) = true
              ∧ (needs w r1 = true → mentions w u1)
              ∧ (needs w r2 = true → mentions w u2))
      as (st' & u1 & u2 & Hc & Hu & Hp & Hn1 & Hn2).
    { destruct (IH1 _ _ _ Hm) as (st1 & u1 & Hm2 & Hu1 & Hp1 & Hn1).
      destruct (IH2 _ _ _ Hm2) as (st' & u2 & Hc & Hu2 & Hp2 & Hn2).
      destruct r1 as [|x| | | | | | | |];
        try (exists st', u1, u2;
             split_and!; [done|by rewrite <- app_assoc, <- Hu2|apply starts_with_ci_nil
                          |done|done]).
      clear st1 u1 Hm2 Hu1 Hp1 Hn1 st' u2 Hc Hu2 Hp2 Hn2.
      cbn [Re.rmatch] in Hm.
      destruct (Re.rest st) as [|c s'] eqn:Hs; [done|].
      destruct (Re.lit_ok f x c) eqn:Hok; [|done]. apply lit_ok_lower in Hok.
      destruct (IH2 _ _ _ Hm) as (st' & u2 & Hc & Hu2 & Hp2 & Hn2).
      simpl in Hu2.
      exists st', [c], u2. split_and!; [done|by rewrite Hu2| |  |done].
      - by apply starts_with_ci_cons.
      - rewrite needs_unfold, orb_false_r. intros Hw.
        eapply needs_prefix; [done|].
        apply starts_with_ci_cons; [done|apply starts_with_ci_nil]. }
    exists st', (u1 ++ u2). split_and!; [done|done|done|].
    rewrite needs_unfold, !orb_true_iff. intros [Hw|[Hw|Hw]].
    + by eapply needs_prefix.
    + by apply (mentions_infix w u1 [] u2), Hn1.
    + rewrite <- (app_nil_r u2). by apply (mentions_infix w u2 u1 []), Hn2.
  - assert (∃ st' u, cont st' = Some res ∧ Re.rest st = u ++ Re.rest st'
                     ∧ (needs w r1 && needs w r2 = true → mentions w u))
      as (st' & u & Hc & Hu & Hn).
    { destruct (Re.rmatch f r1 st cont) as [res'|] eqn:H1.
      - destruct (IH1 _ _ _ H1) as (st' & u & ? & ? & _ & Hn). simplify_eq.
        exists st', u. split_and!; [done|done|]. intros [? _]%andb_true_iff. auto.
      - destruct (IH2 _ _ _ Hm) as (st' & u & ? & ? & _ & Hn).
        exists st', u. split_and!; [done|done|]. intros [_ ?]%andb_true_iff. auto. }
    exists st', u. split_and!; [done|done|apply starts_with_ci_nil|].
    rewrite needs_unfold, orb_true_iff. intros [Hw|Hw]; [|auto].
    eapply needs_prefix; [done|apply starts_with_ci_nil].
  - destruct (IH1 _ _ _ Hm) as (st1 & u & Hc & Hu & _ & Hn).
    eexists _, u. split_and!; [exact Hc|done|apply starts_with_ci_nil|].
    rewrite needs_unfold, orb_true_iff. intros [Hw|Hw]; [|auto].
    eapply needs_prefix; [done|apply starts_with_ci_nil].
  - destruct (Re.at_end (Re.rest st)); [|done].
    exists st, []. split_and!; [done|done|apply starts_with_ci_nil|].
    rewrite needs_unfold, orb_false_r. intros Hw.
    eapply needs_prefix; [done|apply starts_with_ci_nil].
  - destruct (Re.at_boundary st); [|done].
    exists st, []. split_and!; [done|done|apply starts_with_ci_nil|].
    rewrite needs_unfold, orb_false_r. intros Hw.
    eapply needs_prefix; [done|apply starts_with_ci_nil].
Qed.

Lemma search_from_reads f w r : ∀ s b p m,
  Re.search_from f r b p s = Some m → needs w r = true → mentions w s.
Proof.
  induction s as [|c s IH]; intros b p m Hs Hw; cbn [Re.search_from] in Hs.
  - unfold Re.match_here in Hs.
    destruct (Re.rmatch f r (Re.MState p [] ∅) Some) as [st|] eqn:Hm; [|done].
    destruct (rmatch_reads f w _ _ _ _ Hm) as (st' & u & _ & Hu & _ & Hn).
    simpl in Hu. rewrite Hu. by apply (mentions_infix w u []), Hn.
  - unfold Re.match_here in Hs.
    destruct (Re.rmatch f r (Re.MState p (c :: s) ∅) Some) as [st|] eqn:Hm.
    + destruct (rmatch_reads f w _ _ _ _ Hm) as (st' & u & _ & Hu & _ & Hn).
      simpl in Hu. rewrite Hu. by apply (mentions_infix w u []), Hn.
    + apply IH in Hs; [|done].
      rewrite <- (app_nil_r s). by apply (mentions_infix w s [c] []).
Qed.

Lemma p_search_reads w pat line m :
  Re.p_search pat line = Some m → needs w (Re.p_regex pat) = true → mentions w line.
Proof. apply search_from_reads. Qed.

Lemma strip_with_infix p s : ∃ a b, s = a ++ Str.strip_with p s ++ b.
Proof.
  unfold Str.strip_with.
  exists (take_while p s), (rev (take_while p (rev (Str.drop_while p s)))).
  rewrite <- rev_app_distr, take_drop_while, rev_involutive.
  by rewrite take_drop_while.
Qed.

Lemma splitlines_head s l ls : Str.splitlines s = l :: ls → ∃ b, s = l ++ b.
Proof.
  revert l ls. induction s as [|c s' IH]; intros l ls; [done|].
  cbn [Str.splitlines]. destruct (Chr.islinebreak c).
  - destruct s' as [|d s'']; [|destruct (Ascii.eqb c Chr.CR && Ascii.eqb d Chr.LF)];
      intros [= <- _]; by eexists.
  - destruct (Str.splitlines s') as [|l' ls'].
    + intros [= <- _]. by exists s'.
    + intros [= <- _]. destruct (IH _ _ eq_refl) as [b ->]. by exists b.
Qed.

Lemma splitlines_infix s : ∀ line, line ∈ Str.splitlines s → ∃ a b, s = a ++ line ++ b.
Proof.
  remember (length s) as n eqn:Hn. revert s Hn.
  induction n as [n IH] using lt_wf_ind. intros s -> line.
  destruct s as [|c s']; [by intros ?%elem_of_nil|].
  pose proof (splitlines_head s') as Hhead.
  cbn [Str.splitlines]. destruct (Chr.islinebreak c) eqn:Hc.
  - destruct s' as [|d s''].
    { intros ->%list_elem_of_singleton. by exists [], [c]. }
    destruct (Ascii.eqb c Chr.CR && Ascii.eqb d Chr.LF).
    + intros [->|Hin]%elem_of_cons; [by exists [], (c :: d :: s'')|].
      destruct (IH (length s'') ltac:(simpl; lia) s'' eq_refl _ Hin) as (a & b & ->).
      by exists (c :: d :: a), b.
    + intros [->|Hin]%elem_of_cons; [by exists [], (c :: d :: s'')|].
      destruct (IH (length (d :: s'')) ltac:(simpl; lia) (d :: s'') eq_refl _ Hin)
        as (a & b & Heq).
      exists (c :: a), b. by rewrite Heq.
  - pose proof (IH (length s') ltac:(simpl; lia) s' eq_refl) as IHs.
    destruct (Str.splitlines s') as [|l ls].
    { intros ->%list_elem_of_singleton. by exists [], s'. }
    intros [->|Hin]%elem_of_cons.
    + destruct (Hhead _ _ eq_refl) as [b ->]. by exists [], b.
    + destruct (IHs line ltac:(by right)) as (a & b & ->). by exists (c :: a), b.
Qed.

Lemma rating_patterns_need pat :
  pat ∈ RATING_PATTERNS →
  needs " gave a " (Re.p_regex pat) = true
  ∧ needs " rating " (Re.p_regex pat) = true
  ∧ needs "ticket# " (Re.p_regex pat) = true.
Proof.
  revert pat. apply Forall_forall. unfold RATING_PATTERNS.
  repeat constructor; vm_compute; reflexivity.
Qed.

Lemma match_line_reads line d :
  match_line RATING_PATTERNS line = Some d →
  mentions " gave a " line ∧ mentions " rating " line ∧ mentions "ticket# " line.
Proof.
  intros (pat & m & Hpat & Hm & _)%match_line_inv.
  destruct (rating_patterns_need pat Hpat) as (H1 & H2 & H3).
  split_and!; by eapply p_search_reads.
Qed.

Lemma strip_mentions w line : mentions w (Str.strip line) → mentions w line.
Proof.
  intros H. destruct (strip_with_infix Chr.isspace line) as (a & b & Heq).
  rewrite Heq. by apply mentions_infix.
Qed.

(** X7: when [match_rating_line] finds a match, one line of the body holds,
    up to letter case, the three fixed wordings that all six templates
    share: " gave a ", " rating " and "ticket# ", each with its spaces. *)
Theorem matched_line_wording (full_body : str) (d : gmap string (option str)) :
  match_rating_line full_body = Some d →
  ∃ line, line ∈ Str.splitlines full_body
          ∧ mentions " gave a " line ∧ mentions " rating " line
          ∧ mentions "ticket# " line.
Proof.
  unfold match_rating_line, cleaned_lines.
  intros (l & Hl & Hd)%match_lines_inv.
  apply list_elem_of_fmap in Hl as (line & -> & Hline).
  apply list_elem_of_In, List.filter_In in Hline as [Hline _].
  apply list_elem_of_In in Hline.
  exists line. split; [done|].
  apply match_line_reads in Hd as (H1 & H2 & H3).
  split_and!; by apply strip_mentions.
Qed.

Lemma matched_line_wording_witness :
  match_rating_line rating_body = Some rating_data
  ∧ ∃ line, line ∈ Str.splitlines rating_body
            ∧ mentions " gave a " line ∧ mentions " rating " line
            ∧ mentions "ticket# " line.
Proof.
  assert (match_rating_line rating_body = Some rating_data) as H
    by (vm_compute; reflexivity).
  split; [exact H|]. exact (matched_line_wording _ _ H).
Defined.

Lemma normalize_text_normalized x : normalize_text (normalize_text x) = normalize_text x.
Proof.
  rewrite !normalize_text_collapse.
  unfold Str.strip at 1. rewrite strip_with_id by apply collapse_clean, strip_with_clean.
  by apply collapse_stable.
Qed.

Lemma text_of_elem c s : Chr.isspace c = false → c ∈ text_of s ↔ c ∈ s.
Proof. intros Hc. unfold text_of. rewrite list_elem_of_filter. naive_solver. Qed.

Lemma normalize_text_elem c x :
  Chr.isspace c = false → c ∈ normalize_text x ↔ c ∈ x.
Proof.
  intros Hc. rewrite <- (text_of_elem c (normalize_text x)), <- (text_of_elem c x) by done.
  by rewrite normalize_text_collapse, text_of_collapse, text_of_strip.
Qed.

(** The groups of a rating template: no name twice, the shared ones
    always there, and each one a repetition that every path captures. *)
Lemma rating_patterns_groups pat :
  pat ∈ RATING_PATTERNS →
  NoDup (Re.group_names (Re.p_regex pat))
  ∧ Forall (λ g, g ∈ Re.group_names (Re.p_regex pat)) shared_fields
  ∧ Forall (λ g, g ∈ group_fields
                 ∧ sets_group g (Re.p_regex pat) = true
                 ∧ Exists (λ km, group_shape g km.1 km.2 (Re.p_regex pat) = true)
                          field_shapes)
           (Re.group_names (Re.p_regex pat))
  ∧ group_shape "ticket_desc" (Re.CNot ")") 0 (Re.p_regex pat) = true.
Proof.
  revert pat. apply Forall_forall.
  repeat (apply Forall_cons; split;
          [split_and!; [by apply (bool_decide_unpack _)
                       | by apply (bool_decide_unpack _)
                       | by apply (bool_decide_unpack _)
                       | reflexivity] |]).
  apply Forall_nil_2.
Qed.

Lemma groupdict_keys r m k o :
  Re.groupdict r m !! k = Some o → k ∈ Re.group_names r.
Proof.
  unfold Re.groupdict. intros H.
  destruct (decide (k ∈ Re.group_names r)) as [|Hk]; [done|].
  rewrite not_elem_of_list_to_map_1 in H; [done|].
  by rewrite <- list_fmap_compose, list_fmap_id.
Qed.

Lemma match_rating_line_inv full_body d :
  match_rating_line full_body = Some d →
  ∃ pat line m, pat ∈ RATING_PATTERNS ∧ line ∈ cleaned_lines full_body
                ∧ Re.p_search pat line = Some m
                ∧ d = normalize_values (Re.groupdict (Re.p_regex pat) m).
Proof.
  intros (line & Hline & H)%match_lines_inv.
  apply match_line_inv in H as (pat & m & ? & ? & ?). by exists pat, line, m.
Qed.

Lemma matched_values full_body d k v :
  match_rating_line full_body = Some d → get d k = Some v →
  ∃ raw, v = normalize_text raw.
Proof.
  intros (pat & line & m & _ & _ & _ & ->)%match_rating_line_inv.
  unfold get, normalize_values. rewrite lookup_fmap.
  destruct (Re.groupdict (Re.p_regex pat) m !! k) as [[raw|]|]; simpl; [|done..].
  intros [= <-]. by exists raw.
Qed.

Lemma matched_desc full_body d v :
  match_rating_line full_body = Some d → get d "ticket_desc" = Some v →
  ")"%char ∉ v.
Proof.
  intros (pat & line & m & Hpat & _ & Hm & ->)%match_rating_line_inv Hv.
  destruct (rating_patterns_groups pat Hpat) as (Hnd & Hshared & _ & Hdesc).
  assert ("ticket_desc" ∈ Re.group_names (Re.p_regex pat)) as Hk.
  { apply (proj1 (Forall_forall _ _) Hshared). by apply (bool_decide_unpack _). }
  destruct (search_caps "ticket_desc" (Re.CNot ")") 0 pat _ _ Hdesc Hm) as [Hgood _].
  unfold get, normalize_values in Hv.
  rewrite lookup_fmap, groupdict_lookup in Hv by done.
  destruct (Re.m_groups m !! "ticket_desc") as [raw|] eqn:Hraw; [|done].
  injection Hv as <-. rewrite normalize_text_elem by done.
  destruct (Hgood _ Hraw) as [_ Hcls].
  intros Hin. apply (proj1 (Forall_forall _ _) Hcls) in Hin.
  unfold Re.class_ok, Re.lit_ok in Hin.
  by destruct (Re.IGNORECASE (Re.p_flags pat)).
Qed.

(** X8: the dictionary that [match_rating_line] returns.  The groups that
    all six templates share (company, rating, employee, ticket_id and
    ticket_desc) are always there with a text; no key is bound to [None];
    the keys are among the seven group names; every text is normalized;
    and the description holds no closing bracket. *)
Theorem matched_fields (full_body : str) (d : gmap string (option str)) :
  match_rating_line full_body = Some d →
  (∀ k, k ∈ shared_fields → ∃ v, get d k = Some v)
  ∧ (∀ k o, d !! k = Some o →
       k ∈ group_fields ∧ ∃ v, o = Some v ∧ normalize_text v = v)
  ∧ (∀ v, get d "ticket_desc" = Some v → ")"%char ∉ v).
Proof.
  intros Hfound.
  pose proof (λ v, matched_desc _ _ v Hfound) as Hdesc.
  destruct (match_rating_line_inv _ _ Hfound) as (pat & line & m & Hpat & _ & Hm & ->).
  destruct (rating_patterns_groups pat Hpat) as (Hnd & Hshared & Hall & _).
  assert (∀ k, k ∈ Re.group_names (Re.p_regex pat) →
               k ∈ group_fields ∧ ∃ v, Re.m_groups m !! k = Some v) as Hcap.
  { intros k Hk. apply (proj1 (Forall_forall _ _) Hall) in Hk as (Hf & Hset & Hex).
    split; [done|]. apply Exists_exists in Hex as ([cl mn] & _ & Hshape).
    destruct (search_caps k cl mn pat _ _ Hshape Hm) as [_ Hsome].
    apply Hsome, Hset. }
  split_and!; [| |done].
  - intros k Hk. apply (proj1 (Forall_forall _ _) Hshared) in Hk.
    destruct (Hcap k Hk) as [_ [v Hv]]. exists (normalize_text v).
    by apply get_normalized.
  - intros k o Hko. unfold normalize_values in Hko. rewrite lookup_fmap in Hko.
    destruct (Re.groupdict (Re.p_regex pat) m !! k) as [o'|] eqn:Ho'; [|done].
    pose proof (groupdict_keys _ _ _ _ Ho') as Hk.
    rewrite groupdict_lookup in Ho' by done.
    destruct (Hcap k Hk) as [Hf [v Hv]]. split; [done|].
    exists (normalize_text v). simplify_eq/=. rewrite Hv. simpl.
    split; [done|apply normalize_text_normalized].
Qed.

Lemma matched_fields_witness :
  match_rating_line rating_body = Some rating_data
  ∧ (∀ k, k ∈ shared_fields → ∃ v, get rating_data k = Some v)
  ∧ (∀ k o, rating_data !! k = Some o →
       k ∈ group_fields ∧ ∃ v, o = Some v ∧ normalize_text v = v)
  ∧ (∀ v, get rating_data "ticket_desc" = Some v → ")"%char ∉ v).
Proof.
  assert (match_rating_line rating_body = Some rating_data) as H
    by (vm_compute; reflexivity).
  split; [exact H|]. exact (matched_fields _ _ H).
Defined.

Lemma linebreak_space c : Chr.islinebreak c = true → Chr.isspace c = true.
Proof. by destruct c as [[] [] [] [] [] [] [] []]. Qed.

Lemma normalize_text_single_line x : single_line (normalize_text x).
Proof.
  apply Forall_forall. intros c Hc.
  destruct (Chr.islinebreak c) eqn:Hlb; [|done].
  apply list_elem_of_split in Hc as (pre & post & Heq).
  rewrite normalize_text_collapse in Heq.
  destruct (collapse_space_inside _ _ _ _ _ Heq (linebreak_space _ Hlb)) as [-> _].
  done.
Qed.

Lemma to_str_digits n :
  Forall (λ c, Chr.isdecimal c = true ∨ c = "-"%char) (Int.to_str n).
Proof.
  assert (∀ u, Forall (λ c, Chr.isdecimal c = true ∨ c = "-"%char)
                 (list_ascii_of_string (NilEmpty.string_of_uint u))) as Hne.
  { induction u; simpl; constructor; auto. }
  assert (∀ u, Forall (λ c, Chr.isdecimal c = true ∨ c = "-"%char)
                 (list_ascii_of_string (NilZero.string_of_uint u))) as Hnz.
  { intros u. destruct u; try apply Hne. simpl. constructor; auto. }
  unfold Int.to_str. destruct (Z.to_int n); simpl; [apply Hnz|].
  constructor; [by right|apply Hnz].
Qed.

Lemma to_str_single_line n : single_line (Int.to_str n).
Proof.
  eapply Forall_impl; [apply to_str_digits|].
  intros c [Hc| ->]; [|done]. by destruct c as [[] [] [] [] [] [] [] []].
Qed.

(** A field of the sentence: the stripped text of the match, or the
    default. *)
Lemma matched_piece full_body d k default :
  match_rating_line full_body = Some d → trimmed_line default →
  trimmed_line (coalesce [get d k] default)
  ∧ (default ≠ [] → coalesce [get d k] default ≠ []).
Proof.
  intros Hd Hdef. cbn [coalesce].
  destruct (get d k) as [v|] eqn:Hv; [|done].
  destruct (Str.truthy (Str.strip v)) eqn:Ht; [|done].
  destruct (matched_values _ _ _ _ Hd Hv) as [raw ->].
  split; [|intros _; by apply truthy_true].
  split; [|apply strip_with_clean].
  apply Forall_strip_with, normalize_text_single_line.
Qed.

Lemma build_summary_sentence d x0 :
  build_summary d = Ret (Some x0) →
  summary x0 =
    sentence (coalesce [get d "customer"] "A customer")
             (coalesce [get d "company"] "Unknown company")
             (coalesce [get d "rating"] "Positive")
             (coalesce [get d "employee"] "Unknown technician")
             (coalesce [get d "categories"] "(categories not provided)")
             (ticket_number x0)
             (coalesce [get d "ticket_desc"] "").
Proof.
  unfold build_summary.
  destruct (or_else _ _) as [t|]; [|done].
  destruct (negb (Str.truthy t)); [done|].
  destruct (Int.of_str t) as [n|]; [|done].
  by intros [= <-].
Qed.

Lemma extract_feedback_trimmed full_body fb :
  extract_feedback full_body = Ret fb → fb ≠ [] ∧ trimmed_line fb.
Proof.
  rewrite extract_feedback_scan. intros [= <-].
  assert (NO_FEEDBACK ≠ [] ∧ trimmed_line NO_FEEDBACK) as Hno.
  { split; [done|]. split.
    - unfold single_line, NO_FEEDBACK. simpl. repeat constructor.
    - split; intros c; vm_compute; by intros [= <-]. }
  destruct (after_marker MARKER full_body) as [tail|]; [|done].
  destruct (Str.truthy (feedback_text tail)) eqn:Ht; [|done].
  split; [by apply truthy_true|apply feedback_text_shape].
Qed.

Lemma written_entry emails out ms x :
  parse_crewhu_data emails = Ret (out, ms) → x ∈ out →
  ∃ e, e ∈ emails ∧ entry_of e = Some x.
Proof.
  intros Hrun Hx.
  destruct (parse_result_of _ _ _ Hrun) as (_ & _ & _ & _ & Hlast).
  apply Hlast, last_with_ticket in Hx as [_ Hx].
  unfold entries_of in Hx. apply list_elem_of_omap in Hx as (e & ? & ?). eauto.
Qed.

(** X9: every entry that [parse_crewhu_data] writes, when the run
    returns, is well formed.  Its ticket number is not negative; its
    feedback is a non-empty text on one line without white space at its
    ends; and its summary is the sentence of [build_summary] on one line,
    made of that ticket number and of fields that are each on one line
    without white space at the ends, not empty (the description apart,
    which holds no closing bracket). *)
Theorem written_entries_well_formed (emails : list email)
    (out : list SurveyEntry) (ms : list Z) :
  parse_crewhu_data emails = Ret (out, ms) →
  ∀ x, x ∈ out →
    (0 ≤ ticket_number x)%Z
    ∧ customer_feedback x ≠ [] ∧ trimmed_line (customer_feedback x)
    ∧ single_line (summary x)
    ∧ ∃ customer company rating employee categories ticket_desc,
        summary x = sentence customer company rating employee categories
                      (ticket_number x) ticket_desc
        ∧ Forall (λ s, s ≠ [] ∧ trimmed_line s)
            [customer; company; rating; employee; categories]
        ∧ trimmed_line ticket_desc ∧ ")"%char ∉ ticket_desc.
Proof.
  intros Hrun x Hx.
  destruct (written_entry _ _ _ _ Hrun Hx) as (e & _ & He).
  apply entry_of_spec in He as (_ & d & x0 & fb & Hd & Hx0 & Hfb & ->).
  cbn [ticket_number summary customer_feedback].
  assert (∀ k (default : string),
            default ≠ ""%string → trimmed_line default →
            coalesce [get d k] default ≠ [] ∧ trimmed_line (coalesce [get d k] default))
    as Hpiece.
  { intros k default Hne Hdef. destruct (matched_piece _ _ k default Hd Hdef) as [? Hn].
    split; [|done]. apply Hn. by destruct default. }
  assert (trimmed_line (coalesce [get d "ticket_desc"] "")) as Hdesc.
  { apply (matched_piece _ _ _ ""%string Hd). split; [constructor|by split]. }
  assert (Forall (λ s, s ≠ [] ∧ trimmed_line s)
            [coalesce [get d "customer"] "A customer";
             coalesce [get d "company"] "Unknown company";
             coalesce [get d "rating"] "Positive";
             coalesce [get d "employee"] "Unknown technician";
             coalesce [get d "categories"] "(categories not provided)"]) as Hfields.
  { repeat constructor;
      (apply Hpiece; [done|]); simpl;
      (split; [repeat constructor|split; intros c; vm_compute; by intros [= <-]]). }
  destruct (extract_feedback_trimmed _ _ Hfb) as [Hfb1 Hfb2].
  split_and!; [|done|done| |].
  - destruct (matched_ticket _ _ Hd) as (ds & Hds & Hne & Hdec).
    destruct (Nat.le_gt_cases (length ds) Int.max_str_digits) as [Hlen|Hlen].
    + destruct (of_str_digits ds Hne Hdec Hlen) as (n & Hn & Hpos).
      destruct (build_summary_ticket d ds n Hds Hne Hn) as (x1 & Hx1 & <- & _).
      congruence.
    + rewrite (build_summary_long d ds) in Hx0; [done..|]. by apply of_str_long.
  - rewrite (build_summary_sentence _ _ Hx0). unfold sentence, single_line.
    rewrite !Forall_cons in Hfields.
    destruct Hfields as ([_ [? _]] & [_ [? _]] & [_ [? _]] & [_ [? _]] & [_ [? _]] & _).
    destruct Hdesc as [? _].
    rewrite !Forall_app. split_and!;
      first [done | apply to_str_single_line | by repeat constructor].
  - eexists _, _, _, _, _, _. split; [apply (build_summary_sentence _ _ Hx0)|].
    split_and!; [done|done|].
    cbn [coalesce].
    destruct (get d "ticket_desc") as [v|] eqn:Hv; [|by intros ?%elem_of_nil].
    destruct (Str.truthy (Str.strip v)); [|by intros ?%elem_of_nil].
    pose proof (matched_desc _ _ _ Hd Hv) as Hno.
    intros Hin. apply Hno.
    destruct (strip_with_infix Chr.isspace v) as (a & b & Heq).
    rewrite Heq, !elem_of_app. auto.
Qed.

Lemma readable_bool e :
  match ticket_text e with
  | Some ds => length ds <=? Int.max_str_digits
  | None => true
  end = true →
  readable e.
Proof.
  unfold readable. destruct (ticket_text e); [|done]. apply Nat.leb_le.
Qed.

Lemma sample_batch_result :
  parse_crewhu_data sample_batch = Ret (sample_entries, [99%Z]).
Proof. vm_compute. reflexivity. Qed.

Lemma written_entries_well_formed_witness :
  parse_crewhu_data sample_batch = Ret (sample_entries, [99%Z])
  ∧ ∀ x, x ∈ sample_entries →
      (0 ≤ ticket_number x)%Z
      ∧ customer_feedback x ≠ [] ∧ trimmed_line (customer_feedback x)
      ∧ single_line (summary x)
      ∧ ∃ customer company rating employee categories ticket_desc,
          summary x = sentence customer company rating employee categories
                        (ticket_number x) ticket_desc
          ∧ Forall (λ s, s ≠ [] ∧ trimmed_line s)
              [customer; company; rating; employee; categories]
          ∧ trimmed_line ticket_desc ∧ ")"%char ∉ ticket_desc.
Proof.
  split; [exact sample_batch_result|].
  exact (written_entries_well_formed _ _ _ sample_batch_result).
Defined.

(** ** Batches *)

Lemma parse_written emails out ms :
  parse_crewhu_data emails = Ret (out, ms) →
  out = sorted_entries (Store (written emails) []).
Proof.
  intros Hrun.
  assert (Forall readable emails) as Hall by (apply parse_returns; eauto).
  unfold parse_crewhu_data in Hrun.
  destruct (process_all_surveys emails Hall (Store ∅ [])) as [ms' Hp].
  rewrite Hp in Hrun. simpl in Hrun. by injection Hrun as <- _.
Qed.

Lemma parse_written_readable emails :
  Forall readable emails →
  ∃ ms, parse_crewhu_data emails
        = Ret (sorted_entries (Store (written emails) []), ms).
Proof.
  intros Hall. unfold parse_crewhu_data.
  destruct (process_all_surveys emails Hall (Store ∅ [])) as [ms ->]. by exists ms.
Qed.

Lemma entries_of_cons e emails :
  entries_of (e :: emails) =
  match entry_of e with
  | Some x => x :: entries_of emails
  | None => entries_of emails
  end.
Proof. done. Qed.

Lemma entries_of_app l1 l2 : entries_of (l1 ++ l2) = entries_of l1 ++ entries_of l2.
Proof. apply omap_app. Qed.

Lemma written_key emails t x : written emails !! t = Some x → ticket_number x = t.
Proof.
  unfold written. rewrite upsert_lookup, lookup_empty.
  destruct (last _) as [y|] eqn:Hy; [|done].
  intros [= ->]. by apply last_with_ticket in Hy as [? _].
Qed.

Lemma written_app l1 l2 t :
  written (l1 ++ l2) !! t =
  match written l2 !! t with
  | Some y => Some y
  | None => written l1 !! t
  end.
Proof.
  unfold written. rewrite entries_of_app, foldl_app, !upsert_lookup.
  rewrite !lookup_empty. by destruct (last _).
Qed.

Lemma written_elem emails x :
  x ∈ sorted_entries (Store (written emails) []) ↔
  written emails !! ticket_number x = Some x.
Proof.
  rewrite sorted_entries_elem. simpl. split; [|eauto].
  intros [t Ht]. by rewrite (written_key _ _ _ Ht).
Qed.

Lemma written_ticket emails t :
  t ∈ ticket_number <$> sorted_entries (Store (written emails) []) ↔
  is_Some (written emails !! t).
Proof.
  rewrite list_elem_of_fmap. split.
  - intros (x & -> & Hx). apply written_elem in Hx. eauto.
  - intros [x Hx]. exists x. pose proof (written_key _ _ _ Hx) as <-.
    split; [done|]. by apply written_elem.
Qed.

(** X10: a notification that yields no entry (its subject does not speak
    of a rating, or no template matches its body) and that does not abort
    the run ([int] reads its ticket mention, if it has one) does not show
    in the entries written, wherever it stands in the batch: the batch
    with it and the batch without it return the same entries, or neither
    returns. *)
Theorem entry_free_notification_ignored (e : email) :
  entry_of e = None → readable e →
  ∀ before after out,
    (∃ ms, parse_crewhu_data (before ++ e :: after) = Ret (out, ms))
    ↔ (∃ ms, parse_crewhu_data (before ++ after) = Ret (out, ms)).
Proof.
  intros He Hr before after out.
  assert (written (before ++ e :: after) = written (before ++ after)) as Hw.
  { unfold written. rewrite !entries_of_app, entries_of_cons. by rewrite He. }
  assert (Forall readable (before ++ e :: after) ↔ Forall readable (before ++ after))
    as Hall.
  { rewrite !Forall_app, Forall_cons. naive_solver. }
  split; intros [ms Hrun].
  - pose proof (parse_written _ _ _ Hrun) as ->.
    assert (Forall readable (before ++ after)) as Hall'
      by (apply Hall, parse_returns; eauto).
    destruct (parse_written_readable _ Hall') as [ms' ->]. rewrite Hw. eauto.
  - pose proof (parse_written _ _ _ Hrun) as ->.
    assert (Forall readable (before ++ e :: after)) as Hall'
      by (apply Hall, parse_returns; eauto).
    destruct (parse_written_readable _ Hall') as [ms' ->]. rewrite Hw. eauto.
Qed.

Lemma entry_free_notification_ignored_witness :
  entry_of unmatched_email = None
  ∧ readable unmatched_email
  ∧ ((∃ ms, parse_crewhu_data ([rating_email] ++ unmatched_email :: [second_rating_email])
            = Ret (sample_entries, ms))
     ↔ (∃ ms, parse_crewhu_data ([rating_email] ++ [second_rating_email])
              = Ret (sample_entries, ms))).
Proof.
  assert (entry_of unmatched_email = None) as H by (vm_compute; reflexivity).
  assert (readable unmatched_email) as Hr
    by (apply readable_bool; vm_compute; reflexivity).
  split; [exact H|]. split; [exact Hr|].
  exact (entry_free_notification_ignored unmatched_email H Hr
           [rating_email] [second_rating_email] sample_entries).
Defined.

(** X11: batches compose.  When two batches are each processed to the
    end, so is the one followed by the other, and the entries written
    for it are those written for the second batch, and those written for
    the first batch whose ticket number the second batch does not write;
    so processing the same batch twice in a row writes what processing it
    once does. *)
Theorem batches_compose (first second : list email)
    (out1 out2 : list SurveyEntry) (ms1 ms2 : list Z) :
  parse_crewhu_data first = Ret (out1, ms1) →
  parse_crewhu_data second = Ret (out2, ms2) →
  ∃ out ms,
    parse_crewhu_data (first ++ second) = Ret (out, ms)
    ∧ (∀ x, x ∈ out ↔
            x ∈ out2 ∨ (x ∈ out1 ∧ ticket_number x ∉ ticket_number <$> out2))
    ∧ (first = second → out = out1).
Proof.
  intros H1 H2.
  assert (Forall readable (first ++ second)) as Hall.
  { apply Forall_app. split; apply parse_returns; eauto. }
  destruct (parse_written_readable _ Hall) as [ms H].
  apply parse_written in H1 as ->. apply parse_written in H2 as ->.
  eexists _, ms. split_and!; [exact H| |].
  - intros x. rewrite written_ticket, !written_elem, written_app.
    destruct (written second !! ticket_number x) as [y|] eqn:Hy.
    + split; [by left|]. intros [?|[_ Hno]]; [done|]. destruct Hno. eauto.
    + split; [|by intros [?|[? _]]]. intros Hx. right. split; [done|].
      by intros [? ?].
  - intros ->.
    assert (written (second ++ second) = written second) as ->; [|done].
    apply map_eq. intros t. rewrite written_app.
    by destruct (written second !! t).
Qed.

Lemma batches_compose_witness :
  parse_crewhu_data [rating_email; unmatched_email] = Ret ([rating_entry], [99%Z])
  ∧ parse_crewhu_data [second_rating_email] = Ret ([second_rating_entry], [])
  ∧ ∃ out ms,
      parse_crewhu_data ([rating_email; unmatched_email] ++ [second_rating_email])
        = Ret (out, ms)
      ∧ (∀ x, x ∈ out ↔
              x ∈ [second_rating_entry]
              ∨ (x ∈ [rating_entry]
                 ∧ ticket_number x ∉ ticket_number <$> [second_rating_entry]))
      ∧ ([rating_email; unmatched_email] = [second_rating_email] → out = [rating_entry]).
Proof.
  assert (parse_crewhu_data [rating_email; unmatched_email]
          = Ret ([rating_entry], [99%Z])) as H1 by (vm_compute; reflexivity).
  assert (parse_crewhu_data [second_rating_email] = Ret ([second_rating_entry], []))
    as H2 by (vm_compute; reflexivity).
  split; [exact H1|]. split; [exact H2|].
  exact (batches_compose _ _ _ _ _ _ H1 H2).
Defined.

Lemma with_ticket_unique t (l : list SurveyEntry) :
  NoDup (ticket_number <$> l) → with_ticket t l = [] ∨ ∃ x, with_ticket t l = [x].
Proof.
  unfold with_ticket. induction l as [|y l IH]; [by left|].
  rewrite fmap_cons, NoDup_cons. intros [Hy Hnd]. rewrite filter_cons.
  case_decide as Ht; [|by apply IH]. right. exists y. f_equal.
  destruct (filter _ l) as [|z l'] eqn:Hf; [done|]. exfalso. apply Hy.
  assert (z ∈ filter (λ y0, ticket_number y0 = t) l) as Hz by (rewrite Hf; left).
  apply list_elem_of_filter in Hz as [Hz1 Hz2].
  apply list_elem_of_fmap. exists z. split; [congruence|done].
Qed.

(** X12: when no two notifications of a batch yield the same ticket
    number and the batch is processed to the end, the entries written do
    not depend on the order of the notifications: the same notifications
    in another order are processed to the end and give the same entries. *)
Theorem distinct_tickets_any_order (emails emails' : list email)
    (out : list SurveyEntry) (ms : list Z) :
  NoDup (ticket_number <$> entries_of emails) →
  emails' ≡ₚ emails →
  parse_crewhu_data emails = Ret (out, ms) →
  ∃ ms', parse_crewhu_data emails' = Ret (out, ms').
Proof.
  intros Hnd Hperm Hrun.
  assert (Forall readable emails') as Hall'.
  { rewrite Hperm. apply parse_returns. eauto. }
  destruct (parse_written_readable _ Hall') as [ms' ->].
  apply parse_written in Hrun as ->.
  exists ms'.
  assert (written emails' = written emails) as ->; [|done].
  apply map_eq. intros t. unfold written. rewrite !upsert_lookup, !lookup_empty.
  assert (entries_of emails' ≡ₚ entries_of emails) as HE.
  { unfold entries_of. by rewrite Hperm. }
  assert (with_ticket t (entries_of emails') ≡ₚ with_ticket t (entries_of emails)) as Hwt.
  { unfold with_ticket. by rewrite HE. }
  destruct (with_ticket_unique t _ Hnd) as [Hn|[x Hx]].
  - rewrite Hn in Hwt |- *. by apply Permutation_nil_r in Hwt as ->.
  - rewrite Hx in Hwt |- *. by apply Permutation_singleton_r in Hwt as ->.
Qed.

Lemma distinct_tickets_any_order_witness :
  NoDup (ticket_number <$> entries_of sample_batch)
  ∧ [second_rating_email; rating_email; unmatched_email] ≡ₚ sample_batch
  ∧ parse_crewhu_data sample_batch = Ret (sample_entries, [99%Z])
  ∧ ∃ ms', parse_crewhu_data [second_rating_email; rating_email; unmatched_email]
           = Ret (sample_entries, ms').
Proof.
  assert (NoDup (ticket_number <$> entries_of sample_batch)) as Hnd.
  { replace (ticket_number <$> entries_of _) with [42%Z; 7%Z]
      by (vm_compute; reflexivity).
    apply (bool_decide_unpack _). vm_compute. reflexivity. }
  assert ([second_rating_email; rating_email; unmatched_email] ≡ₚ sample_batch)
    as Hperm.
  { apply (Permutation_cons_append [rating_email; unmatched_email]). }
  split; [exact Hnd|]. split; [exact Hperm|]. split; [exact sample_batch_result|].
  exact (distinct_tickets_any_order _ _ _ _ Hnd Hperm sample_batch_result).
Defined.

(** ** The tickets without a match *)

Lemma entry_of_process e st0 :
  process (Store ∅ []) e = Ret st0 → surveys st0 = ∅ → entry_of e = None.
Proof.
  intros Hp Hs. unfold entry_of, parse_crewhu_data. simpl. rewrite Hp. simpl.
  destruct st0 as [sv ms]. simpl in Hs. subst sv. by rewrite sorted_entries_empty.
Qed.

(** The three kinds of notification: one that yields an entry, one that
    names a ticket without following a template, and one that the loop
    passes over. *)
Lemma process_kinds e :
  readable e →
  (∃ x, entry_of e = Some x ∧ (∀ n, ¬ unmatched_ticket e n)
        ∧ ∀ st, process st e = Ret (Store (upsert (surveys st) x) (missed st)))
  ∨ (∃ n, unmatched_ticket e n ∧ (∀ n', unmatched_ticket e n' → n' = n)
          ∧ entry_of e = None
          ∧ ∀ st, process st e
                  = Ret (if decide (n ∈ dom (surveys st)) then st
                         else Store (surveys st) (missed st ++ [n])))
  ∨ (entry_of e = None ∧ (∀ n, ¬ unmatched_ticket e n)
     ∧ ∀ st, process st e = Ret st).
Proof.
  intros Hr.
  destruct (Str.contains "rating" (Str.lower (subject_of e))) eqn:Hs.
  2:{ right. right.
      assert (∀ st, process st e = Ret st) as Hp.
      { intros st. unfold process. fold (subject_of e). by rewrite Hs. }
      split_and!; [by eapply entry_of_process|  |done].
      intros n (Hm & _). apply contains_lower_mentions in Hm; [congruence|done]. }
  destruct (match_rating_line (body_of e)) as [d|] eqn:Hd.
  { left.
    destruct (process_matched (Store ∅ []) e d Hs Hd Hr) as (x0 & fb & Hb & Hf & _).
    exists (mkSurveyEntry (ticket_number x0) (summary x0) fb). split_and!.
    - apply entry_of_spec. split; [by apply contains_lower_mentions|].
      by exists d, x0, fb.
    - intros n (_ & ? & _). congruence.
    - intros st.
      destruct (process_matched st e d Hs Hd Hr) as (x0' & fb' & Hb' & Hf' & ->).
      congruence. }
  right. pose proof (λ st, process_without_match st e Hs Hd) as Hp.
  unfold readable in Hr. rewrite (ticket_text_unmatched _ Hs Hd) in Hr.
  destruct (first_ticket (body_of e)) as [ds|] eqn:Hfirst.
  - left. destruct (first_ticket_found _ _ Hfirst) as (Hne & Hall & _).
    destruct (of_str_digits ds Hne Hall Hr) as (n & Hn & _).
    rewrite Hn in Hp.
    exists n. split_and!; [| | |done].
    + split_and!; [by apply contains_lower_mentions|done|by exists ds].
    + intros n' (_ & _ & ds' & Hds' & ?). congruence.
    + eapply entry_of_process; [apply Hp|]. simpl. by case_decide.
  - right. split_and!; [by eapply entry_of_process| |done].
    intros n (_ & _ & ds & ? & _). congruence.
Qed.

(** The loop from any store: the entries go to [surveys] as they come, and
    [missed] grows by the unmatched tickets that have no entry at their
    turn. *)
Lemma process_all_missed emails :
  Forall readable emails → ∀ st,
  ∃ l, process_all st emails
       = Ret (Store (foldl upsert (surveys st) (entries_of emails)) (missed st ++ l))
       ∧ ∀ n, n ∈ l ↔
              ∃ before e after,
                emails = before ++ e :: after ∧ unmatched_ticket e n
                ∧ foldl upsert (surveys st) (entries_of before) !! n = None.
Proof.
  induction 1 as [|e emails Hr _ IH]; intros st.
  { exists []. split.
    - destruct st. simpl. by rewrite app_nil_r.
    - intros n. split; [by intros ?%elem_of_nil|].
      intros (before & ? & ? & Heq & _). by destruct before. }
  cbn [process_all].
  destruct (process_kinds e Hr) as [(x & Hx & Hno & Hp)|[(n0 & Hn0 & Huniq & Hx & Hp)|(Hx & Hno & Hp)]];
    rewrite Hp; cbn [mbind res_bind bind].
  - destruct (IH (Store (upsert (surveys st) x) (missed st))) as (l & -> & Hl).
    exists l. rewrite entries_of_cons, Hx. split; [done|].
    intros n. rewrite Hl. cbn [surveys]. split.
    + intros (before & e' & after & -> & Hu & Hlook).
      exists (e :: before), e', after. split_and!; [done|done|].
      by rewrite entries_of_cons, Hx.
    + intros (before & e' & after & Heq & Hu & Hlook).
      destruct before as [|e0 before]; simpl in Heq; simplify_eq; [by destruct (Hno n)|].
      exists before, e', after. split_and!; [done|done|].
      by rewrite entries_of_cons, Hx in Hlook.
  - set (st1 := if decide (n0 ∈ dom (surveys st)) then st
                else Store (surveys st) (missed st ++ [n0])).
    assert (surveys st1 = surveys st) as Hsv by (unfold st1; by case_decide).
    destruct (IH st1) as (l & -> & Hl). rewrite Hsv in Hl |- *.
    exists ((if decide (n0 ∈ dom (surveys st)) then [] else [n0]) ++ l).
    rewrite entries_of_cons, Hx. split.
    { f_equal. f_equal. unfold st1. case_decide; simpl; [done|].
      by rewrite <- app_assoc. }
    intros n. rewrite elem_of_app, Hl. split.
    + intros [Hn|(before & e' & after & -> & Hu & Hlook)].
      * case_decide as Hdom; [by apply elem_of_nil in Hn|].
        apply list_elem_of_singleton in Hn as ->.
        exists [], e, emails. split_and!; [done|done|]. simpl.
        by apply not_elem_of_dom.
      * exists (e :: before), e', after. split_and!; [done|done|].
        by rewrite entries_of_cons, Hx.
    + intros (before & e' & after & Heq & Hu & Hlook).
      destruct before as [|e0 before]; simpl in Heq; simplify_eq.
      * left. apply Huniq in Hu as ->. simpl in Hlook. apply not_elem_of_dom in Hlook.
        rewrite decide_False by done. by left.
      * right. exists before, e', after. split_and!; [done|done|].
        by rewrite entries_of_cons, Hx in Hlook.
  - destruct (IH st) as (l & -> & Hl).
    exists l. rewrite entries_of_cons, Hx. split; [done|].
    intros n. rewrite Hl. split.
    + intros (before & e' & after & -> & Hu & Hlook).
      exists (e :: before), e', after. split_and!; [done|done|].
      by rewrite entries_of_cons, Hx.
    + intros (before & e' & after & Heq & Hu & Hlook).
      destruct before as [|e0 before]; simpl in Heq; simplify_eq; [by destruct (Hno n)|].
      exists before, e', after. split_and!; [done|done|].
      by rewrite entries_of_cons, Hx in Hlook.
Qed.

Lemma written_none emails n :
  written emails !! n = None ↔ n ∉ ticket_number <$> entries_of emails.
Proof.
  unfold written. rewrite upsert_lookup, lookup_empty, list_elem_of_fmap.
  unfold with_ticket.
  destruct (last _) as [y|] eqn:Hy.
  - split; [done|]. intros Hno. destruct Hno.
    apply last_with_ticket in Hy as [? ?]. eauto.
  - split; [|done]. intros _ (y & -> & Hin). apply last_None in Hy.
    assert (y ∈ filter (λ y0, ticket_number y0 = ticket_number y) (entries_of emails))
      as Hf by by apply list_elem_of_filter.
    rewrite Hy in Hf. by apply elem_of_nil in Hf.
Qed.

Lemma unmatched_ticket_nonneg e n : unmatched_ticket e n → (0 ≤ n)%Z.
Proof.
  intros (_ & _ & ds & Hds & Hn).
  destruct (first_ticket_found _ _ Hds) as (Hne & Hdec & _).
  destruct (Nat.le_gt_cases (length ds) Int.max_str_digits) as [Hlen|Hlen].
  - destruct (of_str_digits ds Hne Hdec Hlen) as (n' & Hn' & ?). congruence.
  - rewrite (of_str_long ds Hdec Hlen) in Hn. done.
Qed.

(** X13: the tickets that [parse_crewhu_data] records as missed, when
    the run returns.  A number is in [missed] exactly when some rating
    notification of the batch follows no template, names that number in
    its first ticket mention, and no notification before it in the batch
    yields an entry with that number (a later one may).  No number in
    [missed] is negative. *)
Theorem missed_tickets (emails : list email) (out : list SurveyEntry) (ms : list Z) :
  parse_crewhu_data emails = Ret (out, ms) →
  (∀ n, n ∈ ms ↔
        ∃ before e after,
          emails = before ++ e :: after ∧ unmatched_ticket e n
          ∧ n ∉ ticket_number <$> entries_of before)
  ∧ (∀ n, n ∈ ms → (0 ≤ n)%Z).
Proof.
  intros Hrun.
  assert (Forall readable emails) as Hall by (apply parse_returns; eauto).
  unfold parse_crewhu_data in Hrun.
  destruct (process_all_missed emails Hall (Store ∅ [])) as (l & Hp & Hl).
  rewrite Hp in Hrun. simpl in Hrun. injection Hrun as _ <-.
  assert (∀ n, n ∈ l ↔
            ∃ before e after,
              emails = before ++ e :: after ∧ unmatched_ticket e n
              ∧ n ∉ ticket_number <$> entries_of before) as Hl'.
  { intros n. rewrite Hl. by setoid_rewrite <- written_none. }
  split; [done|]. intros n (_ & e & _ & _ & Hu & _)%Hl'.
  by eapply unmatched_ticket_nonneg.
Qed.

Lemma missed_tickets_witness :
  parse_crewhu_data sample_batch = Ret (sample_entries, [99%Z])
  ∧ (∀ n, n ∈ [99%Z] ↔
          ∃ before e after,
            sample_batch = before ++ e :: after ∧ unmatched_ticket e n
            ∧ n ∉ ticket_number <$> entries_of before)
  ∧ (∀ n, n ∈ [99%Z] → (0 ≤ n)%Z).
Proof.
  split; [exact sample_batch_result|].
  exact (missed_tickets _ _ _ sample_batch_result).
Defined.

(** X14: the report of the missed tickets, [sorted(set(missed))], names
    every missed ticket once, in ascending order. *)
Theorem missed_report_ascending (st : store) :
  Sorted Z.lt (missed_report st)
  ∧ NoDup (missed_report st)
  ∧ ∀ n, n ∈ missed_report st ↔ n ∈ missed st.
Proof.
  unfold missed_report.
  assert (NoDup (merge_sort Z.le (remove_dups (missed st)))) as Hnd.
  { rewrite merge_sort_Permutation. apply NoDup_remove_dups. }
  assert (Sorted Z.le (merge_sort Z.le (remove_dups (missed st)))) as Hs.
  { apply (Sorted_merge_sort Z.le). }
  split_and!; [|done|].
  - induction Hs as [|a l Hl IH Ha]; [constructor|].
    apply NoDup_cons in Hnd as [Hnot Hnd']. constructor; [by apply IH|].
    destruct Ha as [|b l' Hab]; constructor.
    assert (a ≠ b) by (intros ->; apply Hnot; left). lia.
  - intros n. by rewrite merge_sort_Permutation, elem_of_remove_dups.
Qed.

(** ** The text before the first match *)

Lemma match_here_None f r b p s :
  Re.match_here f r b p s = None ↔ Re.rmatch f r (Re.MState p s ∅) Some = None.
Proof. unfold Re.match_here. by destruct (Re.rmatch _ _ _ _). Qed.

(** [search] stops at the leftmost position where the pattern matches. *)
Lemma search_from_before f r : ∀ s b p m,
  Re.search_from f r b p s = Some m →
  ∃ pre s', s = pre ++ s' ∧ Re.m_before m = rev b ++ pre
            ∧ ∀ a c, pre = a ++ c → c ≠ [] →
                     Re.rmatch f r (Re.MState (lastp p a) (c ++ s') ∅) Some = None.
Proof.
  induction s as [|x s IH]; intros b p m; cbn [Re.search_from].
  - destruct (Re.match_here f r (rev b) p []) as [m'|] eqn:Hm; [|done].
    intros [= <-]. exists [], []. split_and!; [done| |].
    + unfold Re.match_here in Hm. destruct (Re.rmatch _ _ _ _); [|done].
      injection Hm as <-. simpl. by rewrite app_nil_r.
    + intros a c Heq. by destruct a, c.
  - destruct (Re.match_here f r (rev b) p (x :: s)) as [m'|] eqn:Hm.
    + intros [= <-]. exists [], (x :: s). split_and!; [done| |].
      * unfold Re.match_here in Hm. destruct (Re.rmatch _ _ _ _); [|done].
        injection Hm as <-. simpl. by rewrite app_nil_r.
      * intros a c Heq. by destruct a, c.
    + intros Hs. destruct (IH _ _ _ Hs) as (pre & s' & -> & Hb & Hnone).
      exists (x :: pre), s'. split_and!; [done| |].
      * rewrite Hb. simpl. by rewrite <- app_assoc.
      * intros a c Heq Hc. destruct a as [|y a]; simpl in Heq.
        -- subst c. by apply match_here_None in Hm.
        -- injection Heq as <- ->. rewrite lastp_cons. by apply Hnone.
Qed.

Lemma search_from_nowhere f r : ∀ s b p,
  Re.search_from f r b p s = None →
  ∀ a c, s = a ++ c → Re.rmatch f r (Re.MState (lastp p a) c ∅) Some = None.
Proof.
  induction s as [|x s IH]; intros b p; cbn [Re.search_from].
  - destruct (Re.match_here f r (rev b) p []) as [m'|] eqn:Hm; [done|].
    intros _ a c Heq. destruct a, c; try done. by apply match_here_None in Hm.
  - destruct (Re.match_here f r (rev b) p (x :: s)) as [m'|] eqn:Hm; [done|].
    intros Hs a c Heq. destruct a as [|y a]; simpl in Heq.
    + subst c. by apply match_here_None in Hm.
    + injection Heq as <- ->. rewrite lastp_cons. by eapply IH.
Qed.

Lemma lits_ok_prefix f w t : lits_ok f w (w ++ t) = true.
Proof.
  induction w as [|x w IH]; simpl; [done|]. rewrite IH, andb_true_r.
  unfold Re.lit_ok. destruct (Re.IGNORECASE f); apply Ascii.eqb_refl.
Qed.

(** The second alternative of the pattern of [extract_feedback] matches
    wherever the text reads "Regards,". *)
Lemma boilerplate_at_signoff p t caps0 :
  Re.rmatch (Re.p_flags BOILERPLATE) (Re.p_regex BOILERPLATE)
    (Re.MState p ("Regards," ++ t) caps0) Some ≠ None.
Proof.
  unfold BOILERPLATE. cbn [Re.p_regex Re.p_flags Re.rmatch].
  destruct (Re.rmatch _ (Re.seq _) _ _); [done|].
  rewrite rmatch_lits. cbn [Re.rest].
  by rewrite (lits_ok_prefix _ "Regards," t).
Qed.

Lemma split_first_signoff t :
  ¬ occurs "Regards," (Re.split_first (Re.p_flags BOILERPLATE) (Re.p_regex BOILERPLATE) t).
Proof.
  unfold Re.split_first, Re.search. intros (a & post & Heq).
  destruct (Re.search_from _ _ [] None t) as [m|] eqn:Hs.
  - apply search_from_before in Hs as (pre & s' & -> & Hb & Hnone).
    simpl in Hb. rewrite Hb in Heq.
    specialize (Hnone a ("Regards," ++ post) Heq ltac:(done)).
    rewrite <- app_assoc in Hnone. by apply boilerplate_at_signoff in Hnone.
  - eapply search_from_nowhere in Hs; [|exact Heq].
    by apply boilerplate_at_signoff in Hs.
Qed.

(** A word without the separator stands on one side of it. *)
Lemma occurs_app_sep (w p q : str) c :
  w ≠ [] → c ∉ w → occurs w (p ++ c :: q) → occurs w p ∨ occurs w q.
Proof.
  intros Hw Hc (x & y & Heq). symmetry in Heq.
  apply app_eq_inv in Heq as [(k & -> & Hk)|(k & -> & Hk)].
  - destruct k as [|c' k]; simpl in Hk.
    + destruct w as [|c' w]; [done|]. injection Hk as -> _. destruct Hc. left.
    + injection Hk as -> ->. right. by exists k, y.
  - apply app_eq_inv in Hk as [(k2 & -> & Hk2)|(k2 & -> & Hk2)].
    + destruct k2 as [|c' k2]; simpl in Hk2.
      * left. exists x, []. by rewrite !app_nil_r.
      * injection Hk2 as -> _. destruct Hc. rewrite elem_of_app. right. left.
    + left. by exists x, k2.
Qed.

Lemma occurs_join (w : str) (parts : list str) :
  w ≠ [] → " "%char ∉ w → occurs w (Str.join " " parts) →
  ∃ part, part ∈ parts ∧ occurs w part.
Proof.
  intros Hw Hsp. induction parts as [|p ps IH]; cbn [Str.join].
  - intros (x & y & Heq). by destruct x, w.
  - destruct ps as [|q ps].
    + intros H. exists p. split; [left|done].
    + intros H. apply (occurs_app_sep w p _ " "%char Hw Hsp) in H as [H|H].
      * exists p. split; [left|done].
      * destruct (IH H) as (part & ? & ?). exists part. split; [by right|done].
Qed.

Lemma occurs_infix w s a b : occurs w s → occurs w (a ++ s ++ b).
Proof.
  intros (x & y & ->). exists (a ++ x), (y ++ b). by rewrite <- !app_assoc.
Qed.

Lemma occurs_replace_chr (w s : str) a b :
  a ∉ w → b ∉ w → occurs w (Str.replace_chr a b s) → occurs w s.
Proof.
  intros Ha Hb (x & y & Heq). unfold Str.replace_chr in Heq.
  apply fmap_app_inv in Heq as (x' & r & -> & Hr & ->).
  symmetry in Hr. apply fmap_app_inv in Hr as (w' & y' & Hw & -> & ->).
  exists x', y'. do 2 f_equal. subst w. clear Ha.
  induction w' as [|c w' IH]; [done|]. rewrite fmap_cons in Hb |- *.
  apply not_elem_of_cons in Hb as [Hc Hb]. rewrite <- IH by done. f_equal.
  by destruct (Ascii.eqb c a).
Qed.

(** X15: the sign-off never gets into the feedback: whatever the body,
    the text that [extract_feedback] returns does not hold "Regards,". *)
Theorem feedback_without_signoff (full_body : str) :
  ∃ feedback,
    extract_feedback full_body = Ret feedback ∧ ¬ occurs "Regards," feedback.
Proof.
  rewrite extract_feedback_scan. eexists. split; [done|].
  assert (¬ occurs "Regards," NO_FEEDBACK) as Hno.
  { intros (x & y & Heq).
    assert (Str.contains "Regards," NO_FEEDBACK = true) as Hc
      by (apply contains_spec; eauto).
    by vm_compute in Hc. }
  destruct (after_marker MARKER full_body) as [tail|]; [|done].
  destruct (Str.truthy (feedback_text tail)); [|done].
  unfold feedback_text. intros H.
  apply occurs_join in H as (part & Hpart & H); [|done|].
  2:{ by apply (bool_decide_unpack _). }
  apply list_elem_of_fmap in Hpart as (line & -> & Hline).
  apply list_elem_of_In, List.filter_In in Hline as [Hline _].
  apply list_elem_of_In in Hline.
  destruct (strip_with_infix Chr.isspace line) as (a & b & Hl).
  apply (occurs_infix _ _ a b) in H. fold (Str.strip line) in Hl. rewrite <- Hl in H.
  destruct (splitlines_infix _ _ Hline) as (a' & b' & Hs).
  apply (occurs_infix _ _ a' b') in H. rewrite <- Hs in H.
  apply occurs_replace_chr in H; [|by apply (bool_decide_unpack _)..].
  by apply split_first_signoff in H.
Qed.
